(** * Example scripts for a node-graph host: model and verified properties

    The repository is a set of Python scripts that drive a proprietary
    node-graph host through its scripting API.  The host itself is not part
    of the repository; each module below gives the part of the host object
    model that the embedded script code touches (operators, connectors,
    wires, parameters), and then embeds the script code over it. *)

From Stdlib Require Import ZArith Ascii String.
From Stdlib Require QArith_base.
From stdpp Require Import gmap strings list relations pretty.

(** ** Shared vocabulary *)

Module Host.

(** A reference to a host operator.  The host compares and hashes operator
    objects by identity, so a reference is all that [==], [in] and [set()]
    look at. *)
Definition OP := nat.

(** Python-style loop with an accumulator whose body may fail to return. *)
Fixpoint for_each {A S : Type} (xs : list A) (body : A → S → option S) (s : S)
  : option S :=
  match xs with
  | [] => Some s
  | x :: xs => s' ← body x s; for_each xs body s'
  end.

(** A wire runs from output [w_out] of [w_src] to input [w_in] of [w_dst]. *)
Record Wire := { w_src : OP; w_out : nat; w_dst : OP; w_in : nat }.

(** A connector object: the [index]-th connector of [owner]. *)
Record Connector := { owner : OP; index : nat }.

Record Shape := { n_inputs : nat; n_outputs : nat }.

(** The host's network: which operators exist, how many connectors each
    has, and the wires between them. *)
Record Network := { operators : gmap OP Shape; wires : list Wire }.

Definition connectors_of (o : OP) (n : nat) : list Connector :=
  (λ i, {| owner := o; index := i |}) <$> seq 0 n.

(** [operator.inputConnectors] *)
Definition inputConnectors (net : Network) (o : OP) : list Connector :=
  match operators net !! o with
  | Some s => connectors_of o (n_inputs s)
  | None => []
  end.

(** [operator.outputConnectors] *)
Definition outputConnectors (net : Network) (o : OP) : list Connector :=
  match operators net !! o with
  | Some s => connectors_of o (n_outputs s)
  | None => []
  end.

Definition enters (c : Connector) (w : Wire) : Prop :=
  w_dst w = owner c ∧ w_in w = index c.

Definition leaves (c : Connector) (w : Wire) : Prop :=
  w_src w = owner c ∧ w_out w = index c.

#[export] Instance enters_dec c w : Decision (enters c w).
Proof. unfold enters. apply _. Defined.

#[export] Instance leaves_dec c w : Decision (leaves c w).
Proof. unfold leaves. apply _. Defined.

(** [connector.connections] of an input connector: the scripts treat its
    elements as the operators wired into it ([source in
    connector.connections], [get_upstream_ops(connection)]). *)
Definition in_connections (net : Network) (c : Connector) : list OP :=
  w_src <$> filter (enters c) (wires net).

(** [connector.connections] of an output connector: the scripts treat its
    elements as the connectors at the far end ([connection.owner]). *)
Definition out_connections (net : Network) (c : Connector) : list Connector :=
  (λ w, {| owner := w_dst w; index := w_in w |}) <$> filter (leaves c) (wires net).

(** [connector.disconnect()] on an input connector. *)
Definition disconnect (net : Network) (c : Connector) : Network :=
  {| operators := operators net;
     wires := filter (λ w, ¬ enters c w) (wires net) |}.

(** [connector.connect(source)] on an input connector: the wire from the
    first output of [source] replaces whatever was wired into [c]. *)
Definition connect (net : Network) (c : Connector) (source : OP) : Network :=
  {| operators := operators net;
     wires := filter (λ w, ¬ enters c w) (wires net)
              ++ [ {| w_src := source; w_out := 0;
                      w_dst := owner c; w_in := index c |} ] |}.

End Host.

(** ** The collecting traversal *)

Module Traversal.
Import Host.

(** The shape shared by the recursive traversals [get_downstream_ops] and
    [get_upstream_ops]: collect every neighbour and, recursively, everything
    collected from it, then drop duplicates with [list(set(...))]. *)
Definition visit (rec : OP → option (list OP)) (v : OP) (acc : list OP)
  : option (list OP) :=
  r ← rec v; Some ((acc ++ [v]) ++ r).

Fixpoint collect (succ : OP → list OP) (fuel : nat) (o : OP) : option (list OP) :=
  match fuel with
  | 0 => None
  | S fuel =>
      acc ← for_each (succ o) (visit (collect succ fuel)) [];
      Some (elements (list_to_set acc : gset OP))
  end.

(** One step along the neighbour function. *)
Definition step (succ : OP → list OP) (u v : OP) : Prop := v ∈ succ u.

End Traversal.

(** ** connection_examples.py: connection utilities *)

Module Connection.
Import Host.

(** [are_connected(source, target)] *)
Definition are_connected (net : Network) (source target : OP) : bool :=
  existsb (λ connector,
             bool_decide (in_connections net connector ≠ [])
             && bool_decide (source ∈ in_connections net connector))
          (inputConnectors net target).

(** [get_downstream_ops(operator)].  [None] means that the recursion has not
    returned within [fuel] nested calls; a call that returns [None] for
    every [fuel] is a call that never returns a list (the interpreter ends
    it with [RecursionError]). *)
Fixpoint get_downstream_ops (fuel : nat) (net : Network) (operator : OP)
  : option (list OP) :=
  match fuel with
  | 0 => None
  | S fuel =>
      downstream ←
        for_each (outputConnectors net operator) (λ connector downstream,
          for_each (out_connections net connector) (λ connection downstream,
            further ← get_downstream_ops fuel net (owner connection);
            Some ((downstream ++ [owner connection]) ++ further))
          downstream)
        [];
      Some (elements (list_to_set downstream : gset OP))
  end.

(** [get_upstream_ops(operator)] *)
Fixpoint get_upstream_ops (fuel : nat) (net : Network) (operator : OP)
  : option (list OP) :=
  match fuel with
  | 0 => None
  | S fuel =>
      upstream ←
        for_each (inputConnectors net operator) (λ connector upstream,
          for_each (in_connections net connector) (λ connection upstream,
            further ← get_upstream_ops fuel net connection;
            Some ((upstream ++ [connection]) ++ further))
          upstream)
        [];
      Some (elements (list_to_set upstream : gset OP))
  end.

(** Operators one output connection away, in visiting order. *)
Definition consumers (net : Network) (o : OP) : list OP :=
  c ← outputConnectors net o; owner <$> out_connections net c.

(** Operators one input connection away, in visiting order. *)
Definition producers (net : Network) (o : OP) : list OP :=
  c ← inputConnectors net o; in_connections net c.

(** [v] is reached from [u] by following one output connection. *)
Definition feeds (net : Network) (u v : OP) : Prop :=
  ∃ c k, c ∈ outputConnectors net u ∧ k ∈ out_connections net c ∧ owner k = v.

(** [v] is reached from [u] by following one input connection. *)
Definition fed_by (net : Network) (u v : OP) : Prop :=
  ∃ c, c ∈ inputConnectors net u ∧ v ∈ in_connections net c.

(** Outcome of a call that may raise after having changed the network. *)
Inductive outcome :=
| Returned (result : bool) (net : Network)
| IndexError (net : Network).

(** The loop of [insert_operator_between] over [target.inputConnectors]. *)
Fixpoint insert_loop (net : Network) (new_op source : OP)
    (connectors : list Connector) : outcome :=
  match connectors with
  | [] => Returned false net
  | connector :: rest =>
      if bool_decide (in_connections net connector ≠ [])
         && bool_decide (source ∈ in_connections net connector)
      then
        let net1 := disconnect net connector in
        match inputConnectors net1 new_op !! 0 with
        | None => IndexError net1
        | Some first =>
            let net2 := connect net1 first source in
            let net3 := connect net2 connector new_op in
            Returned true net3
        end
      else insert_loop net new_op source rest
  end.

(** [insert_operator_between(new_op, source, target)] *)
Definition insert_operator_between (net : Network) (new_op source target : OP)
  : outcome :=
  insert_loop net new_op source (inputConnectors net target).

(** *** Networks wired the way the scripts wire them *)

Definition input_of (o : OP) (i : nat) : Connector := {| owner := o; index := i |}.

(** The operators of [connection_utility_examples]: [util_noise1] (0),
    [util_noise2] (1), [util_blur] (2), [util_comp] (3), [util_level] (4),
    and a generator without inputs (5). *)
Definition util_operators : gmap OP Shape :=
  {[ 0 := {| n_inputs := 1; n_outputs := 1 |};
     1 := {| n_inputs := 1; n_outputs := 1 |};
     2 := {| n_inputs := 1; n_outputs := 1 |};
     3 := {| n_inputs := 2; n_outputs := 1 |};
     4 := {| n_inputs := 1; n_outputs := 1 |};
     5 := {| n_inputs := 0; n_outputs := 1 |} ]}.

(** [blur.inputConnectors[0].connect(n1)], [comp.inputConnectors[0].connect(blur)],
    [comp.inputConnectors[1].connect(n2)]. *)
Definition util_network : Network :=
  let net := {| operators := util_operators; wires := [] |} in
  let net := connect net (input_of 2 0) 0 in
  let net := connect net (input_of 3 0) 2 in
  connect net (input_of 3 1) 1.

(** Two operators wired into each other's input: a feedback ring. *)
Definition ring_network : Network :=
  let net := {| operators := {[ 0 := {| n_inputs := 1; n_outputs := 1 |};
                                1 := {| n_inputs := 1; n_outputs := 1 |} ]};
                wires := [] |} in
  let net := connect net (input_of 1 0) 0 in
  connect net (input_of 0 0) 1.

(** A feedback ring between operators 0 and 1 whose result also goes to
    operator 2. *)
Definition feedback_network : Network :=
  let net := {| operators := {[ 0 := {| n_inputs := 1; n_outputs := 1 |};
                                1 := {| n_inputs := 1; n_outputs := 1 |};
                                2 := {| n_inputs := 1; n_outputs := 1 |} ]};
                wires := [] |} in
  let net := connect net (input_of 1 0) 0 in
  let net := connect net (input_of 0 0) 1 in
  connect net (input_of 2 0) 1.

(** One operator wired into its own input. *)
Definition loop_network : Network :=
  connect {| operators := {[ 0 := {| n_inputs := 1; n_outputs := 1 |} ]};
             wires := [] |}
          (input_of 0 0) 0.

End Connection.

(** ** network_navigation_examples.py: paths in the network *)

Module Navigation.
Import Host.

(** *** Python string operations used by [get_relative_path] *)

(** [s.split(sep)] for a one-character separator. *)
Fixpoint split (sep : ascii) (s : string) : list string :=
  match s with
  | EmptyString => [EmptyString]
  | String c rest =>
      if Ascii.eqb c sep then EmptyString :: split sep rest
      else match split sep rest with
           | part :: parts => String c part :: parts
           | [] => [String c EmptyString]
           end
  end.

(** [sep.join(parts)] *)
Definition join (sep : string) (parts : list string) : string :=
  String.concat sep parts.

(** [s * n] *)
Fixpoint str_repeat (s : string) (n : nat) : string :=
  match n with
  | 0 => EmptyString
  | S n => s +:+ str_repeat s n
  end.

(** The loop that finds the common ancestor: [indices] is what is left of
    [range(min(len(from_parts), len(to_parts)))]. *)
Fixpoint common_loop (from_parts to_parts : list string) (indices : list nat)
    (common_len : nat) : nat :=
  match indices with
  | [] => common_len
  | i :: indices =>
      match from_parts !! i, to_parts !! i with
      | Some a, Some b =>
          if decide (a = b)
          then common_loop from_parts to_parts indices (i + 1)
          else common_len
      | _, _ => common_len (* not reached: [i] is below both lengths *)
      end
  end.

Definition common_ancestor_len (from_parts to_parts : list string) : nat :=
  common_loop from_parts to_parts
    (seq 0 (length from_parts `min` length to_parts)) 0.

(** [get_relative_path(from_op, to_op)], on the two [path] attributes. *)
Definition get_relative_path (from_path to_path : string) : string :=
  let from_parts := split "/" from_path in
  let to_parts := split "/" to_path in
  let common_len := common_ancestor_len from_parts to_parts in
  let up_levels := length from_parts - common_len in
  let rel_path := str_repeat "../" up_levels in
  rel_path +:+ join "/" (drop common_len to_parts).

(** *** What the relative path is for *)

(** [n] is the length of the longest common prefix of two component lists. *)
Definition longest_common_prefix (n : nat) (xs ys : list string) : Prop :=
  n ≤ length xs ∧ n ≤ length ys ∧ take n xs = take n ys ∧
  ∀ m, m ≤ length xs → m ≤ length ys → take m xs = take m ys → m ≤ n.

(** The length of the longest common prefix, computed directly. *)
Fixpoint lcp (xs ys : list string) : nat :=
  match xs, ys with
  | x :: xs, y :: ys => if decide (x = y) then S (lcp xs ys) else 0
  | _, _ => 0
  end.

Fixpoint has_char (c : ascii) (s : string) : bool :=
  match s with
  | EmptyString => false
  | String d rest => Ascii.eqb d c || has_char c rest
  end.

(** An operator name: not empty, not the parent marker, no separator. *)
Definition valid_name (s : string) : Prop :=
  s ≠ "" ∧ s ≠ ".." ∧ has_char "/" s = false.

#[export] Instance valid_name_dec s : Decision (valid_name s).
Proof. unfold valid_name. apply _. Defined.

(** The absolute path of the operator reached from the root through the
    containers [names]; the root itself is ["/"]. *)
Definition abs_path (names : list string) : string := "/" +:+ join "/" names.

(** The names along a path: its non-empty components. *)
Definition path_names (path : string) : list string :=
  filter (λ s, s ≠ "") (split "/" path).

Fixpoint leading_ups (components : list string) : nat :=
  match components with
  | c :: rest => if decide (c = "..") then S (leading_ups rest) else 0
  | [] => 0
  end.

(** Resolving a relative path against the path of an operator: go up one
    component for each leading ["../"] segment, then descend along the
    remaining components. *)
Definition resolve_relative (base rel : string) : string :=
  let components := split "/" rel in
  let ups := leading_ups components in
  let names := path_names base in
  abs_path (take (length names - ups) names
            ++ filter (λ s, s ≠ "") (drop ups components)).

(** The same resolution when nothing lies above the root: a relative
    path with more leading ["../"] segments than [base] has names resolves
    to nothing. *)
Definition resolve_strict (base rel : string) : option string :=
  if decide (leading_ups (split "/" rel) ≤ length (path_names base))
  then Some (resolve_relative base rel)
  else None.

(** *** Paths through the wiring *)

(** [find_paths(start_op, end_op, visited)].  The recursive call receives
    [visited.copy()], so the callee never changes the caller's set. *)
Fixpoint find_paths (fuel : nat) (net : Network) (start_op end_op : OP)
    (visited : gset OP) : option (list (list OP)) :=
  match fuel with
  | 0 => None
  | S fuel =>
      if decide (start_op = end_op) then Some [[start_op]]
      else
        let visited := {[start_op]} ∪ visited in
        for_each (outputConnectors net start_op) (λ connector paths,
          for_each (out_connections net connector) (λ connection paths,
            let next_op := owner connection in
            if decide (next_op ∉ visited) then
              sub_paths ← find_paths fuel net next_op end_op visited;
              Some (paths ++ ((λ path, start_op :: path) <$> sub_paths))
            else Some paths)
          paths)
        []
  end.

End Navigation.

(** ** performance_optimization_examples.py: the operator pool *)

Module Performance.
Import Host.

(** An operator class object such as [noiseTOP]: its name and the
    parameters a fresh instance comes with. *)
Record OpType := { type_name : string; default_pars : gmap string Z }.

(** The attributes of an operator that the pool touches. *)
Record Operator := {
  op_type : OpType;
  name : string;
  nodeX : Z;
  nodeY : Z;
  bypass : bool;
  par : gmap string Z
}.

(** The children of [op('/project1')]. *)
Abbreviation Project := (gmap OP Operator).

(** [op('/project1').create(op_type, name)]: the host hands out an
    operator that did not exist before. *)
Definition create (proj : Project) (ty : OpType) (nm : string) : OP * Project :=
  let o := fresh (dom proj) in
  (o, <[o := {| op_type := ty; name := nm; nodeX := 0; nodeY := 0;
                bypass := false; par := default_pars ty |}]> proj).

Definition set_nodeX (o : OP) (v : Z) (proj : Project) : Project :=
  alter (λ r, {| op_type := op_type r; name := name r; nodeX := v;
                 nodeY := nodeY r; bypass := bypass r; par := par r |}) o proj.

Definition set_nodeY (o : OP) (v : Z) (proj : Project) : Project :=
  alter (λ r, {| op_type := op_type r; name := name r; nodeX := nodeX r;
                 nodeY := v; bypass := bypass r; par := par r |}) o proj.

Definition set_bypass (o : OP) (v : bool) (proj : Project) : Project :=
  alter (λ r, {| op_type := op_type r; name := name r; nodeX := nodeX r;
                 nodeY := nodeY r; bypass := v; par := par r |}) o proj.

(** [op_obj.par.<p> = v] *)
Definition set_par (o : OP) (p : string) (v : Z) (proj : Project) : Project :=
  alter (λ r, {| op_type := op_type r; name := name r; nodeX := nodeX r;
                 nodeY := nodeY r; bypass := bypass r;
                 par := <[p := v]> (par r) |}) o proj.

(** [hasattr(op_obj.par, p)] *)
Definition has_par (o : OP) (p : string) (proj : Project) : bool :=
  match proj !! o with
  | Some r => bool_decide (is_Some (par r !! p))
  | None => false
  end.

(** [op_obj.destroy()] *)
Definition destroy (o : OP) (proj : Project) : Project := delete o proj.

(** [l.pop()]: the last element and the list without it. *)
Definition pop {A : Type} (l : list A) : option (A * list A) :=
  match reverse l with
  | x :: rest => Some (x, reverse rest)
  | [] => None
  end.

(** [l.remove(x)]: drops the first occurrence. *)
Fixpoint remove_first (x : OP) (l : list OP) : list OP :=
  match l with
  | [] => []
  | y :: l => if decide (x = y) then l else y :: remove_first x l
  end.

Record OperatorPool := {
  pool_op_type : OpType;
  pool_size : Z;
  name_prefix : string;
  available : list OP;
  in_use : list OP
}.

(** The pre-creation loop of [__init__]; [indices] is what is left of
    [range(pool_size)]. *)
Fixpoint precreate (proj : Project) (ty : OpType) (prefix : string)
    (indices : list nat) (avail : list OP) : Project * list OP :=
  match indices with
  | [] => (proj, avail)
  | i :: indices =>
      let '(op_obj, proj) := create proj ty (prefix +:+ "_" +:+ pretty i) in
      let proj := set_nodeX op_obj (-1000) proj in
      let proj := set_nodeY op_obj (-1000) proj in
      let proj := set_bypass op_obj true proj in
      precreate proj ty prefix indices (avail ++ [op_obj])
  end.

(** [OperatorPool(op_type, pool_size, name_prefix)] *)
Definition new_pool (proj : Project) (ty : OpType) (size : Z) (prefix : string)
  : Project * OperatorPool :=
  let '(proj, avail) := precreate proj ty prefix (seq 0 (Z.to_nat size)) [] in
  (proj, {| pool_op_type := ty; pool_size := size; name_prefix := prefix;
            available := avail; in_use := [] |}).

(** [pool.reset_operator(op_obj)] *)
Definition reset_operator (proj : Project) (op_obj : OP) : Project :=
  let proj := if has_par op_obj "seed" proj then set_par op_obj "seed" 0 proj
              else proj in
  if has_par op_obj "period" proj then set_par op_obj "period" 1 proj else proj.

(** [pool.acquire()] *)
Definition acquire (proj : Project) (pool : OperatorPool)
  : option OP * Project * OperatorPool :=
  match pop (available pool) with
  | Some (op_obj, avail) =>
      (Some op_obj,
       set_bypass op_obj false proj,
       {| pool_op_type := pool_op_type pool; pool_size := pool_size pool;
          name_prefix := name_prefix pool;
          available := avail; in_use := in_use pool ++ [op_obj] |})
  | None => (None, proj, pool)
  end.

(** [pool.release(op_obj)] *)
Definition release (proj : Project) (pool : OperatorPool) (op_obj : OP)
  : Project * OperatorPool :=
  if decide (op_obj ∈ in_use pool) then
    let pool := {| pool_op_type := pool_op_type pool; pool_size := pool_size pool;
                   name_prefix := name_prefix pool;
                   available := available pool ++ [op_obj];
                   in_use := remove_first op_obj (in_use pool) |} in
    let proj := set_bypass op_obj true proj in
    let proj := set_nodeX op_obj (-1000) proj in
    let proj := set_nodeY op_obj (-1000) proj in
    (reset_operator proj op_obj, pool)
  else (proj, pool).

(** [pool.cleanup()] *)
Definition cleanup (proj : Project) (pool : OperatorPool) : Project :=
  foldl (λ proj op_obj, destroy op_obj proj) proj (available pool ++ in_use pool).

(** A call made on the pool by its user. *)
Inductive call :=
| Acquire
| Release (op_obj : OP).

Definition do_call (st : Project * OperatorPool) (c : call)
  : Project * OperatorPool :=
  match c with
  | Acquire => let '(_, proj, pool) := acquire st.1 st.2 in (proj, pool)
  | Release op_obj => release st.1 st.2 op_obj
  end.

Definition run (calls : list call) (st : Project * OperatorPool)
  : Project * OperatorPool :=
  foldl do_call st calls.

Definition noiseTOP : OpType :=
  {| type_name := "noiseTOP";
     default_pars := {[ "seed" := 1%Z; "period" := 1%Z ]} |}.

End Performance.

(** ** error_handling_examples.py: wrappers around host calls *)

Module ErrorHandling.
Import Host.

(** Exceptions below [Exception]; [str(e)] is the message. *)
Inductive ExnClass := ValueError | AttributeError | RuntimeError | OtherError.

Record Exn := { exn_class : ExnClass; exn_msg : string }.

Inductive result (A : Type) :=
| Ok (a : A)
| Raise (e : Exn).
Arguments Ok {A} a.
Arguments Raise {A} e.

(** What a script can observe and change: the host, the console, and the
    text of the log DAT. *)
Record World (H : Type) := { host : H; stdout : list string; log_text : string }.
Arguments host {H} w.
Arguments stdout {H} w.
Arguments log_text {H} w.

(** A computation that runs in the world and returns or raises. *)
Definition M (H A : Type) : Type := World H → result A * World H.

Definition ret {H A} (a : A) : M H A := λ w, (Ok a, w).

Definition bind {H A B} (m : M H A) (k : A → M H B) : M H B :=
  λ w, match m w with
       | (Ok a, w') => k a w'
       | (Raise e, w') => (Raise e, w')
       end.

Definition raise {H A} (e : Exn) : M H A := λ w, (Raise e, w).

(** [try: m  except Exception as e: handler e] *)
Definition try_except {H A} (m : M H A) (handler : Exn → M H A) : M H A :=
  λ w, match m w with
       | (Ok a, w') => (Ok a, w')
       | (Raise e, w') => handler e w'
       end.

(** Run [m] and hand back how it ended instead of propagating it. *)
Definition observe {H A} (m : M H A) : M H (result A) :=
  λ w, let '(r, w') := m w in (Ok r, w').

(** [print(line)] *)
Definition print {H} (line : string) : M H unit :=
  λ w, (Ok (), {| host := host w; stdout := stdout w ++ [line];
                  log_text := log_text w |}).

(** The world [w] after the host has moved to [h] and one more line has
    been printed. *)
Definition printed {H} (w : World H) (h : H) (line : string) : World H :=
  {| host := h; stdout := stdout w ++ [line]; log_text := log_text w |}.

(** A host call: it sees and changes only the host. *)
Definition host_call {H A} (f : H → result A * H) : M H A :=
  λ w, let '(r, h) := f (host w) in
       (r, {| host := h; stdout := stdout w; log_text := log_text w |}).

#[export] Instance M_bind {H} : MBind (M H) := λ A B k m, bind m k.

(** The host entry points that the wrappers guard. *)
Record HostAPI (H Value : Type) := {
  (** [parent.create(op_type, name)] *)
  h_create : OP → string → string → H → result OP * H;
  (** [op(path)] *)
  h_op : string → H → result (option OP) * H;
  (** [operator.destroy()] *)
  h_destroy : OP → H → result unit * H;
  (** [hasattr(operator.par, name)] *)
  h_has_par : OP → string → H → bool;
  (** [getattr(operator.par, name).isReadOnly] *)
  h_read_only : OP → string → H → bool;
  (** [param.val = value] *)
  h_set_val : OP → string → Value → H → result unit * H;
  (** [datetime.datetime.now().strftime(...)] *)
  h_now : H → string
}.
Arguments h_create {H Value} _.
Arguments h_op {H Value} _.
Arguments h_destroy {H Value} _.
Arguments h_has_par {H Value} _.
Arguments h_read_only {H Value} _.
Arguments h_set_val {H Value} _.
Arguments h_now {H Value} _.

Section Wrappers.
Context {H Value : Type} (api : HostAPI H Value).

(** [safe_operator_creation(parent, op_type, name)] *)
Definition safe_operator_creation (parent : OP) (op_type name : string)
  : M H (option OP) :=
  try_except
    (new_op ← host_call (h_create api parent op_type name);
     _ ← print ("Successfully created " +:+ name);
     ret (Some new_op))
    (λ e, _ ← print ("Failed to create " +:+ name +:+ ": " +:+ exn_msg e);
          ret None).

(** [safe_parameter_set(operator, param_name, value)] *)
Definition safe_parameter_set (operator : option OP) (param_name : string)
    (value : Value) : M H bool :=
  try_except
    (match operator with
     | None => raise {| exn_class := ValueError; exn_msg := "Operator is None" |}
     | Some o =>
         has ← (λ w, (Ok (h_has_par api o param_name (host w)), w));
         if negb has then
           raise {| exn_class := AttributeError;
                    exn_msg := "Parameter '" +:+ param_name +:+ "' does not exist" |}
         else
           ro ← (λ w, (Ok (h_read_only api o param_name (host w)), w));
           if ro : bool then
             raise {| exn_class := RuntimeError;
                      exn_msg := "Parameter '" +:+ param_name +:+ "' is read-only" |}
           else
             _ ← host_call (h_set_val api o param_name value);
             ret true
     end)
    (λ e, match exn_class e with
          | ValueError => _ ← print ("Value Error: " +:+ exn_msg e); ret false
          | AttributeError => _ ← print ("Attribute Error: " +:+ exn_msg e); ret false
          | RuntimeError => _ ← print ("Runtime Error: " +:+ exn_msg e); ret false
          | OtherError =>
              _ ← print ("Unexpected error setting " +:+ param_name +:+ ": "
                          +:+ exn_msg e);
              ret false
          end).

(** [safe_op_access(path)] *)
Definition safe_op_access (path : string) : M H (option OP) :=
  try_except
    (operator ← host_call (h_op api path);
     match operator with
     | None =>
         _ ← print ("Operator at '" +:+ path +:+ "' does not exist"); ret None
     | Some o => ret (Some o)
     end)
    (λ e, _ ← print ("Error accessing operator at '" +:+ path +:+ "': " +:+ exn_msg e);
          ret None).

(** [OperatorContext]: a context manager around operator creation. *)
Record OperatorContext := {
  ctx_parent : OP;
  ctx_op_type : string;
  ctx_name : string;
  ctx_operator : option OP
}.

(** [OperatorContext.__enter__]: returns the operator and the updated
    context object. *)
Definition ctx_enter (self : OperatorContext) : M H (OP * OperatorContext) :=
  try_except
    (o ← host_call (h_create api (ctx_parent self) (ctx_op_type self) (ctx_name self));
     ret (o, {| ctx_parent := ctx_parent self; ctx_op_type := ctx_op_type self;
                ctx_name := ctx_name self; ctx_operator := Some o |}))
    (λ e, _ ← print ("Failed to create operator in context: " +:+ exn_msg e);
          raise e).

(** [OperatorContext.__exit__(exc_type, exc_val, exc_tb)]: the result
    tells the [with] statement whether to suppress the exception. *)
Definition ctx_exit (self : OperatorContext) (exc : option Exn) : M H bool :=
  match exc, ctx_operator self with
  | Some _, Some o =>
      _ ← try_except
             (_ ← host_call (h_destroy api o);
              print ("Cleaned up " +:+ ctx_name self +:+ " due to error"))
             (λ _, ret ());
      ret false
  | _, _ => ret false
  end.

(** [with OperatorContext(...) as x: body x] *)
Definition with_context {A} (self : OperatorContext) (body : OP → M H A)
  : M H (option A) :=
  entered ← ctx_enter self;
  outcome ← observe (body entered.1);
  match outcome with
  | Ok a => _ ← ctx_exit entered.2 None; ret (Some a)
  | Raise e =>
      suppress ← ctx_exit entered.2 (Some e);
      if suppress : bool then ret None else raise e
  end.

(** [DebugLogger.log(message, level)] *)
Definition logger_log (message level : string) : M H unit :=
  λ w, let timestamp := h_now api (host w) in
       let log_entry := "[" +:+ timestamp +:+ "] [" +:+ level +:+ "] "
                        +:+ message +:+ String "010"%char EmptyString in
       (Ok (), {| host := host w; stdout := stdout w;
                  log_text := log_text w +:+ log_entry |}).

Definition logger_info (message : string) : M H unit := logger_log message "INFO".
Definition logger_error (message : string) : M H unit := logger_log message "ERROR".

(** [debug_operation(func)]: the wrapper it returns, applied to a call
    whose arguments print as [call_repr]. *)
Definition debug_operation {A} (func_name call_repr : string) (func : M H A)
  : M H A :=
  _ ← logger_info ("Calling " +:+ func_name +:+ " with " +:+ call_repr);
  try_except
    (res ← func;
     _ ← logger_info (func_name +:+ " completed successfully");
     ret res)
    (λ e, _ ← logger_error (func_name +:+ " failed: " +:+ exn_msg e);
          raise e).

End Wrappers.

(** *** NetworkState *)

Section State.
Context {Value : Type}.

(** A parameter: what [par.eval()] gives ([None] when it raises) and
    whether assigning to it raises. *)
Record Par := { par_eval : option Value; par_read_only : bool }.

Record Operator := {
  type_name : string;
  name : string;
  path : string;
  nodeX : Z;
  nodeY : Z;
  pars : gmap string Par
}.

Record OpState := {
  st_type : string;
  st_name : string;
  st_position : Z * Z;
  st_parameters : gmap string Value
}.

(** [NetworkState.state] *)
Abbreviation NetworkState := (gmap string OpState).

(** The loop over [operator.pars()] in [save_operator_state]. *)
Definition save_parameters (ps : gmap string Par) : gmap string Value :=
  foldl (λ parameters '(par_name, p),
           match par_eval p with
           | Some v => <[par_name := v]> parameters
           | None => parameters
           end)
        ∅ (map_to_list ps).

(** [NetworkState.save_operator_state(operator)] *)
Definition save_operator_state (state : NetworkState)
    (operator : option Operator) : NetworkState :=
  match operator with
  | None => state
  | Some operator =>
      let op_state :=
        {| st_type := type_name operator;
           st_name := name operator;
           st_position := (nodeX operator, nodeY operator);
           st_parameters := save_parameters (pars operator) |} in
      <[path operator := op_state]> state
  end.

(** [setattr(operator.par, par_name, value)] guarded by [hasattr] and by
    the inner [try]. *)
Definition restore_parameter (ps : gmap string Par) (entry : string * Value)
  : gmap string Par :=
  let '(par_name, value) := entry in
  match ps !! par_name with
  | Some p =>
      if par_read_only p then ps
      else <[par_name := {| par_eval := Some value; par_read_only := false |}]> ps
  | None => ps
  end.

(** [NetworkState.restore_operator_state(operator)]: the result and the
    operator as the call leaves it.  Assigning [nodeX] and [nodeY] does not
    raise on the host, and a failing [setattr] is swallowed by the inner
    [try], so the outer handler (print and return [False]) is never
    entered. *)
Definition restore_operator_state (state : NetworkState)
    (operator : option Operator) : bool * option Operator :=
  match operator with
  | None => (false, None)
  | Some operator =>
      match state !! path operator with
      | None => (false, Some operator)
      | Some op_state =>
          (true,
           Some {| type_name := type_name operator;
                   name := name operator;
                   path := path operator;
                   nodeX := (st_position op_state).1;
                   nodeY := (st_position op_state).2;
                   pars := foldl restore_parameter (pars operator)
                             (map_to_list (st_parameters op_state)) |})
      end
  end.

End State.
Arguments Par Value : clear implicits.
Arguments Operator Value : clear implicits.
Arguments OpState Value : clear implicits.

(** *** The operator of the state-preservation test *)

(** [op1] when its state is saved: [period] is 20 and [nodeX] is 100; one
    parameter is read-only and cannot be evaluated. *)
Definition fallback_saved : Operator Z :=
  {| type_name := "noiseTOP"; name := "fallback_test";
     path := "/project1/fallback_test"; nodeX := 100; nodeY := 0;
     pars := {[ "period" := {| par_eval := Some 20%Z; par_read_only := false |};
                "seed" := {| par_eval := Some 1%Z; par_read_only := false |};
                "cooktime" := {| par_eval := None; par_read_only := true |} ]} |}.

(** [op1] after [op1.par.period = 5] and [op1.nodeX = 200]. *)
Definition fallback_changed : Operator Z :=
  {| type_name := "noiseTOP"; name := "fallback_test";
     path := "/project1/fallback_test"; nodeX := 200; nodeY := 0;
     pars := {[ "period" := {| par_eval := Some 5%Z; par_read_only := false |};
                "seed" := {| par_eval := Some 1%Z; par_read_only := false |};
                "cooktime" := {| par_eval := None; par_read_only := true |} ]} |}.

(** *** A host on which the guarded calls fail *)

Definition host_error (msg : string) : Exn :=
  {| exn_class := OtherError; exn_msg := msg |}.

(** Creation, lookup and assignment all raise; the clock is stopped. *)
Definition failing_api : HostAPI unit Z :=
  {| h_create := λ _ _ _ h, (Raise (host_error "name already in use"), h);
     h_op := λ _ h, (Raise (host_error "invalid path"), h);
     h_destroy := λ _ h, (Ok (), h);
     h_has_par := λ _ _ _, true;
     h_read_only := λ _ _ _, false;
     h_set_val := λ _ _ _ h, (Raise (host_error "value not accepted"), h);
     h_now := λ _, "2024-01-01 12:00:00" |}.

Definition empty_world : World unit :=
  {| host := (); stdout := []; log_text := "" |}.

(** What [test_function(10, 0)] raises. *)
Definition division_by_zero : Exn :=
  {| exn_class := ValueError; exn_msg := "Division by zero" |}.

(** A decorated call that raises, as [test_function(10, 0)] does. *)
Definition failing_call : M unit Z := raise division_by_zero.

End ErrorHandling.

(** ** The network templates and API examples as host scripts *)

Module Scripts.
Import Host.

(** Literals that the scripts assign to parameters. *)
Inductive Scalar :=
| Int (z : Z)
| Dec (mantissa exponent : Z)
| Str (s : string)
| Bool (b : bool).

Inductive Value :=
| V (x : Scalar)
| VList (items : list Scalar).

(** An integer literal. *)
Definition VInt (z : Z) : Value := V (Int z).
(** A decimal literal, [mantissa] times ten to the [exponent]. *)
Definition VDec (mantissa exponent : Z) : Value := V (Dec mantissa exponent).
Definition VStr (s : string) : Value := V (Str s).
Definition VBool (b : bool) : Value := V (Bool b).

(** A parameter slot: its constant value and its expression, if any. *)
Record Par := { par_val : option Value; par_expr : option string }.

(** A custom parameter appended to a page of a component. *)
Record CustomPar := {
  cp_kind : string;
  cp_name : string;
  cp_label : string;
  cp_size : option Z;
  cp_default : option Value;
  cp_min : option Value;
  cp_max : option Value
}.

Record Operator := {
  op_type : string;
  name : string;
  path : string;
  parent : OP;
  nodeX : Z;
  nodeY : Z;
  par : gmap string Par;
  pages : list (string * list CustomPar)
}.

(** The project that a script runs in, and the console. *)
Record Project := {
  ops : gmap OP Operator;
  wires : list Wire;
  stdout : list string
}.

(** A script statement: it returns a value and changes the project. *)
Definition Script (A : Type) : Type := Project → A * Project.

#[export] Instance Script_ret : MRet Script := λ A a p, (a, p).

#[export] Instance Script_bind : MBind Script :=
  λ A B k m p, let '(a, p') := m p in k a p'.

Definition with_ops (p : Project) (o : gmap OP Operator) : Project :=
  {| ops := o; wires := wires p; stdout := stdout p |}.

Definition path_of (p : Project) (o : OP) : string :=
  match ops p !! o with
  | Some r => path r
  | None => ""
  end.

(** [parent.create(op_type, name)]: the host hands out an operator that
    did not exist before and places it inside [parent]. *)
Definition create (parent_op : OP) (ty nm : string) : Script OP :=
  λ p, let o := fresh (dom (ops p)) in
       (o, with_ops p
             (<[o := {| op_type := ty; name := nm;
                        path := path_of p parent_op +:+ "/" +:+ nm;
                        parent := parent_op; nodeX := 0; nodeY := 0;
                        par := ∅; pages := [] |}]> (ops p))).

Definition update (o : OP) (f : Operator → Operator) : Script unit :=
  λ p, ((), with_ops p (alter f o (ops p))).

(** [o.nodeX = v] *)
Definition set_nodeX (o : OP) (v : Z) : Script unit :=
  update o (λ r, {| op_type := op_type r; name := name r; path := path r;
                    parent := parent r; nodeX := v; nodeY := nodeY r;
                    par := par r; pages := pages r |}).

(** [o.nodeY = v] *)
Definition set_nodeY (o : OP) (v : Z) : Script unit :=
  update o (λ r, {| op_type := op_type r; name := name r; path := path r;
                    parent := parent r; nodeX := nodeX r; nodeY := v;
                    par := par r; pages := pages r |}).

Definition with_par (r : Operator) (ps : gmap string Par) : Operator :=
  {| op_type := op_type r; name := name r; path := path r;
     parent := parent r; nodeX := nodeX r; nodeY := nodeY r;
     par := ps; pages := pages r |}.

Definition par_expr_of (r : Operator) (k : string) : option string :=
  match par r !! k with
  | Some q => par_expr q
  | None => None
  end.

Definition par_val_of (r : Operator) (k : string) : option Value :=
  match par r !! k with
  | Some q => par_val q
  | None => None
  end.

(** [o.par.<k> = v] *)
Definition set_par (o : OP) (k : string) (v : Value) : Script unit :=
  update o (λ r, with_par r (<[k := {| par_val := Some v;
                                       par_expr := par_expr_of r k |}]> (par r))).

(** [o.par.<k>.expr = e] *)
Definition set_expr (o : OP) (k e : string) : Script unit :=
  update o (λ r, with_par r (<[k := {| par_val := par_val_of r k;
                                       par_expr := Some e |}]> (par r))).

(** [target.inputConnectors[i].connect(source)] *)
Definition connect_input (target : OP) (i : nat) (source : OP) : Script unit :=
  λ p, ((), {| ops := ops p;
               wires := filter (λ w, ¬ enters {| owner := target; index := i |} w)
                               (wires p)
                        ++ [ {| w_src := source; w_out := 0;
                                w_dst := target; w_in := i |} ];
               stdout := stdout p |}).

(** [source.outputConnectors[j].connect(target)]: the wire goes to the
    first input of [target]. *)
Definition connect_output (source : OP) (j : nat) (target : OP) : Script unit :=
  λ p, ((), {| ops := ops p;
               wires := filter (λ w, ¬ enters {| owner := target; index := 0 |} w)
                               (wires p)
                        ++ [ {| w_src := source; w_out := j;
                                w_dst := target; w_in := 0 |} ];
               stdout := stdout p |}).

(** [print(line)] *)
Definition print (line : string) : Script unit :=
  λ p, ((), {| ops := ops p; wires := wires p; stdout := stdout p ++ [line] |}).

(** [o.path] *)
Definition get_path (o : OP) : Script string := λ p, (path_of p o, p).

(** A page object: the component and the page name. *)
Definition Page : Type := OP * string.

(** [o.appendCustomPage(title)] *)
Definition appendCustomPage (o : OP) (title : string) : Script Page :=
  λ p, ((o, title),
        with_ops p
          (alter (λ r, {| op_type := op_type r; name := name r; path := path r;
                          parent := parent r; nodeX := nodeX r; nodeY := nodeY r;
                          par := par r; pages := pages r ++ [(title, [])] |})
                 o (ops p))).

Definition add_to_page (title : string) (cp : CustomPar)
    (pgs : list (string * list CustomPar)) : list (string * list CustomPar) :=
  (λ pg, if decide (pg.1 = title) then (pg.1, pg.2 ++ [cp]) else pg) <$> pgs.

(** [page.append<Kind>(name, label=..., ...)] *)
Definition append_par (page : Page) (cp : CustomPar) : Script unit :=
  update page.1
    (λ r, {| op_type := op_type r; name := name r; path := path r;
             parent := parent r; nodeX := nodeX r; nodeY := nodeY r;
             par := <[cp_name cp := {| par_val := cp_default cp;
                                       par_expr := None |}]> (par r);
             pages := add_to_page page.2 cp (pages r) |}).

Definition appendFloat (page : Page) (nm label : string) (size : Z)
    (default min max : Value) : Script unit :=
  append_par page {| cp_kind := "Float"; cp_name := nm; cp_label := label;
                     cp_size := Some size; cp_default := Some default;
                     cp_min := Some min; cp_max := Some max |}.

Definition appendInt (page : Page) (nm label : string) (size : Z)
    (default min max : Value) : Script unit :=
  append_par page {| cp_kind := "Int"; cp_name := nm; cp_label := label;
                     cp_size := Some size; cp_default := Some default;
                     cp_min := Some min; cp_max := Some max |}.

Definition appendXYZ (page : Page) (nm label : string) (default : Value)
  : Script unit :=
  append_par page {| cp_kind := "XYZ"; cp_name := nm; cp_label := label;
                     cp_size := None; cp_default := Some default;
                     cp_min := None; cp_max := None |}.

Definition appendRGB (page : Page) (nm label : string) (default : Value)
  : Script unit :=
  append_par page {| cp_kind := "RGB"; cp_name := nm; cp_label := label;
                     cp_size := None; cp_default := Some default;
                     cp_min := None; cp_max := None |}.

(** [op('/project1')] *)
Definition project1 : OP := 0.

(** A project that holds nothing but [/project1]. *)
Definition new_project : Project :=
  {| ops := {[ project1 := {| op_type := "containerCOMP"; name := "project1";
                              path := "/project1"; parent := project1;
                              nodeX := 0; nodeY := 0; par := ∅; pages := [] |} ]};
     wires := []; stdout := [] |}.

(** The double quote and the line feed inside string literals. *)
Definition dq : string := String (ascii_of_nat 34) EmptyString.
Definition nl : string := String (ascii_of_nat 10) EmptyString.

(** [basic_connection_examples()] of connection_examples.py *)
Definition basic_connection_examples : Script OP :=
  noise1 ← create project1 "noiseTOP" "conn_noise1";
  noise2 ← create project1 "noiseTOP" "conn_noise2";
  comp ← create project1 "compositeTOP" "conn_composite";
  _ ← set_nodeX noise1 (-200);
  _ ← set_nodeY noise1 0;
  _ ← set_nodeX noise2 (-200);
  _ ← set_nodeY noise2 (-150);
  _ ← set_nodeX comp 0;
  _ ← set_nodeY comp (-75);
  _ ← connect_input comp 0 noise1;
  _ ← connect_input comp 1 noise2;
  blur ← create project1 "blurTOP" "conn_blur";
  _ ← set_nodeX blur 200;
  _ ← set_nodeY blur (-75);
  _ ← connect_output comp 0 blur;
  mret blur.

(** What it means for a script run from [p0] to [p] to have built a
    network rooted at [root]: [root] is new, it is a container COMP placed
    in [/project1], and every other new operator was created inside it. *)
Definition built_under (root : OP) (p0 p : Project) : Prop :=
  (root ∉ dom (ops p0)) ∧
  (∃ r, ops p !! root = Some r ∧
        op_type r = "containerCOMP" ∧ parent r = project1) ∧
  (∀ o r, ops p !! o = Some r →
          o ∈ dom (ops p0) ∨ o = root ∨ parent r = root).

(** [create_audio_reactive_system()] of audio_reactive_template.py *)
Definition create_audio_reactive_system : Script OP :=
  base ← create project1 "containerCOMP" "audio_reactive_system";
  _ ← set_par base "w" (VInt 1200);
  _ ← set_par base "h" (VInt 800);
  _ ← set_nodeX base 0;
  _ ← set_nodeY base 0;
  _ ← print "Creating audio input...";
  audio_in ← create base "audiodeviceinCHOP" "audio_input";
  _ ← set_nodeX audio_in (-400);
  _ ← set_nodeY audio_in 200;
  _ ← set_par audio_in "device" (VInt 0);
  _ ← set_par audio_in "rate" (VInt 44100);
  level_meter ← create base "levelCHOP" "audio_level";
  _ ← set_nodeX level_meter (-200);
  _ ← set_nodeY level_meter 200;
  _ ← connect_input level_meter 0 audio_in;
  _ ← print "Setting up FFT analysis...";
  fft ← create base "analyzeCHOP" "fft_analysis";
  _ ← set_nodeX fft (-200);
  _ ← set_nodeY fft 100;
  _ ← set_par fft "function" (VStr "fft");
  _ ← set_par fft "size" (VInt 2048);
  _ ← connect_input fft 0 audio_in;
  _ ← print "Creating frequency band extractors...";
  bass_select ← create base "selectCHOP" "bass_band";
  _ ← set_nodeX bass_select 0;
  _ ← set_nodeY bass_select 150;
  _ ← set_par bass_select "channames" (VStr "chan[1-10]");
  _ ← connect_input bass_select 0 fft;
  bass_math ← create base "mathCHOP" "bass_average";
  _ ← set_nodeX bass_math 200;
  _ ← set_nodeY bass_math 150;
  _ ← set_par bass_math "chopop" (VStr "average");
  _ ← set_par bass_math "ignorefirstrow" (VBool true);
  _ ← connect_input bass_math 0 bass_select;
  mid_select ← create base "selectCHOP" "mid_band";
  _ ← set_nodeX mid_select 0;
  _ ← set_nodeY mid_select 50;
  _ ← set_par mid_select "channames" (VStr "chan[11-50]");
  _ ← connect_input mid_select 0 fft;
  mid_math ← create base "mathCHOP" "mid_average";
  _ ← set_nodeX mid_math 200;
  _ ← set_nodeY mid_math 50;
  _ ← set_par mid_math "chopop" (VStr "average");
  _ ← set_par mid_math "ignorefirstrow" (VBool true);
  _ ← connect_input mid_math 0 mid_select;
  high_select ← create base "selectCHOP" "high_band";
  _ ← set_nodeX high_select 0;
  _ ← set_nodeY high_select (-50);
  _ ← set_par high_select "channames" (VStr "chan[51-200]");
  _ ← connect_input high_select 0 fft;
  high_math ← create base "mathCHOP" "high_average";
  _ ← set_nodeX high_math 200;
  _ ← set_nodeY high_math (-50);
  _ ← set_par high_math "chopop" (VStr "average");
  _ ← set_par high_math "ignorefirstrow" (VBool true);
  _ ← connect_input high_math 0 high_select;
  _ ← print "Adding smoothing filters...";
  bass_smooth ← create base "lagCHOP" "bass_smooth";
  _ ← set_nodeX bass_smooth 400;
  _ ← set_nodeY bass_smooth 150;
  _ ← set_par bass_smooth "lag1" (VDec 1 (-1));
  _ ← set_par bass_smooth "lag2" (VDec 5 (-2));
  _ ← connect_input bass_smooth 0 bass_math;
  mid_smooth ← create base "lagCHOP" "mid_smooth";
  _ ← set_nodeX mid_smooth 400;
  _ ← set_nodeY mid_smooth 50;
  _ ← set_par mid_smooth "lag1" (VDec 8 (-2));
  _ ← set_par mid_smooth "lag2" (VDec 4 (-2));
  _ ← connect_input mid_smooth 0 mid_math;
  high_smooth ← create base "lagCHOP" "high_smooth";
  _ ← set_nodeX high_smooth 400;
  _ ← set_nodeY high_smooth (-50);
  _ ← set_par high_smooth "lag1" (VDec 5 (-2));
  _ ← set_par high_smooth "lag2" (VDec 2 (-2));
  _ ← connect_input high_smooth 0 high_math;
  _ ← print "Creating visual generators...";
  gradient ← create base "rampTOP" "bass_gradient";
  _ ← set_nodeX gradient (-400);
  _ ← set_nodeY gradient (-200);
  _ ← set_par gradient "resolutionw" (VInt 1920);
  _ ← set_par gradient "resolutionh" (VInt 1080);
  _ ← set_par gradient "type" (VStr "radial");
  _ ← set_par gradient "phase" (VInt 0);
  _ ← set_expr gradient "phase" ("op(" +:+ dq +:+ "../bass_smooth" +:+ dq +:+ ")[0] * 2");
  noise ← create base "noiseTOP" "mid_noise";
  _ ← set_nodeX noise (-200);
  _ ← set_nodeY noise (-200);
  _ ← set_par noise "resolutionw" (VInt 1920);
  _ ← set_par noise "resolutionh" (VInt 1080);
  _ ← set_par noise "type" (VStr "sparse");
  _ ← set_par noise "period" (VInt 8);
  _ ← set_expr noise "amp" ("op(" +:+ dq +:+ "../mid_smooth" +:+ dq +:+ ")[0] * 2 + 0.5");
  circle ← create base "circleTOP" "high_circles";
  _ ← set_nodeX circle 0;
  _ ← set_nodeY circle (-200);
  _ ← set_par circle "resolutionw" (VInt 1920);
  _ ← set_par circle "resolutionh" (VInt 1080);
  _ ← set_par circle "radius" (VDec 1 (-1));
  _ ← set_expr circle "radiusx" ("op(" +:+ dq +:+ "../high_smooth" +:+ dq +:+ ")[0] * 0.3 + 0.05");
  _ ← set_expr circle "radiusy" ("op(" +:+ dq +:+ "../high_smooth" +:+ dq +:+ ")[0] * 0.3 + 0.05");
  _ ← print "Creating composition network...";
  comp1 ← create base "compositeTOP" "blend_1";
  _ ← set_nodeX comp1 200;
  _ ← set_nodeY comp1 (-200);
  _ ← set_par comp1 "operand" (VStr "screen");
  _ ← connect_input comp1 0 gradient;
  _ ← connect_input comp1 1 noise;
  comp2 ← create base "compositeTOP" "blend_2";
  _ ← set_nodeX comp2 400;
  _ ← set_nodeY comp2 (-200);
  _ ← set_par comp2 "operand" (VStr "add");
  _ ← connect_input comp2 0 comp1;
  _ ← connect_input comp2 1 circle;
  hsv_adjust ← create base "hsvAdjustTOP" "color_adjust";
  _ ← set_nodeX hsv_adjust 600;
  _ ← set_nodeY hsv_adjust (-200);
  _ ← connect_input hsv_adjust 0 comp2;
  _ ← set_expr hsv_adjust "valueoffset" ("op(" +:+ dq +:+ "../audio_level" +:+ dq +:+ ")[0] * 0.3");
  out ← create base "outTOP" "output";
  _ ← set_nodeX out 800;
  _ ← set_nodeY out (-200);
  _ ← connect_input out 0 hsv_adjust;
  _ ← print "Creating control panel...";
  params ← create base "containerCOMP" "controls";
  _ ← set_nodeX params (-400);
  _ ← set_nodeY params (-400);
  _ ← set_par params "w" (VInt 300);
  _ ← set_par params "h" (VInt 200);
  page ← appendCustomPage params "Audio Reactive Controls";
  _ ← appendFloat page "Bass_gain" "Bass Gain" 1 (VDec 10 (-1)) (VInt 0) (VInt 2);
  _ ← appendFloat page "Bass_smooth" "Bass Smooth" 1 (VDec 1 (-1)) (VInt 0) (VInt 1);
  _ ← appendFloat page "Mid_gain" "Mid Gain" 1 (VDec 10 (-1)) (VInt 0) (VInt 2);
  _ ← appendFloat page "Mid_smooth" "Mid Smooth" 1 (VDec 8 (-2)) (VInt 0) (VInt 1);
  _ ← appendFloat page "High_gain" "High Gain" 1 (VDec 10 (-1)) (VInt 0) (VInt 2);
  _ ← appendFloat page "High_smooth" "High Smooth" 1 (VDec 5 (-2)) (VInt 0) (VInt 1);
  _ ← set_expr bass_smooth "lag1" ("op(" +:+ dq +:+ "../controls" +:+ dq +:+ ").par.Bass_smooth");
  _ ← set_expr mid_smooth "lag1" ("op(" +:+ dq +:+ "../controls" +:+ dq +:+ ").par.Mid_smooth");
  _ ← set_expr high_smooth "lag1" ("op(" +:+ dq +:+ "../controls" +:+ dq +:+ ").par.High_smooth");
  bass_gain ← create base "mathCHOP" "bass_gain";
  _ ← set_nodeX bass_gain 300;
  _ ← set_nodeY bass_gain 150;
  _ ← set_par bass_gain "gain" (VDec 10 (-1));
  _ ← set_expr bass_gain "gain" ("op(" +:+ dq +:+ "../controls" +:+ dq +:+ ").par.Bass_gain");
  _ ← connect_input bass_gain 0 bass_math;
  _ ← connect_input bass_smooth 0 bass_gain;
  mid_gain ← create base "mathCHOP" "mid_gain";
  _ ← set_nodeX mid_gain 300;
  _ ← set_nodeY mid_gain 50;
  _ ← set_par mid_gain "gain" (VDec 10 (-1));
  _ ← set_expr mid_gain "gain" ("op(" +:+ dq +:+ "../controls" +:+ dq +:+ ").par.Mid_gain");
  _ ← connect_input mid_gain 0 mid_math;
  _ ← connect_input mid_smooth 0 mid_gain;
  high_gain ← create base "mathCHOP" "high_gain";
  _ ← set_nodeX high_gain 300;
  _ ← set_nodeY high_gain (-50);
  _ ← set_par high_gain "gain" (VDec 10 (-1));
  _ ← set_expr high_gain "gain" ("op(" +:+ dq +:+ "../controls" +:+ dq +:+ ").par.High_gain");
  _ ← connect_input high_gain 0 high_math;
  _ ← connect_input high_smooth 0 high_gain;
  _ ← print "Adding frequency visualization...";
  trail ← create base "trailCHOP" "freq_history";
  _ ← set_nodeX trail 600;
  _ ← set_nodeY trail 100;
  _ ← set_par trail "histlength" (VInt 2);
  _ ← set_par trail "capture" (VInt 1);
  merge ← create base "mergeCHOP" "freq_merge";
  _ ← set_nodeX merge 600;
  _ ← set_nodeY merge 0;
  _ ← connect_input merge 0 bass_smooth;
  _ ← connect_input merge 1 mid_smooth;
  _ ← connect_input merge 2 high_smooth;
  _ ← connect_input trail 0 merge;
  chop_to_top ← create base "choptoTOP" "freq_viz";
  _ ← set_nodeX chop_to_top 800;
  _ ← set_nodeY chop_to_top 100;
  _ ← connect_input chop_to_top 0 trail;
  _ ← print "Audio reactive system created successfully!";
  base_path ← get_path base;
  _ ← print ("System created at: " +:+ base_path);
  _ ← print (nl +:+ "Key components:");
  _ ← print "- Audio input and FFT analysis";
  _ ← print "- Frequency band extraction (bass/mid/high)";
  _ ← print "- Visual generators mapped to frequency bands";
  _ ← print "- Composition and color adjustment";
  _ ← print "- Control panel for fine-tuning";
  mret base.

(** The shader source that [create_particle_system] hands to the host. *)
Definition physics_shader : string :=
"
// Particle Physics Simulation
uniform float uTime;
uniform float uDeltaTime;
uniform vec3 uGravity;
uniform vec3 uWind;
uniform float uDrag;
uniform float uNoiseScale;
uniform float uNoiseSpeed;
uniform sampler2D sPositions;
uniform sampler2D sVelocities;

// Simplex noise function
vec3 mod289(vec3 x) { return x - floor(x * (1.0 / 289.0)) * 289.0; }
vec2 mod289(vec2 x) { return x - floor(x * (1.0 / 289.0)) * 289.0; }
vec3 permute(vec3 x) { return mod289(((x*34.0)+1.0)*x); }

float snoise(vec2 v) {
    const vec4 C = vec4(0.211324865405187, 0.366025403784439,
                       -0.577350269189626, 0.024390243902439);
    vec2 i  = floor(v + dot(v, C.yy));
    vec2 x0 = v -   i + dot(i, C.xx);
    vec2 i1 = (x0.x > x0.y) ? vec2(1.0, 0.0) : vec2(0.0, 1.0);
    vec4 x12 = x0.xyxy + C.xxzz;
    x12.xy -= i1;
    i = mod289(i);
    vec3 p = permute(permute(i.y + vec3(0.0, i1.y, 1.0))
                           + i.x + vec3(0.0, i1.x, 1.0));
    vec3 m = max(0.5 - vec3(dot(x0,x0), dot(x12.xy,x12.xy),
                           dot(x12.zw,x12.zw)), 0.0);
    m = m*m;
    m = m*m;
    vec3 x = 2.0 * fract(p * C.www) - 1.0;
    vec3 h = abs(x) - 0.5;
    vec3 ox = floor(x + 0.5);
    vec3 a0 = x - ox;
    m *= 1.79284291400159 - 0.85373472095314 * (a0*a0 + h*h);
    vec3 g;
    g.x  = a0.x  * x0.x  + h.x  * x0.y;
    g.yz = a0.yz * x12.xz + h.yz * x12.yw;
    return 130.0 * dot(m, g);
}

out vec4 fragColor;

void main() {
    vec2 uv = gl_FragCoord.xy / vec2(textureSize(sPositions, 0));
    
    // Read current state
    vec4 posData = texture(sPositions, uv);
    vec4 velData = texture(sVelocities, uv);
    
    vec3 pos = posData.xyz;
    float life = posData.w;
    vec3 vel = velData.xyz;
    
    // Apply forces
    vec3 force = vec3(0.0);
    
    // Gravity
    force += uGravity;
    
    // Wind with turbulence
    vec2 noiseCoord = pos.xz * uNoiseScale + uTime * uNoiseSpeed;
    float turbulence = snoise(noiseCoord);
    force += uWind * (1.0 + turbulence * 0.5);
    
    // Drag
    force -= vel * uDrag;
    
    // Update velocity
    vel += force * uDeltaTime;
    
    // Update position
    pos += vel * uDeltaTime;
    
    // Update life
    life -= uDeltaTime * 0.2; // Particles live for ~5 seconds
    
    // Reset particle if dead
    if (life <= 0.0) {
        pos = vec3(
            (fract(sin(uTime + uv.x * 12.9898) * 43758.5453) - 0.5) * 2.0,
            0.0,
            (fract(sin(uTime + uv.y * 78.233) * 43758.5453) - 0.5) * 2.0
        );
        vel = vec3(0.0, 2.0 + fract(sin(uv.x * 34.123) * 23421.631), 0.0);
        life = 1.0;
    }
    
    // Output updated state
    if (gl_FragCoord.x < 256.0) {
        fragColor = vec4(pos, life);
    } else {
        fragColor = vec4(vel, 1.0);
    }
}
".

(** [create_particle_system()] of particle_system_template.py *)
Definition create_particle_system : Script OP :=
  base ← create project1 "containerCOMP" "particle_system";
  _ ← set_par base "w" (VInt 1400);
  _ ← set_par base "h" (VInt 900);
  _ ← set_nodeX base 0;
  _ ← set_nodeY base 0;
  _ ← print "Creating particle emitter...";
  particle_count ← create base "tableSOP" "particle_count";
  _ ← set_nodeX particle_count (-600);
  _ ← set_nodeY particle_count 200;
  _ ← set_par particle_count "rows" (VInt 10000);
  _ ← set_par particle_count "cols" (VInt 1);
  points ← create base "soptoSOP" "particle_points";
  _ ← set_nodeX points (-400);
  _ ← set_nodeY points 200;
  _ ← set_par points "soptype" (VStr "points");
  _ ← connect_input points 0 particle_count;
  attrib_create ← create base "attribcreateSOP" "initial_positions";
  _ ← set_nodeX attrib_create (-200);
  _ ← set_nodeY attrib_create 200;
  _ ← set_par attrib_create "name0" (VStr "P");
  _ ← set_par attrib_create "type0" (VStr "vector");
  _ ← set_par attrib_create "value0x" (VInt 0);
  _ ← set_par attrib_create "value0y" (VInt 0);
  _ ← set_par attrib_create "value0z" (VInt 0);
  _ ← connect_input attrib_create 0 points;
  velocity_attrib ← create base "attribcreateSOP" "initial_velocity";
  _ ← set_nodeX velocity_attrib 0;
  _ ← set_nodeY velocity_attrib 200;
  _ ← set_par velocity_attrib "name0" (VStr "v");
  _ ← set_par velocity_attrib "type0" (VStr "vector");
  _ ← set_par velocity_attrib "value0x" (VInt 0);
  _ ← set_par velocity_attrib "value0y" (VInt 1);
  _ ← set_par velocity_attrib "value0z" (VInt 0);
  _ ← connect_input velocity_attrib 0 attrib_create;
  life_attrib ← create base "attribcreateSOP" "particle_life";
  _ ← set_nodeX life_attrib 200;
  _ ← set_nodeY life_attrib 200;
  _ ← set_par life_attrib "name0" (VStr "life");
  _ ← set_par life_attrib "type0" (VStr "float");
  _ ← set_par life_attrib "value00" (VDec 10 (-1));
  _ ← connect_input life_attrib 0 velocity_attrib;
  _ ← print "Setting up physics simulation...";
  physics_glsl ← create base "glslTOP" "particle_physics";
  _ ← set_nodeX physics_glsl (-400);
  _ ← set_nodeY physics_glsl 0;
  _ ← set_par physics_glsl "resolutionw" (VInt 512);
  _ ← set_par physics_glsl "resolutionh" (VInt 512);
  _ ← set_par physics_glsl "pixeldat" (VStr physics_shader);
  feedback ← create base "feedbackTOP" "physics_feedback";
  _ ← set_nodeX feedback (-200);
  _ ← set_nodeY feedback 0;
  _ ← connect_input feedback 0 physics_glsl;
  _ ← print "Creating rendering pipeline...";
  physics_to_chop ← create base "topToCHOP" "physics_data";
  _ ← set_nodeX physics_to_chop 0;
  _ ← set_nodeY physics_to_chop 0;
  _ ← set_par physics_to_chop "crop" (VInt 0);
  _ ← set_par physics_to_chop "rgbatofields" (VInt 1);
  _ ← connect_input physics_to_chop 0 feedback;
  pos_select ← create base "selectCHOP" "position_data";
  _ ← set_nodeX pos_select 200;
  _ ← set_nodeY pos_select 50;
  _ ← set_par pos_select "channames" (VStr "r g b");
  _ ← connect_input pos_select 0 physics_to_chop;
  life_select ← create base "selectCHOP" "life_data";
  _ ← set_nodeX life_select 200;
  _ ← set_nodeY life_select (-50);
  _ ← set_par life_select "channames" (VStr "a");
  _ ← connect_input life_select 0 physics_to_chop;
  _ ← print "Setting up instancing...";
  particle_geo ← create base "sphereSOP" "particle_geometry";
  _ ← set_nodeX particle_geo (-400);
  _ ← set_nodeY particle_geo (-200);
  _ ← set_par particle_geo "rad" (VDec 2 (-2));
  _ ← set_par particle_geo "rows" (VInt 8);
  _ ← set_par particle_geo "cols" (VInt 16);
  instance ← create base "geometryCOMP" "particle_instances";
  _ ← set_nodeX instance 0;
  _ ← set_nodeY instance (-200);
  _ ← set_par instance "instanceop" (VStr "../particle_geometry");
  _ ← set_par instance "instancetx" (VStr "../position_data");
  _ ← set_par instance "instancety" (VStr "../position_data");
  _ ← set_par instance "instancetz" (VStr "../position_data");
  _ ← set_par instance "instancetxchan" (VStr "r");
  _ ← set_par instance "instancetychan" (VStr "g");
  _ ← set_par instance "instancetzchan" (VStr "b");
  _ ← set_par instance "instancesx" (VStr "../life_data");
  _ ← set_par instance "instancesy" (VStr "../life_data");
  _ ← set_par instance "instancesz" (VStr "../life_data");
  _ ← set_par instance "instancesxchan" (VStr "a");
  _ ← set_par instance "instancesychan" (VStr "a");
  _ ← set_par instance "instanceszchan" (VStr "a");
  material ← create base "constantMAT" "particle_material";
  _ ← set_nodeX material (-200);
  _ ← set_nodeY material (-300);
  _ ← set_par material "colorr" (VDec 10 (-1));
  _ ← set_par material "colorg" (VDec 5 (-1));
  _ ← set_par material "colorb" (VDec 2 (-1));
  _ ← set_par material "alpha" (VDec 8 (-1));
  _ ← set_par instance "material" (VStr "../particle_material");
  camera ← create base "cameraCOMP" "render_camera";
  _ ← set_nodeX camera 200;
  _ ← set_nodeY camera (-300);
  _ ← set_par camera "tz" (VInt 5);
  _ ← set_par camera "ty" (VInt 2);
  _ ← set_par camera "rx" (VInt (-15));
  render ← create base "renderTOP" "particle_render";
  _ ← set_nodeX render 400;
  _ ← set_nodeY render (-200);
  _ ← set_par render "resolutionw" (VInt 1920);
  _ ← set_par render "resolutionh" (VInt 1080);
  _ ← set_par render "geometry" (VStr "../particle_instances");
  _ ← set_par render "camera" (VStr "../render_camera");
  _ ← set_par render "lights" (VStr "");
  _ ← print "Adding post-processing...";
  blur1 ← create base "blurTOP" "bloom_blur1";
  _ ← set_nodeX blur1 600;
  _ ← set_nodeY blur1 (-200);
  _ ← set_par blur1 "size" (VInt 10);
  _ ← connect_input blur1 0 render;
  level ← create base "levelTOP" "bloom_threshold";
  _ ← set_nodeX level 600;
  _ ← set_nodeY level (-300);
  _ ← set_par level "blacklevel" (VDec 5 (-1));
  _ ← connect_input level 0 blur1;
  blur2 ← create base "blurTOP" "bloom_blur2";
  _ ← set_nodeX blur2 800;
  _ ← set_nodeY blur2 (-300);
  _ ← set_par blur2 "size" (VInt 20);
  _ ← connect_input blur2 0 level;
  comp ← create base "compositeTOP" "bloom_composite";
  _ ← set_nodeX comp 1000;
  _ ← set_nodeY comp (-200);
  _ ← set_par comp "operand" (VStr "add");
  _ ← connect_input comp 0 render;
  _ ← connect_input comp 1 blur2;
  out ← create base "outTOP" "output";
  _ ← set_nodeX out 1200;
  _ ← set_nodeY out (-200);
  _ ← connect_input out 0 comp;
  _ ← print "Creating control panel...";
  controls ← create base "containerCOMP" "controls";
  _ ← set_nodeX controls (-600);
  _ ← set_nodeY controls (-400);
  _ ← set_par controls "w" (VInt 400);
  _ ← set_par controls "h" (VInt 300);
  page ← appendCustomPage controls "Particle Controls";
  _ ← appendXYZ page "Gravity" "Gravity" (VList [Int 0; Dec (-98) (-1); Int 0]);
  _ ← appendXYZ page "Wind" "Wind Force" (VList [Int 1; Int 0; Int 0]);
  _ ← appendFloat page "Drag" "Air Drag" 1 (VDec 1 (-1)) (VInt 0) (VInt 1);
  _ ← appendFloat page "Noise_scale" "Turbulence Scale" 1 (VDec 5 (-1)) (VDec 1 (-1)) (VInt 2);
  _ ← appendFloat page "Noise_speed" "Turbulence Speed" 1 (VDec 2 (-1)) (VInt 0) (VInt 1);
  _ ← appendInt page "Particle_count" "Particle Count" 1 (VInt 10000) (VInt 100) (VInt 50000);
  _ ← appendFloat page "Particle_size" "Particle Size" 1 (VDec 2 (-2)) (VDec 1 (-3)) (VDec 1 (-1));
  _ ← appendRGB page "Particle_color" "Particle Color" (VList [Int 1; Dec 5 (-1); Dec 2 (-1)]);
  _ ← appendFloat page "Particle_alpha" "Particle Alpha" 1 (VDec 8 (-1)) (VInt 0) (VInt 1);
  _ ← set_par physics_glsl "value0name" (VStr "uGravity");
  _ ← set_expr physics_glsl "value0x" ("op(" +:+ dq +:+ "../controls" +:+ dq +:+ ").par.Gravityx");
  _ ← set_expr physics_glsl "value0y" ("op(" +:+ dq +:+ "../controls" +:+ dq +:+ ").par.Gravityy");
  _ ← set_expr physics_glsl "value0z" ("op(" +:+ dq +:+ "../controls" +:+ dq +:+ ").par.Gravityz");
  _ ← set_par physics_glsl "value1name" (VStr "uWind");
  _ ← set_expr physics_glsl "value1x" ("op(" +:+ dq +:+ "../controls" +:+ dq +:+ ").par.Windx");
  _ ← set_expr physics_glsl "value1y" ("op(" +:+ dq +:+ "../controls" +:+ dq +:+ ").par.Windy");
  _ ← set_expr physics_glsl "value1z" ("op(" +:+ dq +:+ "../controls" +:+ dq +:+ ").par.Windz");
  _ ← set_par physics_glsl "value2name" (VStr "uDrag");
  _ ← set_expr physics_glsl "value2" ("op(" +:+ dq +:+ "../controls" +:+ dq +:+ ").par.Drag");
  _ ← set_par physics_glsl "value3name" (VStr "uNoiseScale");
  _ ← set_expr physics_glsl "value3" ("op(" +:+ dq +:+ "../controls" +:+ dq +:+ ").par.Noise_scale");
  _ ← set_par physics_glsl "value4name" (VStr "uNoiseSpeed");
  _ ← set_expr physics_glsl "value4" ("op(" +:+ dq +:+ "../controls" +:+ dq +:+ ").par.Noise_speed");
  _ ← set_expr particle_count "rows" ("op(" +:+ dq +:+ "../controls" +:+ dq +:+ ").par.Particle_count");
  _ ← set_expr particle_geo "rad" ("op(" +:+ dq +:+ "../controls" +:+ dq +:+ ").par.Particle_size");
  _ ← set_expr material "colorr" ("op(" +:+ dq +:+ "../controls" +:+ dq +:+ ").par.Particle_colorr");
  _ ← set_expr material "colorg" ("op(" +:+ dq +:+ "../controls" +:+ dq +:+ ").par.Particle_colorg");
  _ ← set_expr material "colorb" ("op(" +:+ dq +:+ "../controls" +:+ dq +:+ ").par.Particle_colorb");
  _ ← set_expr material "alpha" ("op(" +:+ dq +:+ "../controls" +:+ dq +:+ ").par.Particle_alpha");
  _ ← print "GPU particle system created successfully!";
  base_path ← get_path base;
  _ ← print ("System created at: " +:+ base_path);
  _ ← print (nl +:+ "Key features:");
  _ ← print "- GPU-based physics simulation";
  _ ← print "- Efficient instancing for thousands of particles";
  _ ← print "- Turbulent wind forces";
  _ ← print "- Particle life cycle management";
  _ ← print "- Post-processing with bloom";
  _ ← print "- Comprehensive control panel";
  mret base.

(** Operator [o] exists with type [ty] inside [parent_op]. *)
Definition created_as (o : OP) (ty : string) (parent_op : OP) (p : Project)
  : Prop :=
  ∃ r, ops p !! o = Some r ∧ op_type r = ty ∧ parent r = parent_op.

(** Whenever [m] starts in a project satisfying [P], its result and the
    project it leaves satisfy [Q]. *)
Definition triple {A} (P : Project → Prop) (m : Script A)
    (Q : A → Project → Prop) : Prop :=
  ∀ p, P p → Q (m p).1 (m p).2.

End Scripts.

(** ** connection_examples.py: dynamic connection management *)

Module Dynamic.
Import Host Connection.

#[export] Instance Connector_eq_dec : EqDecision Connector.
Proof. solve_decision. Defined.

(** [l[:stop]]: a negative [stop] counts from the end. *)
Definition slice_to {A : Type} (l : list A) (stop : Z) : list A :=
  if (stop <? 0)%Z then take (Z.to_nat (Z.of_nat (length l) + stop)) l
  else take (Z.to_nat stop) l.

(** [enumerate(l)] *)
Definition enumerate {A : Type} (l : list A) : list (nat * A) :=
  imap (λ i x, (i, x)) l.

(** How a call that returns nothing ends: normally, or with an
    [IndexError]; either way with the network as the call left it. *)
Inductive status :=
| Completed (net : Network)
| Raised (net : Network).

(** The loop of [connect_sources] over what is left of
    [enumerate(source_list[:max_inputs])]. *)
Fixpoint connect_sources_loop (net : Network) (composite : OP)
    (items : list (nat * OP)) : status :=
  match items with
  | [] => Completed net
  | (i, src) :: items =>
      if decide (i < length (inputConnectors net composite)) then
        match inputConnectors net composite !! i with
        | Some connector =>
            connect_sources_loop (connect net connector src) composite items
        | None => Raised net
        end
      else connect_sources_loop net composite items
  end.

(** [connect_sources(composite, source_list, max_inputs)] *)
Definition connect_sources (net : Network) (composite : OP)
    (source_list : list OP) (max_inputs : Z) : status :=
  connect_sources_loop net composite (enumerate (slice_to source_list max_inputs)).

(** [disconnect_all_inputs(operator)] *)
Definition disconnect_all_inputs (net : Network) (operator : OP) : Network :=
  foldl (λ net connector,
           if bool_decide (in_connections net connector ≠ [])
           then disconnect net connector else net)
        net (inputConnectors net operator).

(** The loop of [rewire_connection] over [target.inputConnectors]; it
    ends at the first connector it rewires. *)
Fixpoint rewire_loop (net : Network) (old_source new_source : OP)
    (connectors : list Connector) : Network :=
  match connectors with
  | [] => net
  | connector :: rest =>
      if bool_decide (in_connections net connector ≠ [])
         && bool_decide (in_connections net connector !! 0 = Some old_source)
      then connect (disconnect net connector) connector new_source
      else rewire_loop net old_source new_source rest
  end.

(** [rewire_connection(old_source, new_source, target)] *)
Definition rewire_connection (net : Network) (old_source new_source target : OP)
  : Network :=
  rewire_loop net old_source new_source (inputConnectors net target).

(** A wire is attached when both of its ends are connectors that exist. *)
Definition attached (net : Network) (w : Wire) : Prop :=
  {| owner := w_src w; index := w_out w |} ∈ outputConnectors net (w_src w) ∧
  {| owner := w_dst w; index := w_in w |} ∈ inputConnectors net (w_dst w).

(** Every wire of the network is attached at both ends. *)
Definition well_wired (net : Network) : Prop := Forall (attached net) (wires net).

End Dynamic.

(** ** network_navigation_examples.py: hierarchy utilities *)

Module Hierarchy.
Import Host Connection.

(** *** What [find_paths] is meant to list *)

(** Consecutive operators of [path] are one output connection apart. *)
Fixpoint linked (net : Network) (path : list OP) : Prop :=
  match path with
  | u :: rest => match rest with
                 | v :: _ => feeds net u v ∧ linked net rest
                 | [] => True
                 end
  | [] => True
  end.

(** A path from [start_op] to [end_op] along output connections that
    passes no operator twice and, after [start_op], none of [avoid]. *)
Definition simple_path (net : Network) (start_op end_op : OP) (avoid : gset OP)
    (path : list OP) : Prop :=
  ∃ rest, path = start_op :: rest ∧ last path = Some end_op ∧ NoDup path ∧
          linked net path ∧ ∀ x, x ∈ rest → x ∉ avoid.

(** *** The operator tree *)

(** An operator in the hierarchy: only a COMP has [children]. *)
#[warnings="-register-all"]
Inductive Op :=
| Leaf (name OPType : string)
| Comp (name OPType : string) (children : list Op).

(** [isinstance(o, COMP)] *)
Definition is_COMP (o : Op) : bool :=
  match o with Comp _ _ _ => true | Leaf _ _ => false end.

(** [o.OPType] *)
Definition OPType_of (o : Op) : string :=
  match o with Comp _ t _ => t | Leaf _ t => t end.

(** The loop of [get_all_descendants] over [comp.children]; [rec] is the
    recursive call. *)
Definition descendants_loop (rec : Op → option (list Op))
  : list Op → list Op → option (list Op) :=
  fix loop (children : list Op) (descendants : list Op) :=
    match children with
    | [] => Some descendants
    | child :: children =>
        let descendants := descendants ++ [child] in
        if is_COMP child then
          further ← rec child; loop children (descendants ++ further)
        else loop children descendants
    end.

(** [get_all_descendants(comp)]; [None] is the [AttributeError] that
    reading [children] from an operator that is not a COMP raises. *)
Fixpoint get_all_descendants (comp : Op) : option (list Op) :=
  match comp with
  | Leaf _ _ => None
  | Comp _ _ children => descendants_loop get_all_descendants children []
  end.

(** The loop of [get_network_depth] over [comp.children]. *)
Definition depth_loop (rec : Op → nat) : list Op → nat → nat :=
  fix loop (children : list Op) (max_depth : nat) :=
    match children with
    | [] => max_depth
    | child :: children =>
        if is_COMP child then
          let child_depth := rec child in
          loop children (max_depth `max` (child_depth + 1))
        else loop children max_depth
    end.

(** [get_network_depth(comp)] *)
Fixpoint get_network_depth (comp : Op) : nat :=
  match comp with
  | Leaf _ _ => 0
  | Comp _ _ children =>
      match children with
      | [] => 0
      | _ => depth_loop get_network_depth children 0
      end
  end.

(** The [stats] dictionary of [get_network_stats]. *)
Record Stats := {
  total_operators : nat;
  operators_by_type : gmap string nat;
  max_depth : nat;
  containers : nat
}.

(** [stats['total_operators'] += 1; stats['operators_by_type'][t] += 1] *)
Definition count_operator (t : string) (stats : Stats) : Stats :=
  {| total_operators := total_operators stats + 1;
     operators_by_type :=
       <[t := default 0 (operators_by_type stats !! t) + 1]> (operators_by_type stats);
     max_depth := max_depth stats;
     containers := containers stats |}.

(** [stats['containers'] += 1] *)
Definition count_container (stats : Stats) : Stats :=
  {| total_operators := total_operators stats;
     operators_by_type := operators_by_type stats;
     max_depth := max_depth stats;
     containers := containers stats + 1 |}.

(** [stats['max_depth'] = max(stats['max_depth'], depth)] *)
Definition raise_depth (depth : nat) (stats : Stats) : Stats :=
  {| total_operators := total_operators stats;
     operators_by_type := operators_by_type stats;
     max_depth := max_depth stats `max` depth;
     containers := containers stats |}.

(** The loop of [analyze_comp] over [comp.children]. *)
Definition analyze_loop (rec : Op → Stats → option Stats)
  : list Op → Stats → option Stats :=
  fix loop (children : list Op) (stats : Stats) :=
    match children with
    | [] => Some stats
    | child :: children =>
        let stats := count_operator (OPType_of child) stats in
        if is_COMP child then
          stats ← rec child (count_container stats); loop children stats
        else loop children stats
    end.

(** [analyze_comp(comp, depth)], on the shared [stats]. *)
Fixpoint analyze_comp (comp : Op) (depth : nat) (stats : Stats) : option Stats :=
  match comp with
  | Leaf _ _ => None
  | Comp _ _ children =>
      analyze_loop (λ child, analyze_comp child (depth + 1)) children
                   (raise_depth depth stats)
  end.

(** [get_network_stats(search_root)] *)
Definition get_network_stats (search_root : Op) : option Stats :=
  analyze_comp search_root 0
    {| total_operators := 0; operators_by_type := ∅; max_depth := 0;
       containers := 0 |}.

(** [x] is somewhere below [o]. *)
Inductive descendant : Op → Op → Prop :=
| descendant_child name type children child :
    child ∈ children → descendant (Comp name type children) child
| descendant_deeper name type children child x :
    child ∈ children → descendant child x →
    descendant (Comp name type children) x.

(** [o] holds [k] containers nested one inside the other. *)
Inductive nested : nat → Op → Prop :=
| nested_here o : nested 0 o
| nested_inside k name type children child :
    child ∈ children → is_COMP child = true → nested k child →
    nested (S k) (Comp name type children).

(** *** The common parent *)

(** An operator named by the containers around it, innermost first,
    itself included; the root is [[]].  Two operators are the same
    object exactly when these names agree. *)
Definition Located := list string.

(** The first loop of [find_common_parent], which fills [parents1];
    [current.parent()] is the operator named by the outer containers, and
    the root has none. *)
Fixpoint parents_of (current : Located) : list Located :=
  current :: match current with
             | [] => []
             | _ :: outer => parents_of outer
             end.

(** The second loop of [find_common_parent]. *)
Fixpoint first_common (parents1 : list Located) (current : Located)
  : option Located :=
  if decide (current ∈ parents1) then Some current
  else match current with
       | [] => None
       | _ :: outer => first_common parents1 outer
       end.

(** [find_common_parent(op1, op2)] *)
Definition find_common_parent (op1 op2 : Located) : option Located :=
  first_common (parents_of op1) op2.

(** *** NetworkCache *)

Section Cache.
Context {H : Type} (op : string → H → option OP).

(** [NetworkCache._cache]: a looked-up path maps to what [op(path)] gave,
    which may be [None]. *)
Abbreviation NetworkCache := (gmap string (option OP)).

(** [NetworkCache.get(path)] *)
Definition cache_get (cache : NetworkCache) (path : string) (h : H)
  : option OP * NetworkCache :=
  match cache !! path with
  | None => let found := op path h in (found, <[path := found]> cache)
  | Some found => (found, cache)
  end.

(** [NetworkCache.clear()] *)
Definition cache_clear (cache : NetworkCache) : NetworkCache := ∅.

End Cache.

End Hierarchy.

(** ** error_handling_examples.py: recovery and validation patterns *)

Module Recovery.
Import Host ErrorHandling.

(** [l[i]]: a negative [i] counts from the end; [None] is [IndexError]. *)
Definition py_index {A : Type} (l : list A) (i : Z) : option A :=
  if (0 <=? i)%Z then l !! Z.to_nat i
  else if (- Z.of_nat (length l) <=? i)%Z
       then l !! Z.to_nat (Z.of_nat (length l) + i)
       else None.

(** What [retry_operation] hands back: [(True, result)],
    [(False, str(e))], or [None] when the loop ends without a [return]. *)
Inductive retried (A : Type) :=
| Succeeded (result : A)
| GaveUp (message : string)
| NoResult.
Arguments Succeeded {A} result.
Arguments GaveUp {A} message.
Arguments NoResult {A}.

Section Patterns.
Context {H Value Delay : Type} (api : HostAPI H Value).

(** [time.sleep(delay)]: it passes time on the host, and raises when
    [delay] is not a length of time it accepts (a negative number, or not
    a number). *)
Context (sleep : Delay → H → result unit * H).

(** The loop of [retry_operation] over what is left of
    [range(max_attempts)].  [time.sleep] is called inside the handler, so
    an exception it raises is not caught. *)
Fixpoint retry_loop {A} (func : M H A) (max_attempts : Z) (delay : Delay)
    (attempts : list nat) : M H (retried A) :=
  match attempts with
  | [] => ret NoResult
  | attempt :: attempts =>
      try_except
        (result ← func; ret (Succeeded result))
        (λ e, _ ← print ("Attempt " +:+ pretty (attempt + 1) +:+ " failed: "
                          +:+ exn_msg e);
              if decide (Z.of_nat attempt < max_attempts - 1)%Z then
                _ ← host_call (sleep delay);
                retry_loop func max_attempts delay attempts
              else ret (GaveUp (exn_msg e)))
  end.

(** [retry_operation(func, max_attempts, delay)] *)
Definition retry_operation {A} (func : M H A) (max_attempts : Z) (delay : Delay)
  : M H (retried A) :=
  retry_loop func max_attempts delay (seq 0 (Z.to_nat max_attempts)).

(** The name tried at [attempt]. *)
Definition fallback_name (base_name : string) (attempt : nat) : string :=
  if decide (attempt = 0) then base_name
  else base_name +:+ "_" +:+ pretty attempt.

(** The [while attempt < 10] loop of [create_with_fallback], by the
    number [10 - attempt] of attempts that are left. *)
Fixpoint fallback_loop (parent : OP) (base_name op_type : string) (remaining : nat)
  : M H (option OP) :=
  match remaining with
  | 0 =>
      _ ← print ("Failed to create operator after " +:+ pretty 10 +:+ " attempts");
      ret None
  | S remaining =>
      let attempt := 10 - S remaining in
      let name := fallback_name base_name attempt in
      try_except
        (new_op ← host_call (h_create api parent op_type name);
         _ ← print ("Created operator with name: " +:+ name);
         ret (Some new_op))
        (λ _, fallback_loop parent base_name op_type remaining)
  end.

(** [create_with_fallback(parent, preferred_name, op_type)] *)
Definition create_with_fallback (parent : OP) (preferred_name op_type : string)
  : M H (option OP) :=
  fallback_loop parent preferred_name op_type 10.

(** The loop of [safe_batch_operation]: how it ended, and [completed]. *)
Fixpoint batch_loop (operation_func : OP → M H unit)
    (operators : list (option OP)) (completed : list OP)
  : M H (option Exn * list OP) :=
  match operators with
  | [] => ret (None, completed)
  | None :: operators => batch_loop operation_func operators completed
  | Some op_obj :: operators =>
      outcome ← observe (operation_func op_obj);
      match outcome with
      | Ok _ => batch_loop operation_func operators (completed ++ [op_obj])
      | Raise e => ret (Some e, completed)
      end
  end.

(** [safe_batch_operation(operators, operation_func)] *)
Definition safe_batch_operation (operators : list (option OP))
    (operation_func : OP → M H unit) : M H (bool * list OP) :=
  ended ← batch_loop operation_func operators [];
  match ended.1 with
  | None => ret (true, ended.2)
  | Some e =>
      _ ← print ("Batch operation failed: " +:+ exn_msg e);
      ret (false, ended.2)
  end.

End Patterns.

(** *** The retry test *)

(** [time.sleep] on a number of seconds, where the host is the counter
    [attempt_count] of the test: a negative delay is refused. *)
Definition sleep_seconds (delay : QArith_base.Q) (attempt_count : nat)
  : result unit * nat :=
  if (QArith_base.Qnum delay <? 0)%Z
  then (Raise {| exn_class := ValueError;
                 exn_msg := "sleep length must be non-negative" |}, attempt_count)
  else (Ok (), attempt_count).

(** [flaky_operation] *)
Definition flaky_operation : M nat string :=
  λ w,
    let attempt_count := host w + 1 in
    let w' := {| host := attempt_count; stdout := stdout w;
                 log_text := log_text w |} in
    if decide (attempt_count < 2)
    then (Raise {| exn_class := OtherError; exn_msg := "Temporary failure" |}, w')
    else (Ok "Success!", w').

(** *** [create_network_with_cleanup] *)

Section Cleanup.
Context {H Value : Type} (api : HostAPI H Value).

(** [target.inputConnectors[i].connect(source)] and [operator.name], as
    the host answers them; reading the name of a destroyed operator may
    raise. *)
Context (h_connect : OP → nat → OP → H → result unit * H).
Context (h_name : OP → H → result string * H).

(** [op('/project1').create(op_type, name)]: a missing project makes the
    attribute access raise. *)
Definition create_in_project1 (op_type name : string) : M H OP :=
  found ← host_call (h_op api "/project1");
  match found with
  | Some project1 => host_call (h_create api project1 op_type name)
  | None =>
      raise {| exn_class := AttributeError;
               exn_msg := "'NoneType' object has no attribute 'create'" |}
  end.

(** The loop of the handler over [created_ops]. *)
Fixpoint destroy_created (created_ops : list OP) : M H unit :=
  match created_ops with
  | [] => ret ()
  | op_obj :: created_ops =>
      _ ← try_except
             (_ ← host_call (h_destroy api op_obj);
              name ← host_call (h_name op_obj);
              print ("Cleaned up " +:+ name))
             (λ _, ret ());
      destroy_created created_ops
  end.

(** The [except] block, entered with [created_ops] as it is then. *)
Definition cleanup_handler (created_ops : list OP) (e : Exn)
  : M H (option (list OP)) :=
  _ ← print ("Error creating network: " +:+ exn_msg e);
  _ ← destroy_created created_ops;
  ret None.

(** [create_network_with_cleanup()] *)
Definition create_network_with_cleanup : M H (option (list OP)) :=
  created ← observe (create_in_project1 "noiseTOP" "cleanup_noise");
  match created with
  | Raise e => cleanup_handler [] e
  | Ok noise =>
      created ← observe (create_in_project1 "blurTOP" "cleanup_blur");
      match created with
      | Raise e => cleanup_handler [noise] e
      | Ok blur =>
          let created_ops := [noise; blur] in
          connected ← observe (host_call (h_connect blur 0 noise));
          match connected with
          | Raise e => cleanup_handler created_ops e
          | Ok _ =>
              if decide (1 < length created_ops) then
                cleanup_handler created_ops
                  {| exn_class := OtherError;
                     exn_msg := "Simulated error during network creation" |}
              else (ret (Some created_ops) : M H (option (list OP)))
          end
      end
  end.

End Cleanup.

(** *** [safe_connect], on a host that is a network *)

Section Connect.
Context {Value : Type} (api : HostAPI Network Value).

(** [safe_connect(source_path, target_path, input_index)] *)
Definition safe_connect (source_path target_path : string) (input_index : Z)
  : M Network (bool * string) :=
  source ← safe_op_access api source_path;
  target ← safe_op_access api target_path;
  match source, target with
  | None, _ => ret (false, "Source operator not found")
  | Some _, None => ret (false, "Target operator not found")
  | Some source, Some target =>
      try_except
        (connectors ← ((λ w, (Ok (inputConnectors (host w) target), w))
                       : M Network (list Connector));
         if decide (Z.of_nat (length connectors) ≤ input_index)%Z then
           ret (false, "Invalid input index " +:+ pretty input_index)
         else
           match py_index connectors input_index with
           | None =>
               raise {| exn_class := OtherError;
                        exn_msg := "list index out of range" |}
           | Some connector =>
               _ ← host_call (λ net, (Ok (), connect net connector source));
               ret (true, "Connected successfully")
           end)
        (λ e, ret (false, "Connection failed: " +:+ exn_msg e))
  end.

End Connect.

(** *** [validate_menu_parameter] *)

(** A value passed for a menu parameter. *)
Inductive MenuValue :=
| MenuStr (s : string)
| MenuInt (i : Z)
| MenuOther.

Section Menu.
(** [str(names)] for the list of menu names. *)
Context (show_names : list string → string).

(** [validate_menu_parameter(operator, param_name, value)]: [operator] is
    [None] or the parameters of the operator, each with its [menuNames]
    if it has the attribute. *)
Definition validate_menu_parameter
    (operator : option (gmap string (option (list string))))
    (param_name : string) (value : MenuValue) : bool * string :=
  match operator ≫= (λ pars, pars !! param_name) with
  | None => (false, "Invalid operator or parameter")
  | Some None => (false, "Not a menu parameter")
  | Some (Some menuNames) =>
      match value with
      | MenuStr s =>
          if decide (s ∈ menuNames) then (true, s)
          else (false, "'" +:+ s +:+ "' is not a valid option. Valid options: "
                       +:+ show_names menuNames)
      | MenuInt i =>
          if decide (0 ≤ i < Z.of_nat (length menuNames))%Z then
            match py_index menuNames i with
            | Some picked => (true, picked)
            | None => (* not reached: [i] is within the bounds *)
                (false, "Index " +:+ pretty i +:+ " is out of range")
            end
          else (false, "Index " +:+ pretty i +:+ " is out of range")
      | MenuOther => (false, "Value must be string or integer")
      end
  end.

End Menu.

(** *** A host for [safe_connect]: [connection_utility_examples] by name *)

Definition util_names : gmap string OP :=
  {[ "util_noise1" := 0; "util_noise2" := 1; "util_blur" := 2;
     "util_comp" := 3; "util_level" := 4 ]}.

Definition util_api : HostAPI Network Z :=
  {| h_create := λ _ _ _ net, (Raise (host_error "not supported"), net);
     h_op := λ path net, (Ok (util_names !! path), net);
     h_destroy := λ _ net, (Ok (), net);
     h_has_par := λ _ _ _, false;
     h_read_only := λ _ _ _, false;
     h_set_val := λ _ _ _ net, (Ok (), net);
     h_now := λ _, "2024-01-01 12:00:00" |}.

Definition util_world : World Network :=
  {| host := Connection.util_network; stdout := []; log_text := "" |}.

(** A host on which creation under a name in use raises, and nothing
    else does: the state is the list of names in use, the operator
    created is the number of names in use before. *)
Definition naming_api : HostAPI (list string) Z :=
  {| h_create := λ _ _ name names,
       if decide (name ∈ names)
       then (Raise (host_error "name already in use"), names)
       else (Ok (length names), names ++ [name]);
     h_op := λ _ names, (Ok None, names);
     h_destroy := λ _ names, (Ok (), names);
     h_has_par := λ _ _ _, false;
     h_read_only := λ _ _ _, false;
     h_set_val := λ _ _ _ names, (Ok (), names);
     h_now := λ _, "2024-01-01 12:00:00" |}.

End Recovery.

(** * Properties *)

(** ** Generic facts about loops and the collecting traversal *)

Module TraversalFacts.
Import Host Traversal.

Lemma for_each_bind {A B S : Type} (xs : list A) (f : A → list B)
    (body : B → S → option S) (s : S) :
  for_each (xs ≫= f) body s = for_each xs (λ x s, for_each (f x) body s) s.
Proof.
  revert s. induction xs as [|x xs IH]; intros s; [done|].
  cbn [mbind list_bind for_each]. simpl.
  generalize (f x). intros l. revert s.
  induction l as [|b l IHl]; intros s; simpl; [apply IH|].
  destruct (body b s) as [s'|]; simpl; [apply IHl|done].
Qed.

Lemma for_each_fmap {A B S : Type} (g : A → B) (xs : list A)
    (body : B → S → option S) (s : S) :
  for_each (g <$> xs) body s = for_each xs (λ x s, body (g x) s) s.
Proof.
  revert s. induction xs as [|x xs IH]; intros s; simpl; [done|].
  destruct (body (g x) s); simpl; [apply IH|done].
Qed.

Lemma for_each_ext {A S : Type} (xs : list A) (b1 b2 : A → S → option S) s :
  (∀ x s, b1 x s = b2 x s) → for_each xs b1 s = for_each xs b2 s.
Proof.
  intros E. revert s. induction xs as [|x xs IH]; intros s; simpl; [done|].
  rewrite E. destruct (b2 x s); simpl; [apply IH|done].
Qed.

Section Visit.
Variable rec : OP → option (list OP).

Lemma visit_all_some l acc acc' :
  for_each l (visit rec) acc = Some acc' →
  (∀ v, v ∈ l → is_Some (rec v)) ∧
  (∀ x, x ∈ acc' ↔
        x ∈ acc ∨ ∃ v r, v ∈ l ∧ rec v = Some r ∧ (x = v ∨ x ∈ r)).
Proof.
  revert acc. induction l as [|v l IH]; intros acc; simpl.
  - intros [= <-]. split; [intros v Hv; by apply elem_of_nil in Hv|].
    intros x. split; [auto|]. intros [?|(v & r & Hv & _)]; [done|].
    by apply elem_of_nil in Hv.
  - change (visit rec v acc) with (r ← rec v; Some ((acc ++ [v]) ++ r)).
    destruct (rec v) as [r|] eqn:Hr; simpl; [|done].
    intros H. apply IH in H as [Hall Hmem]. split.
    + intros w [->|Hw]%elem_of_cons; [by rewrite Hr|by apply Hall].
    + intros x. rewrite Hmem, !elem_of_app, list_elem_of_singleton. split.
      * intros [[[?| ->]|?]|(w & r' & Hw & Hr' & Hx)].
        -- by left.
        -- right. exists v, r. split_and!; [apply list_elem_of_here|done|by left].
        -- right. exists v, r. split_and!; [apply list_elem_of_here|done|by right].
        -- right. exists w, r'. split_and!; [by apply list_elem_of_further|done..].
      * intros [?|(w & r' & [->|Hw]%elem_of_cons & Hr' & Hx)]; [by auto| |].
        -- rewrite Hr in Hr'. injection Hr' as <-. destruct Hx; auto.
        -- right. eauto.
Qed.

Lemma visit_total l acc :
  (∀ v, v ∈ l → is_Some (rec v)) → is_Some (for_each l (visit rec) acc).
Proof.
  revert acc. induction l as [|v l IH]; intros acc Hall; simpl; [by eexists|].
  change (visit rec v acc) with (r ← rec v; Some ((acc ++ [v]) ++ r)).
  destruct (Hall v) as [r Hr]; [apply list_elem_of_here|]. rewrite Hr. simpl.
  apply IH. intros w Hw. apply Hall. by apply list_elem_of_further.
Qed.

Lemma visit_stuck l acc v :
  v ∈ l → rec v = None → for_each l (visit rec) acc = None.
Proof.
  intros Hv Hn. destruct (for_each l (visit rec) acc) as [acc'|] eqn:E; [|done].
  apply visit_all_some in E as [Hall _]. destruct (Hall v Hv) as [r Hr]. congruence.
Qed.

End Visit.

Section Collect.
Variable succ : OP → list OP.

Lemma collect_unfold fuel o :
  collect succ (S fuel) o =
  acc ← for_each (succ o) (visit (collect succ fuel)) [];
  Some (elements (list_to_set acc : gset OP)).
Proof. reflexivity. Qed.

(** Whatever [collect] returns is the set of operators reachable in one
    or more steps, without repetition. *)
Lemma collect_sound fuel o l :
  collect succ fuel o = Some l →
  NoDup l ∧ ∀ x, x ∈ l ↔ tc (step succ) o x.
Proof.
  revert o l. induction fuel as [|fuel IH]; intros o l; [done|].
  rewrite collect_unfold.
  destruct (for_each (succ o) (visit (collect succ fuel)) []) as [acc|] eqn:E; [|done].
  simpl. intros [= <-]. split; [apply NoDup_elements|].
  apply visit_all_some in E as [Hall Hmem].
  intros x. rewrite elem_of_elements, elem_of_list_to_set, Hmem. split.
  - intros [Hx|(v & r & Hv & Hr & Hx)]; [by apply elem_of_nil in Hx|].
    destruct Hx as [->|Hx]; [by apply tc_once|].
    eapply tc_l; [exact Hv|]. by apply (IH v r).
  - intros Hx. right. inversion Hx as [? ? Hs|? v ? Hs Hrest]; subst.
    + destruct (Hall x Hs) as [r Hr]. exists x, r. split_and!; [done..|by left].
    + destruct (Hall v Hs) as [r Hr]. exists v, r. split_and!; [done..|].
      right. by apply (IH v r).
Qed.

(** The recursion returns from every operator below which the step
    relation is well founded. *)
Lemma collect_terminates o :
  Acc (flip (step succ)) o →
  ∃ fuel, ∀ fuel', fuel ≤ fuel' → is_Some (collect succ fuel' o).
Proof.
  induction 1 as [o _ IH].
  assert (∃ fuel, ∀ v, v ∈ succ o →
            ∀ fuel', fuel ≤ fuel' → is_Some (collect succ fuel' v)) as [n Hn].
  { assert (∀ v, v ∈ succ o → flip (step succ) v o) as Hstep by (intros; done).
    revert Hstep. generalize (succ o) as l.
    induction l as [|v l IHl]; intros Hstep.
    - exists 0. intros v Hv. by apply elem_of_nil in Hv.
    - destruct IHl as [n1 Hn1].
      { intros w Hw. apply Hstep. by apply list_elem_of_further. }
      destruct (IH v) as [n2 Hn2]; [apply Hstep, list_elem_of_here|].
      exists (n1 `max` n2). intros w [->|Hw]%elem_of_cons fuel' Hle.
      + apply Hn2. lia.
      + apply Hn1; [done|lia]. }
  exists (S n). intros [|fuel'] Hle; [lia|].
  rewrite collect_unfold.
  destruct (visit_total (collect succ fuel') (succ o) []) as [acc ->]; [|by eexists].
  intros v Hv. apply Hn; [done|lia].
Qed.

(** From an operator that reaches a cycle the recursion never returns. *)
Lemma collect_diverges fuel o c :
  rtc (step succ) o c → tc (step succ) c c → collect succ fuel o = None.
Proof.
  revert o. induction fuel as [|fuel IH]; intros o Hoc Hcc; [done|].
  assert (∃ v, v ∈ succ o ∧ rtc (step succ) v c) as (v & Hv & Hvc).
  { destruct (rtc_inv _ _ Hoc) as [->|(v & Hs & Hr)]; [|by eauto].
    inversion Hcc as [? ? Hs|? v ? Hs Hrest]; subst.
    - exists c. split; [done|apply rtc_refl].
    - exists v. split; [done|by apply tc_rtc]. }
  rewrite collect_unfold.
  by rewrite (visit_stuck (collect succ fuel) (succ o) [] v Hv (IH v Hvc Hcc)).
Qed.

(** Two runs that both return give the same list. *)
Lemma collect_deterministic f1 f2 o l1 l2 :
  collect succ f1 o = Some l1 → collect succ f2 o = Some l2 → l1 = l2.
Proof.
  intros H1 H2.
  assert (∀ x, x ∈ l1 ↔ x ∈ l2) as Hsame.
  { intros x. apply collect_sound in H1 as [_ ->].
    apply collect_sound in H2 as [_ ->]. done. }
  destruct f1 as [|f1]; [done|]. destruct f2 as [|f2]; [done|].
  rewrite collect_unfold in H1, H2.
  destruct (for_each (succ o) (visit (collect succ f1)) []) as [a1|]; [|done].
  destruct (for_each (succ o) (visit (collect succ f2)) []) as [a2|]; [|done].
  simpl in *. injection H1 as <-. injection H2 as <-.
  f_equal. apply set_eq. intros x.
  specialize (Hsame x). by rewrite !elem_of_elements in Hsame.
Qed.

(** A finite step relation is well founded below every operator from
    which no cycle can be reached.  [targets] bounds the operators that a
    step can lead to. *)
Lemma acyclic_Acc (targets : gset OP) (o : OP) :
  (∀ u v, step succ u v → v ∈ targets) →
  (∀ x, rtc (step succ) o x → ¬ tc (step succ) x x) →
  Acc (flip (step succ)) o.
Proof.
  intros Hfin Hacyc.
  assert (∀ n (seen : gset OP) p,
            rtc (step succ) o p →
            seen ⊆ targets → size targets ≤ size seen + n →
            (∀ s, s ∈ seen → rtc (step succ) s p) →
            Acc (flip (step succ)) p) as Hmain.
  { induction n as [|n IH]; intros seen p Hop Hsub Hsize Hreach;
      constructor; intros v Hv; unfold flip in Hv.
    - exfalso. assert (seen = targets) as ->.
      { apply set_subseteq_size_eq; [done|lia]. }
      apply (Hacyc v); [by eapply rtc_r|].
      eapply tc_rtc_l; [|apply tc_once; exact Hv].
      apply Hreach. by eapply Hfin.
    - assert (v ∉ seen) as Hfresh.
      { intros Hin. apply (Hacyc v); [by eapply rtc_r|].
        eapply tc_rtc_l; [by apply Hreach|by apply tc_once]. }
      apply (IH ({[v]} ∪ seen)).
      + by eapply rtc_r.
      + intros s [->%elem_of_singleton|Hs]%elem_of_union;
          [by eapply Hfin|by apply Hsub].
      + rewrite size_union by set_solver. rewrite size_singleton. lia.
      + intros s [->%elem_of_singleton|Hs]%elem_of_union; [apply rtc_refl|].
        eapply rtc_r; [by apply Hreach|done]. }
  apply (Hmain (size targets) ∅ o); [apply rtc_refl|set_solver|lia|].
  intros s Hs. by apply not_elem_of_empty in Hs.
Qed.

(** On a finite network the recursion returns exactly from the operators
    that reach no cycle, and then yields the reachable set. *)
Lemma collect_exact (targets : gset OP) (o : OP) :
  (∀ u v, step succ u v → v ∈ targets) →
  (∀ x, rtc (step succ) o x → ¬ tc (step succ) x x) →
  ∃ l, NoDup l ∧ (∀ x, x ∈ l ↔ tc (step succ) o x) ∧
       ∃ fuel, ∀ fuel', fuel ≤ fuel' → collect succ fuel' o = Some l.
Proof.
  intros Hfin Hacyc.
  destruct (collect_terminates o (acyclic_Acc targets o Hfin Hacyc)) as [fuel Hfuel].
  destruct (Hfuel fuel (Nat.le_refl _)) as [l Hl].
  exists l. destruct (collect_sound _ _ _ Hl) as [Hnd Hmem].
  split_and!; [done..|]. exists fuel. intros fuel' Hle.
  destruct (Hfuel fuel' Hle) as [l' Hl'].
  by rewrite Hl', (collect_deterministic _ _ _ _ _ Hl' Hl).
Qed.

End Collect.

End TraversalFacts.

Module ConnectionFacts.
Import Host Traversal Connection TraversalFacts.

Lemma get_downstream_ops_collect fuel net o :
  get_downstream_ops fuel net o = collect (consumers net) fuel o.
Proof.
  revert o. induction fuel as [|fuel IH]; intros o; [done|].
  cbn [get_downstream_ops collect]. f_equal. unfold consumers.
  rewrite for_each_bind. apply for_each_ext. intros c acc.
  rewrite for_each_fmap. apply for_each_ext. intros k acc'.
  unfold visit. by rewrite IH.
Qed.

Lemma get_upstream_ops_collect fuel net o :
  get_upstream_ops fuel net o = collect (producers net) fuel o.
Proof.
  revert o. induction fuel as [|fuel IH]; intros o; [done|].
  cbn [get_upstream_ops collect]. f_equal. unfold producers.
  rewrite for_each_bind. apply for_each_ext. intros c acc.
  apply for_each_ext. intros k acc'.
  unfold visit. by rewrite IH.
Qed.

Lemma step_consumers net u v : step (consumers net) u v ↔ feeds net u v.
Proof.
  unfold step, consumers, feeds. rewrite list_elem_of_bind. split.
  - intros (c & (k & -> & Hk)%list_elem_of_fmap & Hc). eauto.
  - intros (c & k & Hc & Hk & <-). exists c. split; [|done].
    apply list_elem_of_fmap. eauto.
Qed.

Lemma step_producers net u v : step (producers net) u v ↔ fed_by net u v.
Proof.
  unfold step, producers, fed_by. rewrite list_elem_of_bind.
  split; intros (c & ? & ?); by exists c.
Qed.

Lemma consumers_finite net u v :
  step (consumers net) u v → v ∈ (list_to_set (w_dst <$> wires net) : gset OP).
Proof.
  intros (c & k & Hc & Hk & <-)%step_consumers.
  unfold out_connections in Hk.
  apply list_elem_of_fmap in Hk as (w & -> & [_ Hw]%list_elem_of_filter).
  apply elem_of_list_to_set, list_elem_of_fmap. eauto.
Qed.

Lemma producers_finite net u v :
  step (producers net) u v → v ∈ (list_to_set (w_src <$> wires net) : gset OP).
Proof.
  intros (c & Hc & Hk)%step_producers.
  unfold in_connections in Hk.
  apply list_elem_of_fmap in Hk as (w & -> & [_ Hw]%list_elem_of_filter).
  apply elem_of_list_to_set, list_elem_of_fmap. eauto.
Qed.

Lemma tc_impl {A} (R S : relation A) x y :
  (∀ a b, R a b → S a b) → tc R x y → tc S x y.
Proof. intros E. by apply (tc_congruence (λ a, a)). Qed.

Lemma rtc_impl {A} (R S : relation A) x y :
  (∀ a b, R a b → S a b) → rtc R x y → rtc S x y.
Proof. intros E. by apply (rtc_congruence (λ a, a)). Qed.

(** A numbering that every wire increases rules out cycles. *)
Lemma ranked_wires_no_cycle net (rank : OP → nat) :
  Forall (λ w, rank (w_src w) < rank (w_dst w)) (wires net) →
  (∀ x, ¬ tc (feeds net) x x) ∧ (∀ x, ¬ tc (fed_by net) x x).
Proof.
  intros Hrank. rewrite Forall_forall in Hrank.
  assert (∀ u v, feeds net u v → rank u < rank v) as Hdown.
  { intros u v (c & k & Hc & Hk & <-). unfold out_connections in Hk.
    apply list_elem_of_fmap in Hk as (w & -> & [[Hsrc _] Hw]%list_elem_of_filter).
    unfold outputConnectors, connectors_of in Hc.
    destruct (operators net !! u); [|by apply elem_of_nil in Hc].
    apply list_elem_of_fmap in Hc as (i & -> & _). simpl in *. subst u.
    by apply Hrank. }
  assert (∀ u v, fed_by net u v → rank v < rank u) as Hup.
  { intros u v (c & Hc & Hk). unfold in_connections in Hk.
    apply list_elem_of_fmap in Hk as (w & -> & [[Hdst _] Hw]%list_elem_of_filter).
    unfold inputConnectors, connectors_of in Hc.
    destruct (operators net !! u); [|by apply elem_of_nil in Hc].
    apply list_elem_of_fmap in Hc as (i & -> & _). simpl in *. subst u.
    by apply Hrank. }
  split; intros x Hx.
  - assert (∀ a b, tc (feeds net) a b → rank a < rank b) as Hlt.
    { induction 1 as [a b H|a b c H _ IH]; [by apply Hdown|].
      apply Hdown in H. lia. }
    apply Hlt in Hx. lia.
  - assert (∀ a b, tc (fed_by net) a b → rank b < rank a) as Hlt.
    { induction 1 as [a b H|a b c H _ IH]; [by apply Hup|].
      apply Hup in H. lia. }
    apply Hlt in Hx. lia.
Qed.

(** Downstream traversal: exact on operators that reach no cycle. *)
Lemma get_downstream_ops_exact net o :
  (∀ x, rtc (feeds net) o x → ¬ tc (feeds net) x x) →
  ∃ l, NoDup l ∧ (∀ x, x ∈ l ↔ tc (feeds net) o x) ∧
       ∃ fuel, ∀ fuel', fuel ≤ fuel' → get_downstream_ops fuel' net o = Some l.
Proof.
  intros Hacyc.
  destruct (collect_exact (consumers net)
              (list_to_set (w_dst <$> wires net)) o) as (l & Hnd & Hmem & fuel & Hf).
  - apply consumers_finite.
  - intros x Hx Hxx. apply (Hacyc x).
    + revert Hx. apply rtc_impl. intros a b. apply step_consumers.
    + revert Hxx. apply tc_impl. intros a b. apply step_consumers.
  - exists l. split_and!; [done| |].
    + intros x. rewrite Hmem.
      split; apply tc_impl; intros a b; apply step_consumers.
    + exists fuel. intros fuel' Hle. rewrite get_downstream_ops_collect. by apply Hf.
Qed.

(** Upstream traversal: exact on operators that reach no cycle. *)
Lemma get_upstream_ops_exact net o :
  (∀ x, rtc (fed_by net) o x → ¬ tc (fed_by net) x x) →
  ∃ l, NoDup l ∧ (∀ x, x ∈ l ↔ tc (fed_by net) o x) ∧
       ∃ fuel, ∀ fuel', fuel ≤ fuel' → get_upstream_ops fuel' net o = Some l.
Proof.
  intros Hacyc.
  destruct (collect_exact (producers net)
              (list_to_set (w_src <$> wires net)) o) as (l & Hnd & Hmem & fuel & Hf).
  - apply producers_finite.
  - intros x Hx Hxx. apply (Hacyc x).
    + revert Hx. apply rtc_impl. intros a b. apply step_producers.
    + revert Hxx. apply tc_impl. intros a b. apply step_producers.
  - exists l. split_and!; [done| |].
    + intros x. rewrite Hmem.
      split; apply tc_impl; intros a b; apply step_producers.
    + exists fuel. intros fuel' Hle. rewrite get_upstream_ops_collect. by apply Hf.
Qed.

(** Downstream traversal: no result below an operator that reaches a cycle. *)
Lemma get_downstream_ops_diverges net o c fuel :
  rtc (feeds net) o c → tc (feeds net) c c → get_downstream_ops fuel net o = None.
Proof.
  intros Hoc Hcc. rewrite get_downstream_ops_collect.
  apply (collect_diverges _ fuel o c).
  - revert Hoc. apply rtc_impl. intros a b. apply step_consumers.
  - revert Hcc. apply tc_impl. intros a b. apply step_consumers.
Qed.

Lemma get_upstream_ops_diverges net o c fuel :
  rtc (fed_by net) o c → tc (fed_by net) c c → get_upstream_ops fuel net o = None.
Proof.
  intros Hoc Hcc. rewrite get_upstream_ops_collect.
  apply (collect_diverges _ fuel o c).
  - revert Hoc. apply rtc_impl. intros a b. apply step_producers.
  - revert Hcc. apply tc_impl. intros a b. apply step_producers.
Qed.

Lemma loop_network_feeds : feeds loop_network 0 0.
Proof.
  exists (input_of 0 0), (input_of 0 0). split_and!; [|  |done].
  - vm_compute. apply list_elem_of_here.
  - vm_compute. apply list_elem_of_here.
Qed.

Lemma ring_network_feeds : feeds ring_network 0 1 ∧ feeds ring_network 1 0.
Proof.
  split.
  - exists (input_of 0 0), (input_of 1 0). split_and!; [| |done];
      vm_compute; apply list_elem_of_here.
  - exists (input_of 1 0), (input_of 0 0). split_and!; [| |done];
      vm_compute; apply list_elem_of_here.
Qed.

Example get_downstream_ops_util :
  get_downstream_ops 3 util_network 0 = Some [2; 3].
Proof. vm_compute. reflexivity. Qed.

Example get_upstream_ops_util :
  get_upstream_ops 3 util_network 3 = Some [2; 1; 0].
Proof. vm_compute. reflexivity. Qed.

(** C1 (as stated, refuted): on an operator wired into its own input,
    [get_downstream_ops] returns no list at all, although exactly one
    operator is reachable from it. *)
Lemma get_downstream_ops_self_loop :
  ¬ ∃ fuel l, get_downstream_ops fuel loop_network 0 = Some l.
Proof.
  intros (fuel & l & Hl).
  rewrite (get_downstream_ops_diverges loop_network 0 0 fuel) in Hl; [done| |].
  - apply rtc_refl.
  - apply tc_once, loop_network_feeds.
Qed.

(** C1 (amended): for an operator from which no cycle of output
    connections can be reached, [get_downstream_ops] returns exactly the
    operators reachable by one or more output connections, each once; for
    an operator from which no cycle of input connections can be reached,
    [get_upstream_ops] returns exactly the operators reachable by one or
    more input connections, each once. *)
Theorem downstream_upstream_exact net o :
  ((∀ x, rtc (feeds net) o x → ¬ tc (feeds net) x x) →
   ∃ l, NoDup l ∧ (∀ x, x ∈ l ↔ tc (feeds net) o x) ∧
        ∃ fuel, ∀ fuel', fuel ≤ fuel' → get_downstream_ops fuel' net o = Some l) ∧
  ((∀ x, rtc (fed_by net) o x → ¬ tc (fed_by net) x x) →
   ∃ l, NoDup l ∧ (∀ x, x ∈ l ↔ tc (fed_by net) o x) ∧
        ∃ fuel, ∀ fuel', fuel ≤ fuel' → get_upstream_ops fuel' net o = Some l).
Proof.
  split.
  - apply get_downstream_ops_exact.
  - apply get_upstream_ops_exact.
Qed.

Lemma util_network_ranked :
  Forall (λ w, w_src w < w_dst w) (wires util_network).
Proof. vm_compute. repeat constructor. Qed.

Lemma downstream_upstream_exact_witness :
  (∃ l, NoDup l ∧ (∀ x, x ∈ l ↔ tc (feeds util_network) 2 x) ∧
        ∃ fuel, ∀ fuel', fuel ≤ fuel' →
                  get_downstream_ops fuel' util_network 2 = Some l) ∧
  (∃ l, NoDup l ∧ (∀ x, x ∈ l ↔ tc (fed_by util_network) 2 x) ∧
        ∃ fuel, ∀ fuel', fuel ≤ fuel' →
                  get_upstream_ops fuel' util_network 2 = Some l).
Proof.
  destruct (downstream_upstream_exact util_network 2) as [Hdown Hup].
  split.
  - apply Hdown. intros x _.
    apply (ranked_wires_no_cycle util_network (λ o, o)), util_network_ranked.
  - apply Hup. intros x _.
    apply (ranked_wires_no_cycle util_network (λ o, o)), util_network_ranked.
Defined.

(** An operator that feeds nothing reaches no cycle. *)
Lemma no_consumers_no_cycle net o :
  consumers net o = [] →
  ∀ x, rtc (feeds net) o x → ¬ tc (feeds net) x x.
Proof.
  intros Hnone.
  assert (∀ v, ¬ feeds net o v) as Hstuck.
  { intros v Hv%step_consumers. unfold step in Hv. rewrite Hnone in Hv.
    by apply elem_of_nil in Hv. }
  intros x Hx Hxx. destruct (rtc_inv _ _ Hx) as [->|(v & Hv & _)].
  - inversion Hxx as [? ? Hs|? v ? Hs _]; subst; by apply (Hstuck _ Hs).
  - by apply (Hstuck v).
Qed.

(** *** Rewiring *)

Lemma in_connections_connect_same net c s :
  in_connections (connect net c s) c = [s].
Proof.
  unfold in_connections, connect. simpl.
  rewrite filter_app, list_filter_filter.
  rewrite (list_filter_iff _ (λ _, False)) by (intros w; tauto).
  rewrite (filter_cons_True (enters c)) by (by unfold enters).
  assert (filter (λ _ : Wire, False) (wires net) = []) as ->; [|done].
  induction (wires net) as [|w l IH]; [done|].
  by rewrite filter_cons_False by tauto.
Qed.

Lemma in_connections_connect_other net c c' s :
  c ≠ c' → in_connections (connect net c s) c' = in_connections net c'.
Proof.
  intros Hne. unfold in_connections, connect. simpl.
  rewrite filter_app, list_filter_filter_l.
  - rewrite (filter_cons_False (enters c')); [by rewrite app_nil_r|].
    unfold enters. simpl. intros [Ho Hi]. apply Hne.
    destruct c, c'. simpl in *. by subst.
  - intros w [Ho Hi] [Ho' Hi']. apply Hne.
    destruct c, c'. simpl in *. congruence.
Qed.

Lemma inputConnectors_head net o :
  inputConnectors net o ≠ [] → inputConnectors net o !! 0 = Some (input_of o 0).
Proof.
  unfold inputConnectors, connectors_of.
  destruct (operators net !! o) as [s|]; [|done].
  by destruct (n_inputs s).
Qed.

(** What the loop of [insert_operator_between] does when [new_op] has a
    first input connector. *)
Lemma insert_loop_spec net new_op source connectors :
  inputConnectors net new_op ≠ [] →
  match insert_loop net new_op source connectors with
  | Returned true net' =>
      ∃ connector, connector ∈ connectors ∧
        source ∈ in_connections net connector ∧
        net' = connect (connect (disconnect net connector)
                          (input_of new_op 0) source) connector new_op
  | Returned false net' =>
      net' = net ∧ ∀ c, c ∈ connectors → source ∉ in_connections net c
  | IndexError _ => False
  end.
Proof.
  intros Hin. induction connectors as [|c cs IH]; simpl.
  - split; [done|]. intros c Hc. by apply elem_of_nil in Hc.
  - destruct (bool_decide (in_connections net c ≠ [])
              && bool_decide (source ∈ in_connections net c)) eqn:Hc.
    + apply andb_prop in Hc as [_ Hs%bool_decide_eq_true].
      change (inputConnectors (disconnect net c) new_op)
        with (inputConnectors net new_op).
      rewrite (inputConnectors_head _ _ Hin).
      exists c. split_and!; [apply list_elem_of_here|done..].
    + destruct (insert_loop net new_op source cs) as [[|] net'|net'].
      * destruct IH as (k & Hk & Hs & ->). exists k.
        split_and!; [by apply list_elem_of_further|done..].
      * destruct IH as [-> Hnone]. split; [done|].
        intros k [->|Hk]%elem_of_cons; [|by apply Hnone].
        intros Hs. apply andb_false_iff in Hc as [Hc|Hc].
        -- apply bool_decide_eq_false in Hc. apply Hc. intros E.
           rewrite E in Hs. by apply elem_of_nil in Hs.
        -- by apply bool_decide_eq_false in Hc.
      * done.
Qed.

Example insert_level_between_blur_and_comp :
  ∃ net', insert_operator_between util_network 4 2 3 = Returned true net' ∧
          wires net' =
            [ {| w_src := 0; w_out := 0; w_dst := 2; w_in := 0 |};
              {| w_src := 1; w_out := 0; w_dst := 3; w_in := 1 |};
              {| w_src := 2; w_out := 0; w_dst := 4; w_in := 0 |};
              {| w_src := 4; w_out := 0; w_dst := 3; w_in := 0 |} ].
Proof. eexists. split; vm_compute; reflexivity. Qed.

(** Why [new_op] must not be [target]: the second [connect] then lands on
    the connector that the first one has just wired. *)
Example insert_comp_before_itself :
  ∃ net', insert_operator_between util_network 3 2 3 = Returned true net' ∧
          in_connections net' (input_of 3 0) = [3].
Proof. eexists. split; vm_compute; reflexivity. Qed.

(** C3 (as stated, refuted): [util_blur] is connected to an input of
    [util_comp], yet inserting an operator that has no input connector
    does not return [True]: the call raises after the original wire has
    already been removed. *)
Lemma insert_operator_between_raises :
  fed_by util_network 3 2 ∧
  ∃ net', insert_operator_between util_network 5 2 3 = IndexError net' ∧
          in_connections net' (input_of 3 0) = [] ∧
          in_connections util_network (input_of 3 0) = [2].
Proof.
  split.
  - exists (input_of 3 0). split; vm_compute; apply list_elem_of_here.
  - eexists. split_and!; vm_compute; reflexivity.
Qed.

(** C3 (amended): when [new_op] has at least one input connector and is
    not [target] itself, [insert_operator_between(new_op, source, target)]
    returns [True] exactly when [source] is connected to some input
    connector of [target]; in that case [source] alone feeds [new_op]'s
    first input and [new_op] alone feeds an input of [target] that
    [source] occupied before; when it returns [False] the network is
    unchanged. *)
Theorem insert_operator_between_spec net new_op source target :
  inputConnectors net new_op ≠ [] →
  new_op ≠ target →
  ∃ result net',
    insert_operator_between net new_op source target = Returned result net' ∧
    (result = true ↔ fed_by net target source) ∧
    (result = true →
       ∃ connector, connector ∈ inputConnectors net target ∧
         source ∈ in_connections net connector ∧
         in_connections net' (input_of new_op 0) = [source] ∧
         in_connections net' connector = [new_op]) ∧
    (result = false → net' = net).
Proof.
  intros Hin Hne. unfold insert_operator_between.
  pose proof (insert_loop_spec net new_op source (inputConnectors net target) Hin) as H.
  destruct (insert_loop net new_op source (inputConnectors net target))
    as [[|] net'|net']; [| |done].
  - destruct H as (c & Hc & Hs & ->). eexists true, _. split_and!; [done| |  |done].
    + split; [|done]. intros _. by exists c.
    + intros _. exists c. split_and!; [done..| |].
      * rewrite in_connections_connect_other; [apply in_connections_connect_same|].
        intros ->. apply Hne. unfold inputConnectors, connectors_of in Hc.
        destruct (operators net !! target); [|by apply elem_of_nil in Hc].
        by apply list_elem_of_fmap in Hc as (i & [= -> _] & _).
      * apply in_connections_connect_same.
  - destruct H as [-> Hnone]. exists false, net. split_and!; [done| |done..].
    split; [done|]. intros (c & Hc & Hs). by destruct (Hnone c Hc).
Qed.

Lemma insert_operator_between_spec_witness :
  ∃ result net',
    insert_operator_between util_network 4 2 3 = Returned result net' ∧
    (result = true ↔ fed_by util_network 3 2) ∧
    (result = true →
       ∃ connector, connector ∈ inputConnectors util_network 3 ∧
         2 ∈ in_connections util_network connector ∧
         in_connections net' (input_of 4 0) = [2] ∧
         in_connections net' connector = [4]) ∧
    (result = false → net' = util_network).
Proof.
  apply (insert_operator_between_spec util_network 4 2 3).
  - vm_compute. discriminate.
  - lia.
Defined.

End ConnectionFacts.

(** ** Facts about network_navigation_examples.py *)

Module NavigationFacts.
Import Host Traversal Connection Navigation TraversalFacts ConnectionFacts.

Lemma for_each_total {A S : Type} (xs : list A) (body : A → S → option S) s :
  (∀ x s, x ∈ xs → is_Some (body x s)) → is_Some (for_each xs body s).
Proof.
  revert s. induction xs as [|x xs IH]; intros s Hall; simpl; [by eexists|].
  destruct (Hall x s) as [s' ->]; [apply list_elem_of_here|]. simpl.
  apply IH. intros y t Hy. apply Hall. by apply list_elem_of_further.
Qed.

Lemma for_each_mono {A S : Type} (xs : list A) (b1 b2 : A → S → option S) s r :
  (∀ x s r, x ∈ xs → b1 x s = Some r → b2 x s = Some r) →
  for_each xs b1 s = Some r → for_each xs b2 s = Some r.
Proof.
  revert s. induction xs as [|x xs IH]; intros s Hall; simpl; [done|].
  destruct (b1 x s) as [s'|] eqn:E; simpl; [|done].
  rewrite (Hall x s s') by (done || apply list_elem_of_here). simpl.
  apply IH. intros y t u Hy. apply Hall. by apply list_elem_of_further.
Qed.

Lemma find_paths_S fuel net start_op end_op visited :
  find_paths (S fuel) net start_op end_op visited =
  if decide (start_op = end_op) then Some [[start_op]]
  else
    for_each (outputConnectors net start_op) (λ connector paths,
      for_each (out_connections net connector) (λ connection paths,
        if decide (owner connection ∉ {[start_op]} ∪ visited) then
          sub_paths ← find_paths fuel net (owner connection) end_op
                        ({[start_op]} ∪ visited);
          Some (paths ++ ((λ path, start_op :: path) <$> sub_paths))
        else Some paths)
      paths)
    [].
Proof. reflexivity. Qed.

(** More fuel never changes what [find_paths] returns. *)
Lemma find_paths_mono net end_op fuel :
  ∀ start_op visited paths,
    find_paths fuel net start_op end_op visited = Some paths →
    find_paths (S fuel) net start_op end_op visited = Some paths.
Proof.
  induction fuel as [|fuel IH]; intros s visited paths; [done|].
  intros H. rewrite find_paths_S in H. rewrite (find_paths_S (S fuel)).
  destruct (decide (s = end_op)); [done|].
  revert H. apply for_each_mono. intros c acc r _.
  apply for_each_mono. intros k acc' r' _.
  destruct (decide (owner k ∉ {[s]} ∪ visited)); [|done].
  destruct (find_paths fuel net (owner k) end_op ({[s]} ∪ visited)) as [sub|] eqn:E;
    [|done].
  by rewrite (IH _ _ _ E).
Qed.

Lemma find_paths_mono_le net end_op fuel fuel' start_op visited paths :
  fuel ≤ fuel' →
  find_paths fuel net start_op end_op visited = Some paths →
  find_paths fuel' net start_op end_op visited = Some paths.
Proof.
  induction 1 as [|fuel' _ IH]; [done|]. intros H. by apply find_paths_mono, IH.
Qed.

(** Every recursive call adds an operator that some wire leads to and that
    was not visited before, so the nesting depth is bounded by the number
    of such operators. *)
Lemma find_paths_bounded net end_op n :
  ∀ start_op (visited : gset OP) fuel,
    size ((list_to_set (w_dst <$> wires net) : gset OP) ∖ ({[start_op]} ∪ visited)) ≤ n →
    n < fuel →
    is_Some (find_paths fuel net start_op end_op visited).
Proof.
  induction n as [|n IH]; intros s visited [|fuel] Hsize Hfuel; try lia;
    rewrite find_paths_S; (destruct (decide (s = end_op)); [by eexists|]);
    apply for_each_total; intros c acc Hc;
    apply for_each_total; intros k acc' Hk;
    (destruct (decide (owner k ∉ {[s]} ∪ visited)) as [Hnew|]; [|by eexists]);
    assert (owner k ∈ (list_to_set (w_dst <$> wires net) : gset OP)) as Htarget
      by (apply (consumers_finite net s), step_consumers; by exists c, k).
  - exfalso.
    assert (size ((list_to_set (w_dst <$> wires net) : gset OP)
                  ∖ ({[s]} ∪ visited)) = 0) as Hempty%size_empty_inv by lia.
    apply (not_elem_of_empty (C:=gset OP) (owner k)).
    apply Hempty. by apply elem_of_difference.
  - destruct (IH (owner k) ({[s]} ∪ visited) fuel) as [sub ->]; [|lia|by eexists].
    assert (size ((list_to_set (w_dst <$> wires net) : gset OP)
                  ∖ ({[owner k]} ∪ ({[s]} ∪ visited)))
            < size ((list_to_set (w_dst <$> wires net) : gset OP)
                    ∖ ({[s]} ∪ visited))); [|lia].
    apply subset_size. split.
    + intros x. rewrite !elem_of_difference, !elem_of_union. tauto.
    + intros Hsub. specialize (Hsub (owner k)).
      rewrite !elem_of_difference, !elem_of_union, !elem_of_singleton in Hsub.
      rewrite elem_of_union, elem_of_singleton in Hnew. tauto.
Qed.

(** [find_paths] returns on every network, cyclic or not. *)
Lemma find_paths_terminates net start_op end_op :
  ∃ paths fuel, ∀ fuel', fuel ≤ fuel' →
    find_paths fuel' net start_op end_op ∅ = Some paths.
Proof.
  set (n := size ((list_to_set (w_dst <$> wires net) : gset OP) ∖ ({[start_op]} ∪ ∅))).
  destruct (find_paths_bounded net end_op n start_op ∅ (S n)) as [paths Hp];
    [done|lia|].
  exists paths, (S n). intros fuel' Hle. by eapply find_paths_mono_le.
Qed.

Example find_paths_through_feedback :
  find_paths 4 feedback_network 0 2 ∅ = Some [[0; 1; 2]].
Proof. vm_compute. reflexivity. Qed.

(** C2 (as stated, refuted): on a feedback ring [get_downstream_ops] never
    returns, whatever the recursion depth allowed. *)
Lemma get_downstream_ops_feedback_ring :
  ¬ ∃ fuel, is_Some (get_downstream_ops fuel ring_network 0).
Proof.
  intros (fuel & l & Hl).
  rewrite (get_downstream_ops_diverges ring_network 0 0 fuel) in Hl; [done| |].
  - apply rtc_refl.
  - destruct ring_network_feeds as [H01 H10].
    eapply tc_l; [exact H01|]. by apply tc_once.
Qed.

(** C2 (amended): [find_paths] returns on every finite connection graph,
    cyclic ones included, because it never re-enters a visited operator;
    [get_downstream_ops] returns from every operator from which no cycle
    of output connections can be reached. *)
Theorem traversals_terminate net start_op end_op operator :
  (∃ paths fuel, ∀ fuel', fuel ≤ fuel' →
     find_paths fuel' net start_op end_op ∅ = Some paths) ∧
  ((∀ x, rtc (feeds net) operator x → ¬ tc (feeds net) x x) →
   ∃ downstream fuel, ∀ fuel', fuel ≤ fuel' →
     get_downstream_ops fuel' net operator = Some downstream).
Proof.
  split.
  - apply find_paths_terminates.
  - intros Hacyc.
    destruct (get_downstream_ops_exact net operator Hacyc) as (l & _ & _ & fuel & H).
    by exists l, fuel.
Qed.

Lemma traversals_terminate_witness :
  (∃ paths fuel, ∀ fuel', fuel ≤ fuel' →
     find_paths fuel' feedback_network 0 2 ∅ = Some paths) ∧
  (∃ downstream fuel, ∀ fuel', fuel ≤ fuel' →
     get_downstream_ops fuel' feedback_network 2 = Some downstream).
Proof.
  destruct (traversals_terminate feedback_network 0 2 2) as [Hpaths Hdown].
  split; [exact Hpaths|].
  apply Hdown, no_consumers_no_cycle. vm_compute. reflexivity.
Defined.

(** *** Strings *)

Lemma split_not_nil sep s : split sep s ≠ [].
Proof.
  destruct s as [|c s]; simpl; [done|].
  destruct (Ascii.eqb c sep); [done|]. by destruct (split sep s).
Qed.

Lemma split_no_sep sep s : has_char sep s = false → split sep s = [s].
Proof.
  induction s as [|c s IH]; simpl; [done|].
  intros [Hc Hs]%orb_false_iff. rewrite Hc, (IH Hs). done.
Qed.

Lemma split_app_sep sep a b :
  has_char sep a = false → split sep (a +:+ String sep b) = a :: split sep b.
Proof.
  induction a as [|c a IH]; simpl.
  - intros _. by rewrite Ascii.eqb_refl.
  - intros [Hc Ha]%orb_false_iff. rewrite Hc, (IH Ha). done.
Qed.

Lemma split_join names :
  Forall (λ s, has_char "/" s = false) names →
  split "/" (join "/" names) = match names with [] => [""] | _ => names end.
Proof.
  induction 1 as [|a names Ha Hnames IH]; [done|].
  destruct names as [|b names].
  - simpl. by apply split_no_sep.
  - change (join "/" (a :: b :: names))
      with (a +:+ String "/" (join "/" (b :: names))).
    rewrite split_app_sep by done. by rewrite IH.
Qed.

Lemma split_ups n t :
  split "/" (str_repeat "../" n +:+ t) = replicate n ".." ++ split "/" t.
Proof.
  induction n as [|n IH]; [done|].
  change (str_repeat "../" (S n) +:+ t)
    with (String "." (String "." (String "/" (str_repeat "../" n +:+ t)))).
  cbn [split Ascii.eqb Bool.eqb]. rewrite IH.
  pose proof (split_not_nil "/" t). by destruct (split "/" t).
Qed.

Lemma split_abs_path names :
  Forall valid_name names →
  split "/" (abs_path names) = "" :: match names with [] => [""] | _ => names end.
Proof.
  intros Hv. unfold abs_path.
  change ("/" +:+ join "/" names) with (String "/" (join "/" names)).
  cbn [split Ascii.eqb Bool.eqb]. rewrite split_join; [done|].
  eapply Forall_impl; [exact Hv|]. by intros s (_ & _ & ?).
Qed.

(** *** The common ancestor *)

Lemma lcp_spec xs ys : longest_common_prefix (lcp xs ys) xs ys.
Proof.
  unfold longest_common_prefix.
  revert ys. induction xs as [|x xs IH]; intros ys.
  - simpl. split_and!; [lia..|done|]. intros m Hm _ _. lia.
  - destruct ys as [|y ys].
    + simpl. split_and!; [lia..|done|]. intros m _ Hm _. lia.
    + simpl. destruct (decide (x = y)) as [->|Hne].
      * destruct (IH ys) as (H1 & H2 & H3 & H4).
        split_and!; [lia..|by rewrite !firstn_cons, H3|].
        intros [|m] Hx Hy Hm; [lia|].
        rewrite !firstn_cons in Hm. injection Hm as Hm.
        specialize (H4 m ltac:(lia) ltac:(lia) Hm). lia.
      * split_and!; [lia..|done|].
        intros [|m] _ _ Hm; [lia|]. rewrite !firstn_cons in Hm. congruence.
Qed.

Lemma common_loop_lcp from_parts to_parts n :
  ∀ i, i + n = length from_parts `min` length to_parts →
       common_loop from_parts to_parts (seq i n) i
       = i + lcp (drop i from_parts) (drop i to_parts).
Proof.
  induction n as [|n IH]; intros i Hi; simpl.
  - assert (drop i from_parts = [] ∨ drop i to_parts = []) as [->| ->].
    { destruct (decide (length from_parts ≤ length to_parts)).
      - left. apply drop_ge. lia.
      - right. apply drop_ge. lia. }
    + simpl. lia.
    + destruct (drop i from_parts); simpl; lia.
  - destruct (lookup_lt_is_Some_2 from_parts i) as [a Ha]; [lia|].
    destruct (lookup_lt_is_Some_2 to_parts i) as [b Hb]; [lia|].
    rewrite Ha, Hb.
    rewrite (drop_S from_parts a i Ha), (drop_S to_parts b i Hb). simpl.
    destruct (decide (a = b)); [|lia].
    replace (i + 1) with (S i) by lia. rewrite IH by lia. lia.
Qed.

Lemma common_ancestor_len_lcp from_parts to_parts :
  common_ancestor_len from_parts to_parts = lcp from_parts to_parts.
Proof.
  unfold common_ancestor_len. by rewrite (common_loop_lcp _ _ _ 0).
Qed.

Example common_ancestor_of_level1_and_target :
  get_relative_path "/project1/path_root/level1"
                    "/project1/path_root/level1/level2/target_noise"
  = "level2/target_noise".
Proof. vm_compute. reflexivity. Qed.

(** *** Resolving the relative path *)

Lemma leading_ups_replicate n rest :
  match rest with c :: _ => c ≠ ".." | [] => True end →
  leading_ups (replicate n ".." ++ rest) = n.
Proof.
  intros Hrest. induction n as [|n IH]; simpl.
  - destruct rest as [|c rest]; simpl; [done|]. by rewrite decide_False.
  - by rewrite IH.
Qed.

Lemma drop_replicate_app {A} n (x : A) rest :
  drop n (replicate n x ++ rest) = rest.
Proof. induction n; by simpl. Qed.

Lemma filter_valid_names names :
  Forall valid_name names → filter (λ s, s ≠ "") names = names.
Proof.
  induction 1 as [|a names (Ha & _) _ IH]; [done|].
  by rewrite filter_cons_True, IH.
Qed.

Lemma valid_name_slash_free names :
  Forall valid_name names → Forall (λ s, has_char "/" s = false) names.
Proof. intros Hv. eapply Forall_impl; [exact Hv|]. by intros s (_ & _ & ?). Qed.

(** The components that remain to descend, once split again, are free of
    parent markers and keep exactly the names. *)
Lemma descend_components names :
  Forall valid_name names →
  let components := split "/" (join "/" names) in
  match components with c :: _ => c ≠ ".." | [] => True end ∧
  filter (λ s, s ≠ "") components = names.
Proof.
  intros Hv. simpl. rewrite split_join by by apply valid_name_slash_free.
  destruct names as [|a names]; [done|].
  split; [|by apply filter_valid_names].
  by apply Forall_cons in Hv as [(_ & ? & _) _].
Qed.

(** The same when the components to descend are the whole tail of the
    root path, which splits into one empty component. *)
Lemma descend_root :
  let components := split "/" (join "/" [""]) in
  match components with c :: _ => c ≠ ".." | [] => True end ∧
  filter (λ s, s ≠ "") components = [].
Proof. by vm_compute. Qed.

Lemma resolve_from_components base rel ups rest names :
  split "/" rel = replicate ups ".." ++ rest →
  match rest with c :: _ => c ≠ ".." | [] => True end →
  filter (λ s, s ≠ "") rest = names →
  resolve_relative base rel
  = abs_path (take (length (path_names base) - ups) (path_names base) ++ names).
Proof.
  intros Hsplit Hhead Hnames. unfold resolve_relative.
  by rewrite Hsplit, leading_ups_replicate, drop_replicate_app, Hnames.
Qed.

Lemma path_names_abs_path names :
  Forall valid_name names → path_names (abs_path names) = names.
Proof.
  intros Hv. unfold path_names. rewrite split_abs_path by done.
  rewrite filter_cons_False by (intros H; by apply H).
  destruct names as [|a names]; [done|]. by apply filter_valid_names.
Qed.

Lemma get_relative_path_abs nf nt :
  Forall valid_name nf → Forall valid_name nt →
  let from_tail := match nf with [] => [""] | _ => nf end in
  let to_tail := match nt with [] => [""] | _ => nt end in
  let k := lcp from_tail to_tail in
  get_relative_path (abs_path nf) (abs_path nt)
  = str_repeat "../" (length from_tail - k) +:+ join "/" (drop k to_tail).
Proof.
  intros Hf Ht. unfold get_relative_path.
  rewrite !split_abs_path by done. rewrite common_ancestor_len_lcp.
  cbn [lcp]. by rewrite decide_True.
Qed.

(** Resolving the relative path against the path it was computed from
    leads to the target. *)
Lemma relative_path_resolves nf nt :
  Forall valid_name nf → Forall valid_name nt →
  resolve_relative (abs_path nf) (get_relative_path (abs_path nf) (abs_path nt))
  = abs_path nt.
Proof.
  intros Hf Ht. rewrite get_relative_path_abs by done.
  destruct nf as [|a nf], nt as [|b nt].
  - by vm_compute.
  - assert (b ≠ "") as Hb by by apply Forall_cons in Ht as [(? & _) _].
    cbn [lcp]. rewrite decide_False by done.
    erewrite resolve_from_components;
      [|apply split_ups|apply (descend_components (b :: nt) Ht)..].
    by rewrite path_names_abs_path.
  - assert (a ≠ "") as Ha by by apply Forall_cons in Hf as [(? & _) _].
    cbn [lcp]. rewrite decide_False by done.
    erewrite resolve_from_components;
      [|apply split_ups|apply descend_root..].
    rewrite path_names_abs_path by done.
    by rewrite Nat.sub_0_r, Nat.sub_diag.
  - set (k := lcp (a :: nf) (b :: nt)).
    destruct (lcp_spec (a :: nf) (b :: nt)) as (Hkf & Hkt & Htake & _).
    fold k in Hkf, Hkt, Htake.
    assert (Forall valid_name (drop k (b :: nt))) as Hrest by by apply Forall_drop.
    erewrite resolve_from_components;
      [|apply split_ups|apply (descend_components _ Hrest)..].
    rewrite path_names_abs_path by done.
    replace (length (a :: nf) - (length (a :: nf) - k)) with k by lia.
    by rewrite Htake, take_drop.
Qed.

Example resolve_level1_to_target :
  resolve_relative "/project1/path_root/level1"
    (get_relative_path "/project1/path_root/level1"
                       "/project1/path_root/level1/level2/target_noise")
  = "/project1/path_root/level1/level2/target_noise".
Proof. vm_compute. reflexivity. Qed.

(** The leading ["../"] segments of the relative path are as many as the
    names of [nf] below the common prefix. *)
Lemma relative_path_ups nf nt :
  Forall valid_name nf → Forall valid_name nt → nf ≠ [] →
  get_relative_path (abs_path nf) (abs_path nt)
  = str_repeat "../" (length nf - lcp nf nt) +:+ join "/" (drop (lcp nf nt) nt) ∧
  leading_ups (split "/" (get_relative_path (abs_path nf) (abs_path nt)))
  = length nf - lcp nf nt.
Proof.
  intros Hf Ht Hne. rewrite get_relative_path_abs by done.
  destruct nf as [|a nf]; [done|]. destruct nt as [|b nt].
  - assert (a ≠ "") as Ha by by apply Forall_cons in Hf as [(? & _) _].
    cbn [lcp]. rewrite decide_False by done. split; [done|].
    rewrite split_ups. apply leading_ups_replicate. by vm_compute.
  - split; [done|]. rewrite split_ups.
    assert (Forall valid_name (drop (lcp (a :: nf) (b :: nt)) (b :: nt))) as Hrest
      by by apply Forall_drop.
    apply leading_ups_replicate.
    apply (descend_components _ Hrest).
Qed.

(** The common prefix that [get_relative_path] computes on the components
    of the two paths is the leading empty component followed by the
    longest common prefix of the names. *)
Lemma common_ancestor_len_names nf nt :
  Forall valid_name nf → Forall valid_name nt → nf ≠ [] →
  common_ancestor_len (split "/" (abs_path nf)) (split "/" (abs_path nt))
  = S (lcp nf nt).
Proof.
  intros Hf Ht Hne. rewrite !split_abs_path by done.
  rewrite common_ancestor_len_lcp. cbn [lcp]. rewrite decide_True by done.
  destruct nf as [|a nf]; [done|]. destruct nt as [|b nt]; [|done].
  assert (a ≠ "") as Ha by by apply Forall_cons in Hf as [(? & _) _].
  cbn [lcp]. by rewrite decide_False by done.
Qed.

(** C8 (as stated, refuted): from the root, whose path splits into two
    empty components, the result starts with a ["../"] although the root
    has no path component to go up from: resolved one component up per
    ["../"] it leads nowhere, and it is not the path through the common
    ancestor, the root itself, from which the target is ["project1"].
    Only a resolution that stays at the root when asked to go above it
    reaches the target. *)
Lemma get_relative_path_from_root_overshoots :
  get_relative_path "/" "/project1" = "../project1" ∧
  path_names "/" = [] ∧
  leading_ups (split "/" (get_relative_path "/" "/project1")) = 1 ∧
  resolve_strict "/" (get_relative_path "/" "/project1") = None ∧
  resolve_strict "/" "project1" = Some "/project1" ∧
  resolve_relative "/" (get_relative_path "/" "/project1") = "/project1".
Proof. by vm_compute. Qed.

(** C8 (amended): for operators with absolute paths of which [from_op] is
    not the root, the common prefix that [get_relative_path(from_op,
    to_op)] computes is the longest common prefix of the components of the
    two paths: the leading empty component and the longest common prefix
    of the names below the root.  The result is one ["../"] for each name
    of [from_op]'s path below that prefix, followed by the names of
    [to_op]'s path after it joined by ["/"]; and resolving it against
    [from_op]'s path (one component up per leading ["../"], never above
    the root, then down along the rest) gives [to_op]'s path. *)
Theorem get_relative_path_round_trip nf nt :
  Forall valid_name nf → Forall valid_name nt → nf ≠ [] →
  ∃ k, longest_common_prefix k nf nt ∧
    common_ancestor_len (split "/" (abs_path nf)) (split "/" (abs_path nt)) = S k ∧
    longest_common_prefix (S k)
      (split "/" (abs_path nf)) (split "/" (abs_path nt)) ∧
    get_relative_path (abs_path nf) (abs_path nt)
    = str_repeat "../" (length nf - k) +:+ join "/" (drop k nt) ∧
    resolve_strict (abs_path nf) (get_relative_path (abs_path nf) (abs_path nt))
    = Some (abs_path nt).
Proof.
  intros Hf Ht Hne. exists (lcp nf nt).
  destruct (relative_path_ups nf nt Hf Ht Hne) as [Hshape Hups].
  pose proof (common_ancestor_len_names nf nt Hf Ht Hne) as Hlen.
  split_and!; [apply lcp_spec|done| |done|].
  - rewrite <- Hlen, common_ancestor_len_lcp. apply lcp_spec.
  - unfold resolve_strict. rewrite Hups, path_names_abs_path by done.
    rewrite decide_True by lia. by rewrite relative_path_resolves.
Qed.

Lemma get_relative_path_round_trip_witness :
  ∃ k, longest_common_prefix k ["project1"; "path_root"; "level1"]
         ["project1"; "path_root"; "other"; "target_noise"] ∧
    common_ancestor_len
      (split "/" (abs_path ["project1"; "path_root"; "level1"]))
      (split "/" (abs_path ["project1"; "path_root"; "other"; "target_noise"]))
    = S k ∧
    longest_common_prefix (S k)
      (split "/" (abs_path ["project1"; "path_root"; "level1"]))
      (split "/" (abs_path ["project1"; "path_root"; "other"; "target_noise"])) ∧
    get_relative_path (abs_path ["project1"; "path_root"; "level1"])
                      (abs_path ["project1"; "path_root"; "other"; "target_noise"])
    = str_repeat "../" (length ["project1"; "path_root"; "level1"] - k)
      +:+ join "/" (drop k ["project1"; "path_root"; "other"; "target_noise"]) ∧
    resolve_strict (abs_path ["project1"; "path_root"; "level1"])
      (get_relative_path (abs_path ["project1"; "path_root"; "level1"])
         (abs_path ["project1"; "path_root"; "other"; "target_noise"]))
    = Some (abs_path ["project1"; "path_root"; "other"; "target_noise"]).
Proof.
  apply (get_relative_path_round_trip
           ["project1"; "path_root"; "level1"]
           ["project1"; "path_root"; "other"; "target_noise"]).
  - by vm_compute; repeat constructor.
  - by vm_compute; repeat constructor.
  - done.
Defined.

Example relative_path_to_sibling_branch :
  get_relative_path "/project1/path_root/level1"
                    "/project1/path_root/other/target_noise"
  = "../other/target_noise".
Proof. vm_compute. reflexivity. Qed.

End NavigationFacts.

(** ** Facts about performance_optimization_examples.py *)

Module PerformanceFacts.
Import Host Performance.

Lemma pop_snoc {A} (l : list A) x : pop (l ++ [x]) = Some (x, l).
Proof. unfold pop. by rewrite reverse_snoc, reverse_involutive. Qed.

Lemma pop_Some {A} (l : list A) x rest : pop l = Some (x, rest) → l = rest ++ [x].
Proof.
  destruct l as [|y l _] using rev_ind; [done|].
  rewrite pop_snoc. by intros [= -> ->].
Qed.

Lemma pop_None {A} (l : list A) : pop l = None ↔ l = [].
Proof.
  destruct l as [|y l _] using rev_ind; [done|].
  rewrite pop_snoc. split; [done|]. by intros [_ ?]%app_eq_nil.
Qed.

Lemma remove_first_perm x l : x ∈ l → l ≡ₚ x :: remove_first x l.
Proof.
  induction l as [|y l IH]; [by intros ?%elem_of_nil|].
  simpl. destruct (decide (x = y)) as [->|Hne]; [done|].
  intros [?|Hx]%elem_of_cons; [done|].
  rewrite (IH Hx) at 1. apply Permutation_swap.
Qed.

Lemma dom_set_nodeX o v (proj : Project) : dom (set_nodeX o v proj) = dom proj.
Proof. apply dom_alter_L. Qed.

Lemma dom_set_nodeY o v (proj : Project) : dom (set_nodeY o v proj) = dom proj.
Proof. apply dom_alter_L. Qed.

Lemma dom_set_bypass o v (proj : Project) : dom (set_bypass o v proj) = dom proj.
Proof. apply dom_alter_L. Qed.

Lemma create_fresh (proj : Project) ty nm :
  let created := create proj ty nm in
  (fst created ∉ dom proj) ∧ dom (snd created) = {[fst created]} ∪ dom proj.
Proof.
  unfold create. simpl. split; [apply is_fresh|apply dom_insert_L].
Qed.

(** The pre-creation loop appends one new operator per index, all
    distinct and none of them known to the project before. *)
Lemma precreate_spec ty prefix indices :
  ∀ (proj : Project) avail,
    ∃ created,
      (precreate proj ty prefix indices avail).2 = avail ++ created ∧
      length created = length indices ∧
      NoDup created ∧
      (∀ o, o ∈ created → o ∉ dom proj) ∧
      dom (precreate proj ty prefix indices avail).1
      = list_to_set created ∪ dom proj.
Proof.
  induction indices as [|i indices IH]; intros proj avail.
  - exists []. simpl. rewrite app_nil_r. split_and!; [done..|constructor| |].
    + by intros o ?%elem_of_nil.
    + by rewrite (left_id_L ∅ (∪)).
  - cbn [precreate].
    destruct (create proj ty (prefix +:+ "_" +:+ pretty i)) as [o proj1] eqn:Hc.
    pose proof (create_fresh proj ty (prefix +:+ "_" +:+ pretty i)) as [Hfresh Hdom].
    rewrite Hc in Hfresh, Hdom. simpl in Hfresh, Hdom.
    set (proj2 := set_bypass o true (set_nodeY o (-1000) (set_nodeX o (-1000) proj1))).
    assert (dom proj2 = {[o]} ∪ dom proj) as Hdom2.
    { unfold proj2. by rewrite dom_set_bypass, dom_set_nodeY, dom_set_nodeX. }
    destruct (IH proj2 (avail ++ [o])) as (created & Havail & Hlen & Hnd & Hnew & Hd).
    exists (o :: created). rewrite Havail, Hd, Hdom2. split_and!.
    + by rewrite <- app_assoc.
    + simpl. by rewrite Hlen.
    + constructor; [|done]. intros Ho%Hnew. rewrite Hdom2 in Ho.
      apply Ho, elem_of_union_l. by apply elem_of_singleton.
    + intros x [->|Hx%Hnew]%elem_of_cons; [done|]. rewrite Hdom2 in Hx.
      intros Hold. by apply Hx, elem_of_union_r.
    + apply set_eq. intros x.
      rewrite list_to_set_cons, !elem_of_union. tauto.
Qed.

(** What the pool's two lists hold, taken together, never changes. *)
Lemma acquire_keeps_operators proj pool :
  let '(_, _, pool') := acquire proj pool in
  available pool' ++ in_use pool' ≡ₚ available pool ++ in_use pool ∧
  pool_size pool' = pool_size pool.
Proof.
  unfold acquire. destruct (pop (available pool)) as [[o avail]|] eqn:Hpop; [|done].
  apply pop_Some in Hpop. simpl. rewrite Hpop. split; [|done].
  rewrite <- !app_assoc. apply Permutation_app_head, Permutation_app_comm.
Qed.

Lemma release_keeps_operators proj pool op_obj :
  available (release proj pool op_obj).2 ++ in_use (release proj pool op_obj).2
  ≡ₚ available pool ++ in_use pool ∧
  pool_size (release proj pool op_obj).2 = pool_size pool.
Proof.
  unfold release. destruct (decide (op_obj ∈ in_use pool)) as [Hin|]; [|done].
  simpl. split; [|done]. rewrite (remove_first_perm op_obj (in_use pool) Hin) at 2.
  rewrite <- app_assoc. apply Permutation_app_head. done.
Qed.

Lemma run_keeps_operators calls :
  ∀ st, available (run calls st).2 ++ in_use (run calls st).2
        ≡ₚ available st.2 ++ in_use st.2 ∧
        pool_size (run calls st).2 = pool_size st.2.
Proof.
  unfold run. induction calls as [|c calls IH]; intros st; [done|].
  cbn [foldl]. destruct (IH (do_call st c)) as [-> ->].
  destruct c as [|op_obj]; simpl.
  - pose proof (acquire_keeps_operators st.1 st.2) as H.
    by destruct (acquire st.1 st.2) as [[r proj'] pool'].
  - apply release_keeps_operators.
Qed.

Lemma new_pool_spec proj ty size prefix :
  let pool := (new_pool proj ty size prefix).2 in
  NoDup (available pool) ∧
  length (available pool) = Z.to_nat size ∧
  in_use pool = [] ∧
  pool_size pool = size.
Proof.
  unfold new_pool.
  destruct (precreate_spec ty prefix (seq 0 (Z.to_nat size)) proj [])
    as (created & Havail & Hlen & Hnd & _).
  destruct (precreate proj ty prefix (seq 0 (Z.to_nat size)) []) as [proj' avail].
  simpl in *. subst avail. by rewrite Hlen, length_seq.
Qed.

Example pool_of_five_after_three_acquires :
  let st := run [Acquire; Acquire; Acquire] (new_pool ∅ noiseTOP 5 "pool") in
  available st.2 = [0; 1] ∧ in_use st.2 = [4; 3; 2].
Proof. by vm_compute. Qed.

Example pool_of_five_operator_names :
  name <$> ((new_pool ∅ noiseTOP 5 "pool").1 !! 3) = Some "pool_3".
Proof. by vm_compute. Qed.

(** C4: after construction with [pool_size] operators and any sequence of
    [acquire()] and [release()] calls, every pooled operator is in exactly
    one of [available] and [in_use], nothing else is in them, their
    lengths add up to [pool_size], and [acquire()] on an empty
    [available] returns [None] and creates nothing. *)
Theorem pool_never_exceeds_size proj ty size prefix calls :
  (0 ≤ size)%Z →
  let st0 := new_pool proj ty size prefix in
  let st := run calls st0 in
  let pooled := available (snd st0) in
  let pool := snd st in
  (∀ o, o ∈ pooled →
        (o ∈ available pool ∧ o ∉ in_use pool) ∨
        ((o ∉ available pool) ∧ o ∈ in_use pool)) ∧
  NoDup (available pool ++ in_use pool) ∧
  (∀ o, o ∈ available pool ++ in_use pool → o ∈ pooled) ∧
  Z.of_nat (length (available pool) + length (in_use pool)) = pool_size pool ∧
  pool_size pool = size ∧
  (available pool = [] → acquire (fst st) pool = (None, fst st, pool)).
Proof.
  intros Hsize st0 st pooled pool.
  destruct (new_pool_spec proj ty size prefix) as (Hnd & Hlen & Huse & Hps).
  fold st0 in Hnd, Hlen, Huse, Hps. fold pooled in Hnd, Hlen.
  destruct (run_keeps_operators calls st0) as [Hperm Hsame].
  fold st in Hperm, Hsame. fold pool in Hperm, Hsame.
  rewrite Huse, app_nil_r in Hperm. fold pooled in Hperm.
  assert (NoDup (available pool ++ in_use pool)) as Hnd' by by rewrite Hperm.
  split_and!.
  - intros o Ho. rewrite <- Hperm in Ho.
    apply NoDup_app in Hnd' as (_ & Hdisj & _).
    apply elem_of_app in Ho as [Ho|Ho].
    + left. split; [done|]. by apply Hdisj.
    + right. split; [|done]. intros Ha. by apply (Hdisj o).
  - done.
  - intros o Ho. by rewrite <- Hperm.
  - rewrite <- length_app, Hperm, Hlen, Hsame, Hps. lia.
  - by rewrite Hsame.
  - intros Hempty. unfold acquire. by rewrite Hempty.
Qed.

Lemma pool_never_exceeds_size_witness :
  let st0 := new_pool ∅ noiseTOP 5 "pool" in
  let st := run [Acquire; Acquire; Acquire; Release 4; Release 3; Release 2;
                 Release 7; Acquire] st0 in
  let pooled := available (snd st0) in
  let pool := snd st in
  (∀ o, o ∈ pooled →
        (o ∈ available pool ∧ o ∉ in_use pool) ∨
        ((o ∉ available pool) ∧ o ∈ in_use pool)) ∧
  NoDup (available pool ++ in_use pool) ∧
  (∀ o, o ∈ available pool ++ in_use pool → o ∈ pooled) ∧
  Z.of_nat (length (available pool) + length (in_use pool)) = pool_size pool ∧
  pool_size pool = 5%Z ∧
  (available pool = [] → acquire (fst st) pool = (None, fst st, pool)).
Proof.
  apply (pool_never_exceeds_size ∅ noiseTOP 5 "pool"
           [Acquire; Acquire; Acquire; Release 4; Release 3; Release 2;
            Release 7; Acquire]).
  lia.
Defined.

End PerformanceFacts.

(** ** Facts about error_handling_examples.py *)

Module ErrorHandlingFacts.
Import Host ErrorHandling.

Section Wrappers.
Context {H Value : Type} (api : HostAPI H Value).

Lemma safe_operator_creation_failure parent op_type name w e h :
  h_create api parent op_type name (host w) = (Raise e, h) →
  safe_operator_creation api parent op_type name w
  = (Ok None, printed w h ("Failed to create " +:+ name +:+ ": " +:+ exn_msg e)).
Proof.
  intros Hc. unfold safe_operator_creation, try_except, mbind, M_bind, bind, host_call.
  by rewrite Hc.
Qed.

Lemma safe_op_access_failure path w e h :
  h_op api path (host w) = (Raise e, h) →
  safe_op_access api path w
  = (Ok None,
     printed w h ("Error accessing operator at '" +:+ path +:+ "': " +:+ exn_msg e)).
Proof.
  intros Hc. unfold safe_op_access, try_except, mbind, M_bind, bind, host_call.
  by rewrite Hc.
Qed.

Lemma safe_parameter_set_failure o param_name value w e h :
  h_has_par api o param_name (host w) = true →
  h_read_only api o param_name (host w) = false →
  h_set_val api o param_name value (host w) = (Raise e, h) →
  ∃ line, safe_parameter_set api (Some o) param_name value w
          = (Ok false, printed w h line).
Proof.
  intros Hhas Hro Hset.
  unfold safe_parameter_set, try_except, mbind, M_bind, bind, host_call.
  rewrite Hhas. simpl. rewrite Hro, Hset.
  destruct (exn_class e); by eexists.
Qed.

Lemma ctx_enter_failure self w e h :
  h_create api (ctx_parent self) (ctx_op_type self) (ctx_name self) (host w)
  = (Raise e, h) →
  ctx_enter api self w
  = (Raise e,
     printed w h ("Failed to create operator in context: " +:+ exn_msg e)).
Proof.
  intros Hc. unfold ctx_enter, try_except, mbind, M_bind, bind, host_call.
  by rewrite Hc.
Qed.

Lemma ctx_exit_never_suppresses self exc w :
  ∃ w', ctx_exit api self exc w = (Ok false, w').
Proof.
  unfold ctx_exit. destruct exc as [e|], (ctx_operator self) as [o|];
    try (by eexists).
  unfold try_except, mbind, M_bind, bind, host_call, print, ret.
  destruct (h_destroy api o (host w)) as [[[]|e'] h]; by eexists.
Qed.

Lemma debug_operation_failure {A} func_name call_repr (func : M H A) w e w' :
  func (logger_info api ("Calling " +:+ func_name +:+ " with " +:+ call_repr) w).2
  = (Raise e, w') →
  debug_operation api func_name call_repr func w
  = (Raise e, (logger_error api (func_name +:+ " failed: " +:+ exn_msg e) w').2).
Proof.
  intros Hf. unfold debug_operation, try_except, mbind, M_bind, bind.
  unfold logger_info, logger_error, logger_log in *. simpl in *.
  by rewrite Hf.
Qed.

End Wrappers.

Section State.
Context {Value : Type}.
Implicit Types (ps : gmap string (Par Value)) (saved : gmap string Value).

Lemma save_parameters_fold (l : list (string * Par Value)) :
  ∀ saved par_name,
    NoDup l.*1 →
    foldl (λ parameters '(n, p),
             match par_eval p with
             | Some v => <[n := v]> parameters
             | None => parameters
             end) saved l !! par_name
    = match list_to_map (M:=gmap string (Par Value)) l !! par_name with
      | Some p => match par_eval p with
                  | Some v => Some v
                  | None => saved !! par_name
                  end
      | None => saved !! par_name
      end.
Proof.
  induction l as [|[n p] l IH]; intros saved par_name Hnd; [done|].
  apply NoDup_cons in Hnd as [Hn Hnd]. cbn [foldl list_to_map foldr].
  rewrite IH by done. simpl.
  destruct (decide (n = par_name)) as [->|Hne].
  - rewrite lookup_insert_eq.
    rewrite (not_elem_of_list_to_map_1 _ par_name) by done.
    destruct (par_eval p); [by rewrite lookup_insert_eq|done].
  - rewrite lookup_insert_ne by done.
    destruct (list_to_map l !! par_name) as [q|];
      destruct (par_eval p); rewrite ?lookup_insert_ne by done; done.
Qed.

(** The saved dictionary holds exactly the parameters that evaluate. *)
Lemma save_parameters_lookup ps par_name :
  save_parameters ps !! par_name = ps !! par_name ≫= par_eval.
Proof.
  unfold save_parameters.
  rewrite save_parameters_fold by apply NoDup_fst_map_to_list.
  rewrite list_to_map_to_list, lookup_empty.
  destruct (ps !! par_name) as [p|]; [|done]. simpl. by destruct (par_eval p).
Qed.

Lemma restore_parameter_other ps entry par_name :
  entry.1 ≠ par_name → restore_parameter ps entry !! par_name = ps !! par_name.
Proof.
  destruct entry as [n v]. simpl. intros Hne.
  destruct (ps !! n) as [p|]; [|done].
  destruct (par_read_only p); [done|]. by rewrite lookup_insert_ne.
Qed.

Lemma restore_untouched (l : list (string * Value)) :
  ∀ ps par_name,
    par_name ∉ l.*1 → foldl restore_parameter ps l !! par_name = ps !! par_name.
Proof.
  induction l as [|[n v] l IH]; intros ps par_name Hn; [done|].
  apply not_elem_of_cons in Hn as [Hne Hn]. cbn [foldl].
  rewrite IH by done. by apply restore_parameter_other.
Qed.

(** A saved parameter that is present and can be assigned ends up with
    its saved value. *)
Lemma restore_assigns (l : list (string * Value)) :
  ∀ ps par_name v q,
    NoDup l.*1 → (par_name, v) ∈ l →
    ps !! par_name = Some q → par_read_only q = false →
    foldl restore_parameter ps l !! par_name
    = Some {| par_eval := Some v; par_read_only := false |}.
Proof.
  induction l as [|[n u] l IH]; intros ps par_name v q Hnd Hin Hq Hro;
    [by apply elem_of_nil in Hin|].
  apply NoDup_cons in Hnd as [Hn Hnd]. cbn [foldl].
  apply elem_of_cons in Hin as [[= <- <-]|Hin].
  - rewrite restore_untouched by done. simpl.
    rewrite Hq, Hro. apply lookup_insert_eq.
  - assert (n ≠ par_name) as Hne.
    { intros ->. apply Hn, list_elem_of_fmap. by exists (par_name, v). }
    apply (IH _ _ _ q); [done..| |done].
    by rewrite restore_parameter_other.
Qed.

End State.

(** C5 (as stated, refuted): the wrapper made by [debug_operation] does not
    return [None] or [False] when the wrapped call raises; it logs and
    hands the same exception on to its caller. *)
Lemma debug_operation_reraises :
  (debug_operation failing_api "test_function" "args: (10, 0), kwargs: {}"
     failing_call empty_world).1
  = Raise division_by_zero.
Proof. reflexivity. Qed.

Example operator_context_reraises :
  (ctx_enter failing_api
     {| ctx_parent := 0; ctx_op_type := "constantTOP"; ctx_name := "context_test";
        ctx_operator := None |} empty_world).1
  = Raise (host_error "name already in use").
Proof. reflexivity. Qed.

(** C5 (amended): each wrapper, whenever the host call it guards raises
    and whatever the other host calls do: [safe_operator_creation] and
    [safe_op_access] print one message and return [None], and
    [safe_parameter_set] prints one message and returns [False], none of
    them re-raising; [OperatorContext.__enter__] prints one message and
    re-raises the exception; [OperatorContext.__exit__] returns [False] in
    every case and so suppresses nothing; and the wrapper made by
    [debug_operation] logs the failure and re-raises the exception. *)
Theorem wrappers_failure_contract {H Value A : Type} (api : HostAPI H Value)
    (w : World H) (parent : OP) (op_type name path : string) (o : OP)
    (param_name : string) (value : Value) (func : M H A)
    (func_name call_repr : string) :
  (∀ e h, h_create api parent op_type name (host w) = (Raise e, h) →
     safe_operator_creation api parent op_type name w
     = (Ok None,
        printed w h ("Failed to create " +:+ name +:+ ": " +:+ exn_msg e))) ∧
  (∀ e h, h_op api path (host w) = (Raise e, h) →
     safe_op_access api path w
     = (Ok None,
        printed w h ("Error accessing operator at '" +:+ path +:+ "': "
                     +:+ exn_msg e))) ∧
  (∀ e h, h_has_par api o param_name (host w) = true →
     h_read_only api o param_name (host w) = false →
     h_set_val api o param_name value (host w) = (Raise e, h) →
     ∃ line, safe_parameter_set api (Some o) param_name value w
             = (Ok false, printed w h line)) ∧
  (∀ e h, h_create api parent op_type name (host w) = (Raise e, h) →
     ctx_enter api {| ctx_parent := parent; ctx_op_type := op_type;
                      ctx_name := name; ctx_operator := None |} w
     = (Raise e,
        printed w h ("Failed to create operator in context: " +:+ exn_msg e))) ∧
  (∀ self exc w0, ∃ w', ctx_exit api self exc w0 = (Ok false, w')) ∧
  (∀ e wf,
     func (logger_info api ("Calling " +:+ func_name +:+ " with " +:+ call_repr) w).2
     = (Raise e, wf) →
     debug_operation api func_name call_repr func w
     = (Raise e, (logger_error api (func_name +:+ " failed: " +:+ exn_msg e) wf).2)).
Proof.
  split_and!.
  - intros e h Hcreate. by apply safe_operator_creation_failure.
  - intros e h Hop. by apply safe_op_access_failure.
  - intros e h Hhas Hro Hset.
    by apply (safe_parameter_set_failure api o param_name value w e h).
  - intros e h Hcreate. by apply ctx_enter_failure.
  - intros self exc w0. apply ctx_exit_never_suppresses.
  - intros e wf Hfunc. by apply debug_operation_failure.
Qed.

Lemma wrappers_failure_contract_witness :
  safe_operator_creation failing_api 0 "noiseTOP" "error_test_noise" empty_world
  = (Ok None,
     printed empty_world ()
       ("Failed to create error_test_noise: " +:+ "name already in use")) ∧
  safe_op_access failing_api "/invalid/path" empty_world
  = (Ok None,
     printed empty_world ()
       ("Error accessing operator at '/invalid/path': " +:+ "invalid path")) ∧
  (∃ line, safe_parameter_set failing_api (Some 1) "period" 10%Z empty_world
           = (Ok false, printed empty_world () line)) ∧
  ctx_enter failing_api {| ctx_parent := 0; ctx_op_type := "noiseTOP";
                           ctx_name := "error_test_noise";
                           ctx_operator := None |} empty_world
  = (Raise (host_error "name already in use"),
     printed empty_world ()
       ("Failed to create operator in context: " +:+ "name already in use")) ∧
  debug_operation failing_api "test_function" "args: (10, 0), kwargs: {}"
    failing_call empty_world
  = (Raise division_by_zero,
     (logger_error failing_api ("test_function" +:+ " failed: " +:+ "Division by zero")
        (logger_info failing_api
           ("Calling " +:+ "test_function" +:+ " with " +:+ "args: (10, 0), kwargs: {}")
           empty_world).2).2).
Proof.
  destruct (wrappers_failure_contract failing_api empty_world 0 "noiseTOP"
              "error_test_noise" "/invalid/path" 1 "period" 10%Z failing_call
              "test_function" "args: (10, 0), kwargs: {}")
    as (Hcreate & Hop & Hset & Henter & _ & Hdebug).
  split_and!.
  - exact (Hcreate (host_error "name already in use") () eq_refl).
  - exact (Hop (host_error "invalid path") () eq_refl).
  - exact (Hset (host_error "value not accepted") () eq_refl eq_refl eq_refl).
  - exact (Henter (host_error "name already in use") () eq_refl).
  - exact (Hdebug division_by_zero _ eq_refl).
Defined.

Example restore_fallback_test :
  restore_operator_state (save_operator_state ∅ (Some fallback_saved))
                         (Some fallback_changed)
  = (true, Some fallback_saved).
Proof. by vm_compute. Qed.

(** C9: after [save_operator_state(operator)], a later
    [restore_operator_state] on an operator with the same path, on which
    every captured parameter is still present and can be assigned, returns
    [True] and leaves [nodeX], [nodeY] and every captured parameter at the
    saved value, whatever they were changed to in between. *)
Theorem save_then_restore {Value : Type}
    (state state' : gmap string (OpState Value))
    (operator later : Operator Value) :
  path later = path operator →
  state' !! path operator
  = save_operator_state state (Some operator) !! path operator →
  (∀ par_name p v,
     pars operator !! par_name = Some p → par_eval p = Some v →
     ∃ q, pars later !! par_name = Some q ∧ par_read_only q = false) →
  ∃ restored,
    restore_operator_state state' (Some later) = (true, Some restored) ∧
    nodeX restored = nodeX operator ∧
    nodeY restored = nodeY operator ∧
    ∀ par_name p v,
      pars operator !! par_name = Some p → par_eval p = Some v →
      ∃ q, pars restored !! par_name = Some q ∧ par_eval q = Some v.
Proof.
  intros Hpath Hkept Hsettable. unfold restore_operator_state.
  rewrite Hpath, Hkept. unfold save_operator_state. rewrite lookup_insert_eq.
  eexists. split; [reflexivity|]. simpl. split_and!; [done..|].
  intros par_name p v Hp Hv.
  destruct (Hsettable par_name p v Hp Hv) as (q & Hq & Hro).
  exists {| par_eval := Some v; par_read_only := false |}. split; [|done].
  apply (restore_assigns _ _ _ _ q); [apply NoDup_fst_map_to_list| |done..].
  apply elem_of_map_to_list. rewrite save_parameters_lookup, Hp. done.
Qed.

Lemma save_then_restore_witness :
  ∃ restored,
    restore_operator_state (save_operator_state ∅ (Some fallback_saved))
                           (Some fallback_changed)
    = (true, Some restored) ∧
    nodeX restored = nodeX fallback_saved ∧
    nodeY restored = nodeY fallback_saved ∧
    ∀ par_name p v,
      pars fallback_saved !! par_name = Some p → par_eval p = Some v →
      ∃ q, pars restored !! par_name = Some q ∧ par_eval q = Some v.
Proof.
  apply (save_then_restore ∅ (save_operator_state ∅ (Some fallback_saved))
           fallback_saved fallback_changed).
  - reflexivity.
  - reflexivity.
  - intros par_name p v Hp Hv.
    destruct (decide (par_name = "period")) as [->|];
      [eexists; split; [vm_compute; reflexivity|reflexivity]|].
    destruct (decide (par_name = "seed")) as [->|];
      [eexists; split; [vm_compute; reflexivity|reflexivity]|].
    destruct (decide (par_name = "cooktime")) as [->|].
    + vm_compute in Hp. injection Hp as <-. discriminate Hv.
    + exfalso. unfold fallback_saved in Hp. simpl in Hp.
      by rewrite !lookup_insert_ne, lookup_singleton_ne in Hp.
Defined.

End ErrorHandlingFacts.

(** ** Facts about the scripts *)

Module ScriptsFacts.
Import Host Scripts.

Lemma triple_bind {A B} P (m : Script A) Q (k : A → Script B) R :
  triple P m Q → (∀ a, triple (Q a) (k a) R) → triple P (m ≫= k) R.
Proof.
  intros Hm Hk p Hp. unfold mbind, Script_bind.
  specialize (Hm p Hp). destruct (m p) as [a p']. by apply Hk.
Qed.

Lemma triple_ret {A} (P : A → Project → Prop) (a : A) :
  triple (P a) (mret a) P.
Proof. by intros p Hp. Qed.

Section Built.
Variables (root : OP) (p0 : Project).

Lemma built_same_ops p p' :
  ops p' = ops p → built_under root p0 p → built_under root p0 p'.
Proof. unfold built_under. by intros ->. Qed.

(** Changing attributes other than the type and the parent keeps the
    network rooted where it is. *)
Lemma update_keeps o f :
  (∀ r, op_type (f r) = op_type r ∧ parent (f r) = parent r) →
  triple (built_under root p0) (update o f) (λ _, built_under root p0).
Proof.
  intros Hf p (Hnew & (r & Hr & Hty & Hpar) & Hin).
  unfold update, with_ops, built_under. simpl.
  split_and!; [done| |].
  - destruct (decide (o = root)) as [->|Hne].
    + exists (f r). rewrite lookup_alter_eq, Hr. simpl.
      destruct (Hf r) as [-> ->]. done.
    + exists r. by rewrite lookup_alter_ne.
  - intros o' r'. destruct (decide (o = o')) as [->|Hne].
    + rewrite lookup_alter_eq.
      destruct (ops p !! o') as [r0|] eqn:E; simpl; [|done].
      intros [= <-]. destruct (Hf r0) as [_ ->]. by apply Hin.
    + rewrite lookup_alter_ne by done. apply Hin.
Qed.

Lemma set_nodeX_keeps o v :
  triple (built_under root p0) (set_nodeX o v) (λ _, built_under root p0).
Proof. by apply update_keeps. Qed.

Lemma set_nodeY_keeps o v :
  triple (built_under root p0) (set_nodeY o v) (λ _, built_under root p0).
Proof. by apply update_keeps. Qed.

Lemma set_par_keeps o k v :
  triple (built_under root p0) (set_par o k v) (λ _, built_under root p0).
Proof. by apply update_keeps. Qed.

Lemma set_expr_keeps o k e :
  triple (built_under root p0) (set_expr o k e) (λ _, built_under root p0).
Proof. by apply update_keeps. Qed.

Lemma append_par_keeps page cp :
  triple (built_under root p0) (append_par page cp) (λ _, built_under root p0).
Proof. by apply update_keeps. Qed.

Lemma appendFloat_keeps page nm label size default lo hi :
  triple (built_under root p0) (appendFloat page nm label size default lo hi)
         (λ _, built_under root p0).
Proof. apply append_par_keeps. Qed.

Lemma appendInt_keeps page nm label size default lo hi :
  triple (built_under root p0) (appendInt page nm label size default lo hi)
         (λ _, built_under root p0).
Proof. apply append_par_keeps. Qed.

Lemma appendXYZ_keeps page nm label default :
  triple (built_under root p0) (appendXYZ page nm label default)
         (λ _, built_under root p0).
Proof. apply append_par_keeps. Qed.

Lemma appendRGB_keeps page nm label default :
  triple (built_under root p0) (appendRGB page nm label default)
         (λ _, built_under root p0).
Proof. apply append_par_keeps. Qed.

Lemma appendCustomPage_keeps o title :
  triple (built_under root p0) (appendCustomPage o title)
         (λ _, built_under root p0).
Proof.
  intros p Hp.
  apply (update_keeps o
           (λ r, {| op_type := op_type r; name := name r; path := path r;
                    parent := parent r; nodeX := nodeX r; nodeY := nodeY r;
                    par := par r; pages := pages r ++ [(title, [])] |}));
    done.
Qed.

Lemma connect_input_keeps target i source :
  triple (built_under root p0) (connect_input target i source)
         (λ _, built_under root p0).
Proof. intros p Hp. by eapply built_same_ops. Qed.

Lemma connect_output_keeps source j target :
  triple (built_under root p0) (connect_output source j target)
         (λ _, built_under root p0).
Proof. intros p Hp. by eapply built_same_ops. Qed.

Lemma print_keeps line :
  triple (built_under root p0) (print line) (λ _, built_under root p0).
Proof. intros p Hp. by eapply built_same_ops. Qed.

Lemma get_path_keeps o :
  triple (built_under root p0) (get_path o) (λ _, built_under root p0).
Proof. by intros p Hp. Qed.

(** Creating an operator inside the root extends the network. *)
Lemma create_child_keeps ty nm :
  triple (built_under root p0) (create root ty nm) (λ _, built_under root p0).
Proof.
  intros p (Hnew & (r & Hr & Hty & Hpar) & Hin).
  unfold create, with_ops, built_under. simpl.
  assert (fresh (dom (ops p)) ≠ root) as Hne.
  { intros E. apply (is_fresh (dom (ops p))). rewrite E.
    apply elem_of_dom. by eexists. }
  split_and!; [done| |].
  - exists r. by rewrite lookup_insert_ne.
  - intros o r'. destruct (decide (fresh (dom (ops p)) = o)) as [<-|Hne'].
    + rewrite lookup_insert_eq. intros [= <-]. simpl. by right; right.
    + rewrite lookup_insert_ne by done. apply Hin.
Qed.

End Built.

(** Creating a container in [/project1] starts a network rooted there. *)
Lemma create_root p0 nm :
  triple (λ p, p = p0) (create project1 "containerCOMP" nm)
         (λ root p, built_under root p0 p).
Proof.
  intros p ->. unfold create, with_ops, built_under. simpl. split_and!.
  - apply is_fresh.
  - eexists. by rewrite lookup_insert_eq.
  - intros o r. destruct (decide (fresh (dom (ops p0)) = o)) as [<-|Hne].
    + by right; left.
    + rewrite lookup_insert_ne by done. intros Ho. left.
      apply elem_of_dom. by eexists.
Qed.

Create HintDb scripts.

#[local] Hint Resolve set_nodeX_keeps set_nodeY_keeps set_par_keeps set_expr_keeps
  appendFloat_keeps appendInt_keeps appendXYZ_keeps appendRGB_keeps
  appendCustomPage_keeps connect_input_keeps connect_output_keeps
  print_keeps get_path_keeps create_child_keeps : scripts.

Ltac script_steps :=
  repeat (eapply triple_bind; [solve [auto with scripts]|intros ?]).

Lemma create_audio_reactive_system_builds p0 :
  triple (λ p, p = p0) create_audio_reactive_system
         (λ root p, built_under root p0 p).
Proof.
  unfold create_audio_reactive_system.
  eapply triple_bind; [apply create_root|intros base].
  script_steps. apply (triple_ret (λ root p, built_under root p0 p) base).
Qed.

Lemma create_particle_system_builds p0 :
  triple (λ p, p = p0) create_particle_system
         (λ root p, built_under root p0 p).
Proof.
  unfold create_particle_system.
  eapply triple_bind; [apply create_root|intros base].
  script_steps. apply (triple_ret (λ root p, built_under root p0 p) base).
Qed.

Lemma triple_any {A} (m : Script A) :
  triple (λ _, True) m (λ _ _, True).
Proof. by intros p _. Qed.

Lemma create_as parent_op ty nm :
  triple (λ _, True) (create parent_op ty nm)
         (λ o p, created_as o ty parent_op p).
Proof.
  intros p _. unfold create, with_ops, created_as. simpl.
  eexists. by rewrite lookup_insert_eq.
Qed.

Section Created.
Variables (o : OP) (ty : string) (parent_op : OP).

Lemma update_keeps_created o' f :
  (∀ r, op_type (f r) = op_type r ∧ parent (f r) = parent r) →
  triple (created_as o ty parent_op) (update o' f)
         (λ _, created_as o ty parent_op).
Proof.
  intros Hf p (r & Hr & Hty & Hpar). unfold update, with_ops, created_as. simpl.
  destruct (decide (o' = o)) as [->|Hne].
  - exists (f r). rewrite lookup_alter_eq, Hr. simpl.
    destruct (Hf r) as [-> ->]. done.
  - exists r. by rewrite lookup_alter_ne.
Qed.

Lemma set_nodeX_keeps_created o' v :
  triple (created_as o ty parent_op) (set_nodeX o' v)
         (λ _, created_as o ty parent_op).
Proof. by apply update_keeps_created. Qed.

Lemma set_nodeY_keeps_created o' v :
  triple (created_as o ty parent_op) (set_nodeY o' v)
         (λ _, created_as o ty parent_op).
Proof. by apply update_keeps_created. Qed.

Lemma connect_input_keeps_created target i source :
  triple (created_as o ty parent_op) (connect_input target i source)
         (λ _, created_as o ty parent_op).
Proof. by intros p Hp. Qed.

Lemma connect_output_keeps_created source j target :
  triple (created_as o ty parent_op) (connect_output source j target)
         (λ _, created_as o ty parent_op).
Proof. by intros p Hp. Qed.

End Created.

Lemma basic_connection_examples_result p0 :
  created_as (basic_connection_examples p0).1 "blurTOP" project1
             (basic_connection_examples p0).2.
Proof.
  assert (triple (λ _, True) basic_connection_examples
                 (λ o p, created_as o "blurTOP" project1 p)) as H; [|by apply H].
  unfold basic_connection_examples.
  do 11 (eapply triple_bind; [apply triple_any|intros ?]).
  eapply triple_bind; [apply create_as|intros blur].
  eapply triple_bind; [apply set_nodeX_keeps_created|intros ?].
  eapply triple_bind; [apply set_nodeY_keeps_created|intros ?].
  eapply triple_bind; [apply connect_output_keeps_created|intros ?].
  apply (triple_ret (λ o p, created_as o "blurTOP" project1 p) blur).
Qed.

(** C6 (as stated, refuted): [basic_connection_examples], the first of the
    ten top-level functions of connection_examples.py, returns the blur TOP
    it created last; that operator is not a container COMP, and the three
    operators created before it are beside it in [/project1], not inside
    it. *)
Lemma basic_connection_examples_returns_blur :
  let run := basic_connection_examples new_project in
  (op_type <$> ops run.2 !! run.1) = Some "blurTOP" ∧
  ¬ built_under run.1 new_project run.2.
Proof.
  split; [by vm_compute|].
  intros (_ & (r & Hr & Hty & _) & _).
  vm_compute in Hr. injection Hr as <-. discriminate Hty.
Qed.

(** C6 (amended): the entry functions of the network templates
    [create_audio_reactive_system] and [create_particle_system] return the
    container COMP that they create first in [/project1] and inside which
    they create every other operator; [basic_connection_examples], one of
    several top-level functions of its file, returns the blur TOP that it
    created in [/project1]. *)
Theorem templates_return_their_container (p0 : Project) :
  built_under (create_audio_reactive_system p0).1 p0
              (create_audio_reactive_system p0).2 ∧
  built_under (create_particle_system p0).1 p0
              (create_particle_system p0).2 ∧
  created_as (basic_connection_examples p0).1 "blurTOP" project1
             (basic_connection_examples p0).2.
Proof.
  split_and!.
  - by apply (create_audio_reactive_system_builds p0 p0).
  - by apply (create_particle_system_builds p0 p0).
  - apply basic_connection_examples_result.
Qed.

Example audio_reactive_system_in_new_project :
  let run := create_audio_reactive_system new_project in
  path_of run.2 run.1 = "/project1/audio_reactive_system" ∧
  size (ops run.2) = 28 ∧
  length (wires run.2) = 25.
Proof. by vm_compute. Qed.

End ScriptsFacts.

(** ** What the repository owns independently of the host *)

Module RepositoryFacts.
Import Host Navigation Performance NavigationFacts PerformanceFacts.

(** The lists of the pool evolve the same way whatever the project holds. *)
Lemma run_pool_independent calls :
  ∀ (proj proj' : Project) pool,
    (run calls (proj, pool)).2 = (run calls (proj', pool)).2.
Proof.
  unfold run. induction calls as [|c calls IH]; intros proj proj' pool; [done|].
  cbn [foldl]. destruct c as [|op_obj]; simpl.
  - unfold acquire. destruct (pop (available pool)) as [[o avail]|]; apply IH.
  - unfold release. destruct (decide (op_obj ∈ in_use pool)); apply IH.
Qed.

(** C7 (as stated, refuted): [get_relative_path] is a pure function on
    strings and satisfies a round-trip law, and the lists of
    [OperatorPool] keep an invariant under every sequence of calls, both
    stated without any reference to what the host does. *)
Lemma owned_round_trip_and_invariant :
  (∀ nf nt, Forall valid_name nf → Forall valid_name nt →
     resolve_relative (abs_path nf)
       (get_relative_path (abs_path nf) (abs_path nt)) = abs_path nt) ∧
  (∀ calls (proj : Project) pool,
     length (available (run calls (proj, pool)).2)
     + length (in_use (run calls (proj, pool)).2)
     = length (available pool) + length (in_use pool)).
Proof.
  split.
  - apply relative_path_resolves.
  - intros calls proj pool.
    destruct (run_keeps_operators calls (proj, pool)) as [Hperm _].
    rewrite <- !length_app. by rewrite Hperm.
Qed.

(** C7 (amended): the repository owns two small pieces whose correctness
    is stated independently of the host: the pure function
    [get_relative_path], which satisfies a round-trip law on absolute
    operator paths, and the [OperatorPool] lists, which under any sequence
    of [acquire] and [release] calls hold the same operators as before,
    evolving the same way whatever the host project contains. *)
Theorem host_independent_properties nf nt calls (proj proj' : Project) pool :
  Forall valid_name nf → Forall valid_name nt →
  resolve_relative (abs_path nf)
    (get_relative_path (abs_path nf) (abs_path nt)) = abs_path nt ∧
  (run calls (proj, pool)).2 = (run calls (proj', pool)).2 ∧
  available (run calls (proj, pool)).2 ++ in_use (run calls (proj, pool)).2
  ≡ₚ available pool ++ in_use pool.
Proof.
  intros Hf Ht. split_and!.
  - by apply relative_path_resolves.
  - apply run_pool_independent.
  - apply (run_keeps_operators calls (proj, pool)).
Qed.

Lemma host_independent_properties_witness :
  resolve_relative (abs_path ["project1"; "geo1"])
    (get_relative_path (abs_path ["project1"; "geo1"])
                       (abs_path ["project1"; "base1"; "noise1"]))
  = abs_path ["project1"; "base1"; "noise1"] ∧
  (run [Acquire; Release 4] (new_pool ∅ noiseTOP 5 "pool")).2
  = (run [Acquire; Release 4]
       ((∅ : Project), (new_pool ∅ noiseTOP 5 "pool").2)).2 ∧
  available (run [Acquire; Release 4] (new_pool ∅ noiseTOP 5 "pool")).2
  ++ in_use (run [Acquire; Release 4] (new_pool ∅ noiseTOP 5 "pool")).2
  ≡ₚ available (new_pool ∅ noiseTOP 5 "pool").2
     ++ in_use (new_pool ∅ noiseTOP 5 "pool").2.
Proof.
  apply (host_independent_properties
           ["project1"; "geo1"] ["project1"; "base1"; "noise1"]
           [Acquire; Release 4]
           (new_pool ∅ noiseTOP 5 "pool").1 ∅
           (new_pool ∅ noiseTOP 5 "pool").2).
  - by vm_compute; repeat constructor.
  - by vm_compute; repeat constructor.
Defined.

End RepositoryFacts.

(** ** connection_examples.py: dynamic connection management *)

Module DynamicFacts.
Import Host Traversal Connection Dynamic TraversalFacts ConnectionFacts.

Lemma elem_of_inputConnectors net o c :
  c ∈ inputConnectors net o ↔
  owner c = o ∧ index c < length (inputConnectors net o).
Proof.
  unfold inputConnectors, connectors_of.
  destruct (operators net !! o) as [s|].
  - rewrite length_fmap, length_seq, list_elem_of_fmap. split.
    + intros (i & -> & Hi%elem_of_seq). simpl. split; [done|lia].
    + intros [Ho Hi]. exists (index c). split; [by destruct c; simpl in *; subst|].
      apply elem_of_seq. lia.
  - simpl. split; [by intros ?%elem_of_nil|lia].
Qed.

Lemma lookup_inputConnectors net o i :
  i < length (inputConnectors net o) →
  inputConnectors net o !! i = Some (input_of o i).
Proof.
  unfold inputConnectors, connectors_of.
  destruct (operators net !! o) as [s|]; simpl; [|lia].
  rewrite length_fmap, length_seq. intros Hi.
  by rewrite list_lookup_fmap, lookup_seq_lt.
Qed.

Lemma inputConnectors_connect net c s o :
  inputConnectors (connect net c s) o = inputConnectors net o.
Proof. reflexivity. Qed.

Lemma inputConnectors_disconnect net c o :
  inputConnectors (disconnect net c) o = inputConnectors net o.
Proof. reflexivity. Qed.

Lemma in_connections_disconnect_same net c :
  in_connections (disconnect net c) c = [].
Proof.
  unfold in_connections, disconnect. simpl. rewrite list_filter_filter.
  induction (wires net) as [|w l IH]; [done|].
  by rewrite filter_cons_False by tauto.
Qed.

Lemma in_connections_disconnect_other net c c' :
  c ≠ c' → in_connections (disconnect net c) c' = in_connections net c'.
Proof.
  intros Hne. unfold in_connections, disconnect. simpl.
  rewrite list_filter_filter_l; [done|].
  intros w [Ho Hi] [Ho' Hi']. apply Hne. destruct c, c'. simpl in *. congruence.
Qed.

(** *** [connect_sources] *)

Lemma connect_sources_loop_spec composite items :
  ∀ net,
    NoDup items.*1 →
    ∃ net',
      connect_sources_loop net composite items = Completed net' ∧
      operators net' = operators net ∧
      (∀ i src, (i, src) ∈ items →
         i < length (inputConnectors net composite) →
         in_connections net' (input_of composite i) = [src]) ∧
      (∀ c, ¬ (owner c = composite ∧ index c ∈ items.*1 ∧
                index c < length (inputConnectors net composite)) →
         in_connections net' c = in_connections net c).
Proof.
  induction items as [|[i src] items IH]; intros net Hnd; simpl.
  - exists net. split_and!; [done..| |done].
    intros i src Hi. by apply elem_of_nil in Hi.
  - apply NoDup_cons in Hnd as [Hi Hnd].
    destruct (decide (i < length (inputConnectors net composite))) as [Hlt|Hge].
    + rewrite (lookup_inputConnectors _ _ _ Hlt).
      destruct (IH (connect net (input_of composite i) src) Hnd)
        as (net' & -> & Hops & Hset & Hrest).
      exists net'. split_and!; [done..| |].
      * intros j s [[= -> ->]|Hj]%elem_of_cons Hj'.
        -- rewrite Hrest; [apply in_connections_connect_same|].
           simpl. intros (_ & Hin & _). done.
        -- by apply Hset.
      * intros c Hc. rewrite Hrest.
        -- apply in_connections_connect_other. intros <-. apply Hc.
           simpl. split_and!; [done|apply list_elem_of_here|done].
        -- intros (Ho & Hin & Hlen). apply Hc.
           split_and!; [done|by apply list_elem_of_further|done].
    + destruct (IH net Hnd) as (net' & -> & Hops & Hset & Hrest).
      exists net'. split_and!; [done..| |].
      * intros j s [[= -> ->]|Hj]%elem_of_cons Hj'; [done|by apply Hset].
      * intros c Hc. apply Hrest. intros (Ho & Hin & Hlen). apply Hc.
        split_and!; [done|by apply list_elem_of_further|done].
Qed.

Lemma enumerate_fst {A} (l : list A) : (enumerate l).*1 = seq 0 (length l).
Proof.
  unfold enumerate. rewrite fmap_imap.
  apply list_eq. intros i. rewrite list_lookup_imap.
  destruct (l !! i) as [x|] eqn:E; simpl.
  - by rewrite lookup_seq_lt by by eapply lookup_lt_Some.
  - symmetry. apply lookup_seq_ge. by apply lookup_ge_None.
Qed.

Lemma elem_of_enumerate {A} (l : list A) i x :
  (i, x) ∈ enumerate l ↔ l !! i = Some x.
Proof.
  unfold enumerate. rewrite list_elem_of_lookup. split.
  - intros (j & Hj). rewrite list_lookup_imap in Hj.
    destruct (l !! j) eqn:E; simpl in Hj; [|done]. by injection Hj as -> ->.
  - intros Hi. exists i. by rewrite list_lookup_imap, Hi.
Qed.

(** X1: [connect_sources] never indexes past the composite's input
    connectors; it wires the [i]-th of the first [max_inputs] sources into
    input [i] wherever that input exists, replacing what was wired there,
    and changes no other connection. *)
Theorem connect_sources_spec net composite source_list max_inputs :
  let chosen := slice_to source_list max_inputs in
  let n := length (inputConnectors net composite) in
  ∃ net',
    connect_sources net composite source_list max_inputs = Completed net' ∧
    operators net' = operators net ∧
    (∀ i src, chosen !! i = Some src → i < n →
       in_connections net' (input_of composite i) = [src]) ∧
    (∀ c, ¬ (owner c = composite ∧ index c < length chosen ∧ index c < n) →
       in_connections net' c = in_connections net c).
Proof.
  intros chosen n. unfold connect_sources. fold chosen.
  destruct (connect_sources_loop_spec composite (enumerate chosen) net)
    as (net' & Hrun & Hops & Hset & Hrest).
  { rewrite enumerate_fst. apply NoDup_seq. }
  exists net'. split_and!; [done..| |].
  - intros i src Hi Hlt. apply Hset; [|done]. by apply elem_of_enumerate.
  - intros c Hc. apply Hrest. intros (Ho & Hin & Hlen). apply Hc.
    rewrite enumerate_fst, elem_of_seq in Hin. split_and!; [done|lia|done].
Qed.

(** A negative [max_inputs] leaves out that many sources from the end. *)
Example connect_sources_all_but_last :
  ∃ net', connect_sources util_network 3 [0; 1; 2] (-1) = Completed net' ∧
          in_connections net' (input_of 3 0) = [0] ∧
          in_connections net' (input_of 3 1) = [1].
Proof. eexists. split_and!; vm_compute; reflexivity. Qed.

(** *** [disconnect_all_inputs] *)

Lemma disconnect_loop_spec connectors :
  ∀ net,
    let net' := foldl (λ net connector,
                         if bool_decide (in_connections net connector ≠ [])
                         then disconnect net connector else net)
                      net connectors in
    operators net' = operators net ∧
    (∀ c, c ∈ connectors → in_connections net' c = []) ∧
    (∀ c, c ∉ connectors → in_connections net' c = in_connections net c) ∧
    (∀ c, in_connections net c = [] → in_connections net' c = []).
Proof.
  induction connectors as [|k ks IH]; intros net; simpl.
  - split_and!; [done| |done..]. intros c Hc. by apply elem_of_nil in Hc.
  - set (net1 := if bool_decide (in_connections net k ≠ [])
                 then disconnect net k else net).
    assert (operators net1 = operators net) as Hops1.
    { unfold net1. by destruct (bool_decide _). }
    assert (in_connections net1 k = []) as Hk.
    { unfold net1. destruct (bool_decide _) eqn:E.
      - apply in_connections_disconnect_same.
      - apply bool_decide_eq_false in E.
        by destruct (decide (in_connections net k = [])). }
    assert (∀ c, c ≠ k → in_connections net1 c = in_connections net c) as Hother.
    { intros c Hc. unfold net1. destruct (bool_decide _); [|done].
      by apply in_connections_disconnect_other. }
    destruct (IH net1) as (Hops & Hcut & Hkeep & Hempty).
    split_and!.
    + by rewrite Hops.
    + intros c [->|Hc]%elem_of_cons; [by apply Hempty|by apply Hcut].
    + intros c Hc. apply not_elem_of_cons in Hc as [Hne Hc].
      rewrite Hkeep by done. by apply Hother.
    + intros c Hc. apply Hempty. destruct (decide (c = k)) as [->|Hne]; [done|].
      by rewrite Hother.
Qed.

(** *** What the calls do to the wires *)

Lemma filter_filter_same {A} (P : A → Prop) `{!∀ x, Decision (P x)} (l : list A) :
  filter P (filter P l) = filter P l.
Proof. rewrite list_filter_filter. apply list_filter_iff. tauto. Qed.

Lemma filter_all {A} (P : A → Prop) `{!∀ x, Decision (P x)} (l : list A) :
  Forall P l → filter P l = l.
Proof.
  induction 1 as [|x l Hx _ IH]; [done|]. by rewrite filter_cons_True, IH.
Qed.

Lemma filter_fmap_comm {A B} (f : A → B) (P : B → Prop)
    `{!∀ y, Decision (P y)} (l : list A) :
  filter P (f <$> l) = f <$> filter (λ x, P (f x)) l.
Proof.
  induction l as [|x l IH]; [done|]. csimpl. rewrite !filter_cons.
  destruct (decide (P (f x))); csimpl; by rewrite IH.
Qed.

Lemma disconnect_unconnected net c :
  in_connections net c = [] → wires (disconnect net c) = wires net.
Proof.
  unfold in_connections, disconnect. simpl. intros Hnil%fmap_nil_inv.
  apply filter_all, Forall_forall. intros w Hw Hc.
  assert (w ∈ filter (enters c) (wires net)) as Hin by by apply list_elem_of_filter.
  rewrite Hnil in Hin. by apply elem_of_nil in Hin.
Qed.

Lemma out_connections_filter net net' c (P : Connector → Prop)
    `{!∀ k, Decision (P k)} :
  wires net'
  = filter (λ w, P {| owner := w_dst w; index := w_in w |}) (wires net) →
  out_connections net' c = filter P (out_connections net c).
Proof.
  intros Hw. unfold out_connections. rewrite Hw, filter_fmap_comm.
  f_equal. rewrite !list_filter_filter. apply list_filter_iff.
  intros w. simpl. tauto.
Qed.

Lemma disconnect_loop_wires connectors :
  ∀ net,
    wires (foldl (λ net connector,
                    if bool_decide (in_connections net connector ≠ [])
                    then disconnect net connector else net)
                 net connectors)
    = filter (λ w, {| owner := w_dst w; index := w_in w |} ∉ connectors) (wires net).
Proof.
  induction connectors as [|k ks IH]; intros net; simpl.
  - symmetry. apply filter_all, Forall_forall. intros w _. apply not_elem_of_nil.
  - rewrite IH.
    assert (wires (if bool_decide (in_connections net k ≠ [])
                   then disconnect net k else net)
            = wires (disconnect net k)) as ->.
    { destruct (bool_decide _) eqn:E; [done|].
      apply bool_decide_eq_false in E. symmetry. apply disconnect_unconnected.
      by destruct (decide (in_connections net k = [])). }
    simpl. rewrite list_filter_filter. apply list_filter_iff. intros w.
    rewrite not_elem_of_cons. unfold enters. destruct k as [o i]. simpl.
    split.
    + intros [Hks Hk]. split; [|done]. intros [= ? ?]. by apply Hk.
    + intros [Hk Hks]. split; [done|]. intros [? ?]. apply Hk. congruence.
Qed.

(** X2: [disconnect_all_inputs(operator)] removes exactly the wires that
    end on an input connector of [operator] and keeps every other wire, in
    order.  Afterwards nothing is wired into any input connector of
    [operator], [are_connected] answers [False] for every source and
    [get_upstream_ops] returns the empty list; the input connectors of
    every other operator keep their connections, and every output
    connector keeps its connections except those to an input connector of
    [operator]. *)
Theorem disconnect_all_inputs_spec net operator :
  let net' := disconnect_all_inputs net operator in
  operators net' = operators net ∧
  wires net'
  = filter (λ w, {| owner := w_dst w; index := w_in w |}
                 ∉ inputConnectors net operator) (wires net) ∧
  (∀ c, c ∈ inputConnectors net' operator → in_connections net' c = []) ∧
  (∀ source, are_connected net' source operator = false) ∧
  (∀ fuel, get_upstream_ops (S fuel) net' operator = Some []) ∧
  (∀ c, owner c ≠ operator → in_connections net' c = in_connections net c) ∧
  (∀ c, out_connections net' c
        = filter (λ k, k ∉ inputConnectors net operator) (out_connections net c)).
Proof.
  intros net'.
  destruct (disconnect_loop_spec (inputConnectors net operator) net)
    as (Hops & Hcut & Hkeep & _).
  pose proof (disconnect_loop_wires (inputConnectors net operator) net) as Hwires.
  fold (disconnect_all_inputs net operator) in Hops, Hcut, Hkeep, Hwires.
  fold net' in Hops, Hcut, Hkeep, Hwires.
  assert (inputConnectors net' operator = inputConnectors net operator) as Hsame.
  { unfold inputConnectors. by rewrite Hops. }
  assert (∀ c, c ∈ inputConnectors net' operator → in_connections net' c = [])
    as Hnone.
  { intros c Hc. apply Hcut. by rewrite <- Hsame. }
  split_and!; [done|done|done| | | |].
  - intros source. unfold are_connected.
    apply not_true_is_false. intros (c & Hc%list_elem_of_In & Hb)%existsb_exists.
    apply andb_prop in Hb as [Hb _]. apply bool_decide_eq_true in Hb.
    by apply Hb, Hnone.
  - intros fuel. rewrite get_upstream_ops_collect, collect_unfold.
    assert (producers net' operator = []) as ->; [|done].
    unfold producers. clear Hsame. revert Hnone.
    generalize (inputConnectors net' operator) as l.
    induction l as [|c l IH]; intros Hnone; [done|].
    cbn [mbind list_bind]. simpl. rewrite (Hnone c) by apply list_elem_of_here.
    apply IH. intros k Hk. apply Hnone. by apply list_elem_of_further.
  - intros c Hc. apply Hkeep. intros [Ho _]%elem_of_inputConnectors. done.
  - intros c. by apply out_connections_filter.
Qed.

(** Disconnecting the inputs of [util_comp] takes the connection to it
    away from the output of [util_blur]. *)
Example disconnect_all_inputs_upstream_outputs :
  out_connections util_network {| owner := 2; index := 0 |} = [input_of 3 0] ∧
  out_connections (disconnect_all_inputs util_network 3)
    {| owner := 2; index := 0 |} = [] ∧
  wires (disconnect_all_inputs util_network 3)
  = [ {| w_src := 0; w_out := 0; w_dst := 2; w_in := 0 |} ].
Proof. split_and!; vm_compute; reflexivity. Qed.

(** *** [rewire_connection] *)

Lemma rewire_loop_spec net old_source new_source connectors :
  let net' := rewire_loop net old_source new_source connectors in
  (∃ before connector after,
      connectors = before ++ connector :: after ∧
      in_connections net connector !! 0 = Some old_source ∧
      (∀ c, c ∈ before → in_connections net c !! 0 ≠ Some old_source) ∧
      in_connections net' connector = [new_source] ∧
      ∀ c, c ≠ connector → in_connections net' c = in_connections net c) ∨
  ((∀ c, c ∈ connectors → in_connections net c !! 0 ≠ Some old_source) ∧
   net' = net).
Proof.
  induction connectors as [|k ks IH]; simpl.
  - right. split; [|done]. intros c Hc. by apply elem_of_nil in Hc.
  - destruct (bool_decide (in_connections net k ≠ [])
              && bool_decide (in_connections net k !! 0 = Some old_source)) eqn:E.
    + apply andb_prop in E as [_ E%bool_decide_eq_true].
      left. exists [], k, ks. split_and!; [done..| | |].
      * intros c Hc. by apply elem_of_nil in Hc.
      * apply in_connections_connect_same.
      * intros c Hc. rewrite in_connections_connect_other by done.
        by apply in_connections_disconnect_other.
    + assert (in_connections net k !! 0 ≠ Some old_source) as Hk.
      { intros Hk. apply andb_false_iff in E as [E|E];
          apply bool_decide_eq_false in E; apply E; [|done].
        intros Hnil. by rewrite Hnil in Hk. }
      destruct IH as [(before & c & after & -> & Hc & Hbefore & Hnew & Hrest)
                     |[Hnone ->]].
      * left. exists (k :: before), c, after. split_and!; [done..| |done|done].
        intros c' [->|Hc']%elem_of_cons; [done|by apply Hbefore].
      * right. split; [|done].
        intros c [->|Hc]%elem_of_cons; [done|by apply Hnone].
Qed.

Lemma rewire_loop_operators net old_source new_source connectors :
  operators (rewire_loop net old_source new_source connectors) = operators net.
Proof.
  induction connectors as [|k ks IH]; simpl; [done|]. by destruct (_ && _).
Qed.

Lemma rewire_loop_wires net old_source new_source connectors connector :
  (∃ before after, connectors = before ++ connector :: after ∧
     in_connections net connector !! 0 = Some old_source ∧
     ∀ c, c ∈ before → in_connections net c !! 0 ≠ Some old_source) →
  wires (rewire_loop net old_source new_source connectors)
  = filter (λ w, ¬ enters connector w) (wires net)
    ++ [ {| w_src := new_source; w_out := 0;
            w_dst := owner connector; w_in := index connector |} ].
Proof.
  intros (before & after & -> & Hc & Hbefore).
  induction before as [|k ks IH]; simpl.
  - rewrite Hc. rewrite bool_decide_true, bool_decide_true; [simpl|done|].
    + by rewrite filter_filter_same.
    + intros E. by rewrite E in Hc.
  - assert (in_connections net k !! 0 ≠ Some old_source) as Hk
      by apply Hbefore, list_elem_of_here.
    rewrite (bool_decide_false (_ !! 0 = _)) by done.
    rewrite andb_false_r. apply IH. intros c Hin.
    by apply Hbefore, list_elem_of_further.
Qed.

(** X3: [rewire_connection] changes at most one input of [target].  The
    first input connector whose first connection is [old_source] loses
    every wire into it and gets one wire from the first output of
    [new_source]; no other wire is touched.  So that connector ends up
    holding [new_source] alone, every other input connector keeps its
    connections, and an output connector keeps its connections except
    that those to the rewired connector are removed and the first output
    of [new_source] gains it.  When no input starts with [old_source] the
    network is unchanged. *)
Theorem rewire_connection_spec net old_source new_source target :
  let net' := rewire_connection net old_source new_source target in
  (∃ before connector after,
      inputConnectors net target = before ++ connector :: after ∧
      in_connections net connector !! 0 = Some old_source ∧
      (∀ c, c ∈ before → in_connections net c !! 0 ≠ Some old_source) ∧
      operators net' = operators net ∧
      wires net'
      = filter (λ w, ¬ enters connector w) (wires net)
        ++ [ {| w_src := new_source; w_out := 0;
                w_dst := owner connector; w_in := index connector |} ] ∧
      in_connections net' connector = [new_source] ∧
      are_connected net' new_source target = true ∧
      (∀ c, c ≠ connector → in_connections net' c = in_connections net c) ∧
      (∀ c, out_connections net' c
            = filter (λ k, k ≠ connector) (out_connections net c)
              ++ (if decide (c = {| owner := new_source; index := 0 |})
                  then [connector] else []))) ∨
  ((∀ c, c ∈ inputConnectors net target →
      in_connections net c !! 0 ≠ Some old_source) ∧
   net' = net).
Proof.
  intros net'.
  destruct (rewire_loop_spec net old_source new_source (inputConnectors net target))
    as [(before & c & after & Hsplit & Hc & Hbefore & Hnew & Hrest)|[Hnone Hsame]].
  - left. exists before, c, after.
    assert (wires net'
            = filter (λ w, ¬ enters c w) (wires net)
              ++ [ {| w_src := new_source; w_out := 0;
                      w_dst := owner c; w_in := index c |} ]) as Hwires.
    { apply rewire_loop_wires. by exists before, after. }
    fold (rewire_connection net old_source new_source target) in Hnew, Hrest.
    fold net' in Hnew, Hrest.
    split_and!; [done|done|done|apply rewire_loop_operators|done|done| |done|].
    + unfold are_connected. apply existsb_exists. exists c. split.
      * apply list_elem_of_In.
        assert (inputConnectors net' target = inputConnectors net target) as ->.
        { unfold inputConnectors, net', rewire_connection.
          by rewrite rewire_loop_operators. }
        rewrite Hsplit. apply elem_of_app. right. apply list_elem_of_here.
      * rewrite Hnew. apply andb_true_intro.
        split; apply bool_decide_eq_true; [done|apply list_elem_of_here].
    + intros k. unfold out_connections. rewrite Hwires, filter_app, fmap_app.
      f_equal.
      * rewrite filter_fmap_comm. f_equal. rewrite !list_filter_filter.
        apply list_filter_iff. intros w. unfold enters. destruct c as [o i]. simpl.
        split.
        -- intros [Hl Hne]. split; [|done]. intros [= ? ?]. by apply Hne.
        -- intros [Hne Hl]. split; [done|]. intros [? ?]. apply Hne. congruence.
      * destruct k as [ko ki], c as [o i]. simpl.
        destruct (decide (_ = _)) as [[= -> ->]|Hne].
        -- by rewrite filter_cons_True by done.
        -- rewrite filter_cons_False; [done|].
           intros [? ?]. simpl in *. apply Hne. congruence.
  - right. by split.
Qed.

(** When [old_source] feeds two inputs, only the first is rewired; its
    output loses that one connection and the output of [new_source]
    gains it. *)
Example rewire_connection_first_only :
  let net := connect (connect util_network (input_of 3 0) 0) (input_of 3 1) 0 in
  let net' := rewire_connection net 0 1 3 in
  in_connections net' (input_of 3 0) = [1] ∧
  in_connections net' (input_of 3 1) = [0] ∧
  out_connections net {| owner := 0; index := 0 |}
  = [input_of 2 0; input_of 3 0; input_of 3 1] ∧
  out_connections net' {| owner := 0; index := 0 |} = [input_of 2 0; input_of 3 1] ∧
  out_connections net {| owner := 1; index := 0 |} = [] ∧
  out_connections net' {| owner := 1; index := 0 |} = [input_of 3 0].
Proof. split_and!; vm_compute; reflexivity. Qed.

(** *** [insert_operator_between] and [are_connected] *)

Lemma are_connected_fed_by net source target :
  are_connected net source target = true ↔ fed_by net target source.
Proof.
  unfold are_connected, fed_by. rewrite existsb_exists. split.
  - intros (c & Hc%list_elem_of_In & Hb). apply andb_prop in Hb as [_ Hb].
    apply bool_decide_eq_true in Hb. by exists c.
  - intros (c & Hc & Hs). exists c. split; [by apply list_elem_of_In|].
    apply andb_true_intro. split; apply bool_decide_eq_true; [|done].
    intros E. rewrite E in Hs. by apply elem_of_nil in Hs.
Qed.

(** X4: when [insert_operator_between] returns [True] (for a [new_op]
    with an input connector, other than [target]), it has removed every
    wire into one input connector of [target] that held [source] and every
    wire into the first input of [new_op], and added a wire from the first
    output of [source] to the first input of [new_op] and one from the
    first output of [new_op] to that connector of [target]; no other wire
    is touched.  So [are_connected] holds afterwards from [source] to
    [new_op] and from [new_op] to [target], and every other input
    connector keeps its connections. *)
Theorem insert_operator_between_keeps_rest net new_op source target net' :
  inputConnectors net new_op ≠ [] →
  new_op ≠ target →
  insert_operator_between net new_op source target = Returned true net' →
  are_connected net' source new_op = true ∧
  are_connected net' new_op target = true ∧
  ∃ connector, connector ∈ inputConnectors net target ∧
    source ∈ in_connections net connector ∧
    operators net' = operators net ∧
    wires net'
    = filter (λ w, ¬ enters connector w ∧ ¬ enters (input_of new_op 0) w)
        (wires net)
      ++ [ {| w_src := source; w_out := 0; w_dst := new_op; w_in := 0 |};
           {| w_src := new_op; w_out := 0;
              w_dst := owner connector; w_in := index connector |} ] ∧
    ∀ c, c ≠ connector → c ≠ input_of new_op 0 →
         in_connections net' c = in_connections net c.
Proof.
  intros Hin Hne Hrun. unfold insert_operator_between in Hrun.
  pose proof (insert_loop_spec net new_op source (inputConnectors net target) Hin) as H.
  rewrite Hrun in H. destruct H as (c & Hc & Hs & ->).
  assert (c ≠ input_of new_op 0) as Hcne.
  { intros ->. apply elem_of_inputConnectors in Hc as [Ho _]. by apply Hne. }
  split_and!.
  - apply are_connected_fed_by. exists (input_of new_op 0). split.
    + apply elem_of_inputConnectors. split; [done|].
      change (0 < length (inputConnectors net new_op)).
      destruct (inputConnectors net new_op); [done|simpl; lia].
    + rewrite in_connections_connect_other by done.
      rewrite in_connections_connect_same. apply list_elem_of_here.
  - apply are_connected_fed_by. exists c. split; [done|].
    rewrite in_connections_connect_same. apply list_elem_of_here.
  - exists c. split_and!; [done|done|done| |].
    + simpl. rewrite filter_app, filter_cons_True, filter_nil.
      * rewrite !list_filter_filter, <- app_assoc. simpl. f_equal.
        apply list_filter_iff. tauto.
      * intros [Ho Hi]. apply Hcne. destruct c. simpl in *. by subst.
    + intros k Hk Hk'.
      rewrite !in_connections_connect_other by done.
      by apply in_connections_disconnect_other.
Qed.

Lemma insert_operator_between_keeps_rest_witness :
  ∃ net', insert_operator_between util_network 4 2 3 = Returned true net' ∧
    are_connected net' 2 4 = true ∧ are_connected net' 4 3 = true.
Proof.
  eexists. split; [vm_compute; reflexivity|].
  destruct (insert_operator_between_keeps_rest util_network 4 2 3 _
              ltac:(by vm_compute) ltac:(lia) eq_refl) as (H1 & H2 & _).
  by split.
Defined.

(** *** Exactly when the traversals return *)

(** X5: [get_downstream_ops] returns a list exactly from the operators
    from which no cycle of output connections can be reached, and
    [get_upstream_ops] exactly from those from which no cycle of input
    connections can be reached. *)
Theorem traversals_return_iff_no_cycle net o :
  ((∃ fuel, is_Some (get_downstream_ops fuel net o)) ↔
   (∀ x, rtc (feeds net) o x → ¬ tc (feeds net) x x)) ∧
  ((∃ fuel, is_Some (get_upstream_ops fuel net o)) ↔
   (∀ x, rtc (fed_by net) o x → ¬ tc (fed_by net) x x)).
Proof.
  split; split.
  - intros (fuel & l & Hl) x Hx Hxx.
    by rewrite (get_downstream_ops_diverges net o x fuel Hx Hxx) in Hl.
  - intros Hacyc.
    destruct (get_downstream_ops_exact net o Hacyc) as (l & _ & _ & fuel & H).
    exists fuel. rewrite (H fuel); [by eexists|done].
  - intros (fuel & l & Hl) x Hx Hxx.
    by rewrite (get_upstream_ops_diverges net o x fuel Hx Hxx) in Hl.
  - intros Hacyc.
    destruct (get_upstream_ops_exact net o Hacyc) as (l & _ & _ & fuel & H).
    exists fuel. rewrite (H fuel); [by eexists|done].
Qed.

(** *** Upstream and downstream are converse *)

Lemma owner_outputConnectors net o c : c ∈ outputConnectors net o → owner c = o.
Proof.
  unfold outputConnectors, connectors_of.
  destruct (operators net !! o) as [s|]; [|by intros ?%elem_of_nil].
  by intros (i & -> & _)%list_elem_of_fmap.
Qed.

Lemma feeds_fed_by net u v : well_wired net → feeds net u v ↔ fed_by net v u.
Proof.
  intros Hw. unfold well_wired in Hw. rewrite Forall_forall in Hw. split.
  - intros (c & k & Hc & Hk & <-). unfold out_connections in Hk.
    apply list_elem_of_fmap in Hk as (w & -> & [[Hsrc Hout] Hin]%list_elem_of_filter).
    simpl. destruct (Hw w Hin) as [_ Hdst].
    exists {| owner := w_dst w; index := w_in w |}. split; [done|].
    unfold in_connections. apply list_elem_of_fmap. exists w. split.
    + apply owner_outputConnectors in Hc. congruence.
    + apply list_elem_of_filter. by split.
  - intros (c & Hc & Hk). unfold in_connections in Hk.
    apply list_elem_of_fmap in Hk as (w & -> & [[Hdst Hidx] Hin]%list_elem_of_filter).
    destruct (Hw w Hin) as [Hsrc _].
    exists {| owner := w_src w; index := w_out w |},
           {| owner := w_dst w; index := w_in w |}.
    split_and!; [done| |].
    + unfold out_connections. apply list_elem_of_fmap. exists w. split; [done|].
      apply list_elem_of_filter. by split.
    + simpl. apply elem_of_inputConnectors in Hc as [Ho _]. congruence.
Qed.

Lemma tc_flip {A} (R S : relation A) x y :
  (∀ a b, R a b → S b a) → tc R x y → tc S y x.
Proof.
  intros E. induction 1 as [a b H|a b c H _ IH].
  - by apply tc_once, E.
  - eapply tc_r; [exact IH|by apply E].
Qed.

(** X6: in a network whose wires all end on existing connectors, whenever
    both traversals return, [target] is listed downstream of [source]
    exactly when [source] is listed upstream of [target]. *)
Theorem downstream_upstream_converse net source target fuel fuel' down up :
  well_wired net →
  get_downstream_ops fuel net source = Some down →
  get_upstream_ops fuel' net target = Some up →
  target ∈ down ↔ source ∈ up.
Proof.
  intros Hw Hdown Hup.
  rewrite get_downstream_ops_collect in Hdown.
  rewrite get_upstream_ops_collect in Hup.
  apply collect_sound in Hdown as [_ ->]. apply collect_sound in Hup as [_ ->].
  split; apply tc_flip; intros a b.
  - rewrite step_consumers, step_producers. by apply feeds_fed_by.
  - rewrite step_consumers, step_producers. by apply feeds_fed_by.
Qed.

Lemma util_network_well_wired : well_wired util_network.
Proof.
  unfold well_wired. vm_compute wires.
  repeat (apply Forall_cons; split;
          [split; vm_compute; repeat (apply list_elem_of_here || apply list_elem_of_further)|]).
  apply Forall_nil. done.
Qed.

Lemma downstream_upstream_converse_witness : 3 ∈ [2; 3] ↔ 0 ∈ [2; 1; 0].
Proof.
  apply (downstream_upstream_converse util_network 0 3 3 3);
    [apply util_network_well_wired|vm_compute; reflexivity..].
Defined.

End DynamicFacts.

(** ** network_navigation_examples.py: hierarchy utilities *)

Module HierarchyFacts.
Import Host Traversal Connection Navigation Hierarchy.
Import TraversalFacts ConnectionFacts NavigationFacts.

(** *** [find_paths] lists the simple paths *)

(** A loop whose body appends what [f] yields. *)
Lemma for_each_append {A B : Type} (f : A → option (list B)) (xs : list A) :
  ∀ acc out,
    for_each xs (λ x acc, r ← f x; Some (acc ++ r)) acc = Some out →
    (∀ x, x ∈ xs → is_Some (f x)) ∧
    ∀ p, p ∈ out ↔ p ∈ acc ∨ ∃ x r, x ∈ xs ∧ f x = Some r ∧ p ∈ r.
Proof.
  induction xs as [|x xs IH]; intros acc out; simpl.
  - intros [= <-]. split; [by intros x ?%elem_of_nil|].
    intros p. split; [auto|]. intros [?|(x & r & ?%elem_of_nil & _)]; done.
  - destruct (f x) as [r|] eqn:Hr; simpl; [|done].
    intros [Hall Hmem]%IH. split.
    + intros y [->|Hy]%elem_of_cons; [by rewrite Hr|by apply Hall].
    + intros p. rewrite Hmem, elem_of_app. split.
      * intros [[?|?]|(y & s & Hy & Hs & Hp)]; [by left| |].
        -- right. exists x, r. split_and!; [apply list_elem_of_here|done..].
        -- right. exists y, s. split_and!; [by apply list_elem_of_further|done..].
      * intros [?|(y & s & [->|Hy]%elem_of_cons & Hs & Hp)]; [by auto| |].
        -- rewrite Hr in Hs. injection Hs as <-. auto.
        -- right. eauto.
Qed.

(** What one connection contributes to [paths]. *)
Lemma find_paths_flat fuel net start_op end_op visited :
  start_op ≠ end_op →
  find_paths (S fuel) net start_op end_op visited =
  for_each (consumers net start_op)
    (λ (next_op : OP) (paths : list (list OP)),
       r ← (if decide (next_op ∉ {[start_op]} ∪ visited) then
              match find_paths fuel net next_op end_op ({[start_op]} ∪ visited) with
              | Some sub_paths => Some (cons start_op <$> sub_paths)
              | None => None
              end
            else Some []);
       Some (paths ++ r))
    [].
Proof.
  intros Hne. rewrite find_paths_S, decide_False by done.
  unfold consumers. rewrite for_each_bind. apply for_each_ext. intros c acc.
  rewrite for_each_fmap. apply for_each_ext. intros k acc'.
  destruct (decide (owner k ∉ {[start_op]} ∪ visited)); simpl.
  - by destruct (find_paths fuel net (owner k) end_op ({[start_op]} ∪ visited)).
  - by rewrite app_nil_r.
Qed.

Lemma find_paths_characterised net end_op fuel :
  ∀ start_op visited paths,
    find_paths fuel net start_op end_op visited = Some paths →
    ∀ path, path ∈ paths ↔ simple_path net start_op end_op visited path.
Proof.
  induction fuel as [|fuel IH]; intros s visited paths; [done|].
  destruct (decide (s = end_op)) as [->|Hne].
  - rewrite find_paths_S, decide_True by done. intros [= <-] path.
    rewrite list_elem_of_singleton. split.
    + intros ->. exists []. split_and!; [done..|apply NoDup_singleton|done|].
      by intros x ?%elem_of_nil.
    + intros (rest & -> & Hlast & Hnd & _ & _).
      destruct rest as [|v rest]; [done|]. exfalso.
      apply NoDup_cons in Hnd as [Hnotin _]. apply Hnotin.
      change (last (end_op :: v :: rest)) with (last (v :: rest)) in Hlast.
      rewrite last_Some in Hlast. destruct Hlast as (l' & ->).
      apply elem_of_app. right. apply list_elem_of_here.
  - rewrite find_paths_flat by done. intros [Hall Hmem]%for_each_append path.
    rewrite Hmem. split.
    + intros [?%elem_of_nil|(v & r & Hv & Hr & Hp)]; [done|].
      destruct (decide (v ∉ {[s]} ∪ visited)) as [Hfresh|]; simpl in Hr;
        [|injection Hr as <-; by apply elem_of_nil in Hp].
      destruct (find_paths fuel net v end_op ({[s]} ∪ visited)) as [sub|] eqn:Hsub;
        simpl in Hr; [|done].
      injection Hr as <-. apply list_elem_of_fmap in Hp as (q & -> & Hq).
      apply (IH _ _ _ Hsub) in Hq as (rest & -> & Hlast & Hnd & Hlinked & Havoid).
      rewrite not_elem_of_union, not_elem_of_singleton in Hfresh.
      destruct Hfresh as [Hvs Hvv].
      exists (v :: rest). split_and!; [done|done| | |].
      * apply NoDup_cons. split; [|done].
        intros [->|Hin]%elem_of_cons; [done|].
        apply Havoid in Hin. apply Hin, elem_of_union_l. by apply elem_of_singleton.
      * split; [|done]. by apply step_consumers.
      * intros x [->|Hx]%elem_of_cons; [done|].
        apply Havoid in Hx. intros Hin. by apply Hx, elem_of_union_r.
    + intros (rest & -> & Hlast & Hnd & Hlinked & Havoid).
      destruct rest as [|v rest].
      { simpl in Hlast. by injection Hlast as ->. }
      right. destruct Hlinked as [Hfeeds Hlinked].
      apply NoDup_cons in Hnd as [Hs Hnd].
      assert (v ∉ {[s]} ∪ visited) as Hfresh.
      { rewrite not_elem_of_union, not_elem_of_singleton. split.
        - intros ->. apply Hs, list_elem_of_here.
        - apply Havoid, list_elem_of_here. }
      assert (v ∈ consumers net s) as Hv by by apply step_consumers.
      destruct (Hall v Hv) as [r Hr]. exists v, r. split_and!; [done..|].
      rewrite decide_True in Hr by done.
      destruct (find_paths fuel net v end_op ({[s]} ∪ visited)) as [sub|] eqn:Hsub;
        simpl in Hr; [|done].
      injection Hr as <-. apply list_elem_of_fmap. exists (v :: rest).
      split; [done|]. apply (IH _ _ _ Hsub).
      exists rest. split_and!; [done..|].
      intros x Hx [->%elem_of_singleton|Hin]%elem_of_union.
      * apply Hs. by apply list_elem_of_further.
      * revert Hin. apply Havoid. by apply list_elem_of_further.
Qed.

(** X7: [find_paths(start_op, end_op)] returns, on every network, and
    the paths it returns are exactly the paths from [start_op] to
    [end_op] along output connections that pass no operator twice. *)
Theorem find_paths_exact net start_op end_op :
  ∃ paths fuel,
    (∀ fuel', fuel ≤ fuel' → find_paths fuel' net start_op end_op ∅ = Some paths) ∧
    ∀ path, path ∈ paths ↔ simple_path net start_op end_op ∅ path.
Proof.
  destruct (find_paths_terminates net start_op end_op) as (paths & fuel & Hf).
  exists paths, fuel. split; [done|].
  apply (find_paths_characterised net end_op fuel). by apply Hf.
Qed.

(** *** Shapes of the relative path *)

Lemma lcp_diag xs : lcp xs xs = length xs.
Proof. induction xs as [|x xs IH]; simpl; [done|]. by rewrite decide_True, IH. Qed.

Lemma lcp_app xs ys : lcp xs (xs ++ ys) = length xs.
Proof. induction xs as [|x xs IH]; simpl; [done|]. by rewrite decide_True, IH. Qed.

Lemma lcp_app_l xs ys : lcp (xs ++ ys) xs = length xs.
Proof.
  induction xs as [|x xs IH]; simpl; [by destruct ys|]. by rewrite decide_True, IH.
Qed.

Lemma str_repeat_0_l s : str_repeat "../" 0 +:+ s = s.
Proof. done. Qed.

Lemma append_empty_r s : s +:+ "" = s.
Proof.
  induction s as [|c s IH]; [done|].
  change (String c s +:+ "") with (String c (s +:+ "")). by rewrite IH.
Qed.

(** X8: for operators with absolute paths, [get_relative_path] gives the
    empty string from a path to itself; from an operator other than the
    root to one nested below it, the names leading down joined by ["/"]
    with no ["../"]; from the root to an operator below it, one ["../"]
    followed by the names leading down joined by ["/"]; and from an
    operator to a container around it, the root included, one ["../"] per
    level and nothing else. *)
Theorem get_relative_path_shapes path outer inner :
  Forall valid_name outer → Forall valid_name inner →
  get_relative_path path path = "" ∧
  (outer ≠ [] →
   get_relative_path (abs_path outer) (abs_path (outer ++ inner))
   = join "/" inner) ∧
  (inner ≠ [] →
   get_relative_path "/" (abs_path inner) = "../" +:+ join "/" inner) ∧
  get_relative_path (abs_path (outer ++ inner)) (abs_path outer)
  = str_repeat "../" (length inner).
Proof.
  intros Ho Hi. split_and!.
  - unfold get_relative_path. rewrite common_ancestor_len_lcp, lcp_diag.
    by rewrite Nat.sub_diag, drop_all.
  - intros Hne. rewrite get_relative_path_abs by (done || by apply Forall_app).
    destruct outer as [|a outer]; [done|]. cbn zeta.
    change ((a :: outer) ++ inner) with (a :: (outer ++ inner)). cbv iota.
    change (a :: (outer ++ inner)) with ((a :: outer) ++ inner).
    rewrite lcp_app, Nat.sub_diag, drop_app_length. done.
  - intros Hne. change "/" with (abs_path []).
    rewrite get_relative_path_abs by done.
    destruct inner as [|b inner]; [done|]. cbn zeta. cbv iota.
    assert (b ≠ "") as Hb by by apply Forall_cons in Hi as [(? & _) _].
    cbn [lcp]. by rewrite decide_False by done.
  - rewrite get_relative_path_abs by (done || by apply Forall_app).
    destruct outer as [|a outer].
    + destruct inner as [|b inner]; [done|]. cbn zeta. simpl app. cbv iota.
      assert (b ≠ "") as Hb by by apply Forall_cons in Hi as [(? & _) _].
      cbn [lcp]. rewrite decide_False by done.
      rewrite Nat.sub_0_r. apply append_empty_r.
    + cbn zeta.
      change ((a :: outer) ++ inner) with (a :: (outer ++ inner)). cbv iota.
      change (a :: (outer ++ inner)) with ((a :: outer) ++ inner).
      rewrite lcp_app_l, drop_all, length_app.
      replace (length (a :: outer) + length inner - length (a :: outer))
        with (length inner) by lia.
      apply append_empty_r.
Qed.

Lemma get_relative_path_shapes_witness :
  get_relative_path "/project1/geo1" "/project1/geo1" = "" ∧
  get_relative_path (abs_path ["project1"; "geo1"])
                    (abs_path (["project1"; "geo1"] ++ ["noise1"])) = join "/" ["noise1"] ∧
  get_relative_path "/" (abs_path ["noise1"]) = "../" +:+ join "/" ["noise1"] ∧
  get_relative_path (abs_path (["project1"; "geo1"] ++ ["noise1"]))
                    (abs_path ["project1"; "geo1"])
  = str_repeat "../" (length ["noise1"]).
Proof.
  destruct (get_relative_path_shapes "/project1/geo1" ["project1"; "geo1"] ["noise1"])
    as (Hsame & Hdown & Hroot & Hup).
  - by vm_compute; repeat constructor.
  - by vm_compute; repeat constructor.
  - split_and!; [done|by apply Hdown|by apply Hroot|done].
Defined.

(** From the root, whose path splits into two empty components, the
    result starts with a ["../"] although the target lies below. *)
Example relative_path_below_root_goes_up :
  get_relative_path "/" "/project1" = "../project1".
Proof. vm_compute. reflexivity. Qed.

(** *** The operator tree *)

Lemma Op_ind_nested (P : Op → Prop) :
  (∀ name type, P (Leaf name type)) →
  (∀ name type children, Forall P children → P (Comp name type children)) →
  ∀ o, P o.
Proof.
  intros HL HC. fix IH 1. intros [name type|name type children]; [apply HL|].
  apply HC. induction children as [|c cs IHcs]; constructor; [apply IH|apply IHcs].
Qed.

Lemma is_COMP_true o : is_COMP o = true → ∃ name type children, o = Comp name type children.
Proof. destruct o; [done|]. by eauto. Qed.

Lemma descendants_loop_spec children :
  Forall (λ c, ∀ name type cs, c = Comp name type cs →
            ∃ l, get_all_descendants c = Some l ∧ ∀ x, x ∈ l ↔ descendant c x)
         children →
  ∀ acc, ∃ l,
    descendants_loop get_all_descendants children acc = Some (acc ++ l) ∧
    ∀ x, x ∈ l ↔ x ∈ children ∨ ∃ c, c ∈ children ∧ descendant c x.
Proof.
  induction 1 as [|c cs Hc _ IH]; intros acc.
  - exists []. simpl. rewrite app_nil_r. split; [done|]. intros x. split.
    + by intros ?%elem_of_nil.
    + intros [?%elem_of_nil|(c & ?%elem_of_nil & _)]; done.
  - cbn [descendants_loop]. destruct (is_COMP c) eqn:Hcomp.
    + destruct (is_COMP_true c Hcomp) as (name & type & children & Heq).
      destruct (Hc name type children Heq) as (lc & -> & Hlc). simpl.
      destruct (IH ((acc ++ [c]) ++ lc)) as (l & -> & Hl).
      exists ([c] ++ lc ++ l). split; [by rewrite !app_assoc|].
      intros x. rewrite !elem_of_app, list_elem_of_singleton, Hl, Hlc. split.
      * intros [->|[Hx|[Hx|(k & Hk & Hx)]]].
        -- left. apply list_elem_of_here.
        -- right. exists c. split; [apply list_elem_of_here|done].
        -- left. by apply list_elem_of_further.
        -- right. exists k. split; [by apply list_elem_of_further|done].
      * intros [[->|Hx]%elem_of_cons|(k & [->|Hk]%elem_of_cons & Hx)]; eauto 6.
    + destruct (IH (acc ++ [c])) as (l & -> & Hl).
      exists ([c] ++ l). split; [by rewrite !app_assoc|].
      intros x. rewrite !elem_of_app, list_elem_of_singleton, Hl. split.
      * intros [->|[Hx|(k & Hk & Hx)]].
        -- left. apply list_elem_of_here.
        -- left. by apply list_elem_of_further.
        -- right. exists k. split; [by apply list_elem_of_further|done].
      * intros [[->|Hx]%elem_of_cons|(k & [->|Hk]%elem_of_cons & Hx)]; eauto 6.
        destruct c; [|done]. inversion Hx.
Qed.

Lemma descendant_inv name type children x :
  descendant (Comp name type children) x ↔
  x ∈ children ∨ ∃ c, c ∈ children ∧ descendant c x.
Proof.
  split.
  - inversion 1; subst; eauto.
  - intros [Hx|(c & Hc & Hx)].
    + by apply descendant_child.
    + by eapply descendant_deeper.
Qed.

Lemma get_all_descendants_comp o :
  ∀ name type cs, o = Comp name type cs →
    ∃ l, get_all_descendants o = Some l ∧ ∀ x, x ∈ l ↔ descendant o x.
Proof.
  induction o as [name type|name type children IH] using Op_ind_nested;
    intros name' type' cs [= -> -> ->].
  destruct (descendants_loop_spec cs IH []) as (l & Hl & Hmem).
  exists l. split; [done|]. intros x. by rewrite Hmem, descendant_inv.
Qed.

(** X9: on a COMP, [get_all_descendants] raises nothing and returns the
    operators below it, children before their own descendants: an
    operator is in the list exactly when it lies somewhere below the
    COMP; on an operator that is not a COMP it raises. *)
Theorem get_all_descendants_spec name type children :
  (∃ l, get_all_descendants (Comp name type children) = Some l ∧
        (∀ x, x ∈ l ↔ descendant (Comp name type children) x) ∧
        ∀ child, child ∈ children → child ∈ l) ∧
  ∀ leaf_name leaf_type, get_all_descendants (Leaf leaf_name leaf_type) = None.
Proof.
  split; [|done].
  destruct (get_all_descendants_comp (Comp name type children) name type children eq_refl)
    as (l & Hl & Hmem).
  exists l. split_and!; [done..|]. intros child Hc. apply Hmem.
  by apply descendant_child.
Qed.

(** *** Depth *)

Lemma depth_loop_spec children :
  ∀ acc,
    let d := depth_loop get_network_depth children acc in
    acc ≤ d ∧
    (∀ c, c ∈ children → is_COMP c = true → get_network_depth c + 1 ≤ d) ∧
    (d = acc ∨ ∃ c, c ∈ children ∧ is_COMP c = true ∧ d = get_network_depth c + 1).
Proof.
  induction children as [|c cs IH]; intros acc; simpl.
  - split_and!; [done| |by left]. by intros c ?%elem_of_nil.
  - destruct (is_COMP c) eqn:Hc.
    + destruct (IH (acc `max` (get_network_depth c + 1))) as (Hle & Hall & Hex).
      split_and!; [lia| |].
      * intros k [->|Hk]%elem_of_cons Hcomp; [lia|by apply Hall].
      * destruct Hex as [Hd|(k & Hk & Hcomp & Hd)].
        -- destruct (decide (acc ≤ get_network_depth c + 1)).
           ++ right. exists c. split_and!; [apply list_elem_of_here|done|lia].
           ++ left. lia.
        -- right. exists k. split_and!; [by apply list_elem_of_further|done..].
    + destruct (IH acc) as (Hle & Hall & Hex). split_and!; [done| |].
      * intros k [->|Hk]%elem_of_cons Hcomp; [congruence|by apply Hall].
      * destruct Hex as [Hd|(k & Hk & Hcomp & Hd)]; [by left|].
        right. exists k. split_and!; [by apply list_elem_of_further|done..].
Qed.

Lemma get_network_depth_comp name type children :
  get_network_depth (Comp name type children)
  = depth_loop get_network_depth children 0.
Proof. by destruct children. Qed.

(** X10: [get_network_depth] counts nested containers only: it is the
    largest number of COMPs nested one inside the other below its
    argument, so it is 0 for an operator that is not a COMP and for a
    COMP none of whose children is a COMP. *)
Theorem get_network_depth_spec o :
  nested (get_network_depth o) o ∧ ∀ k, nested k o → k ≤ get_network_depth o.
Proof.
  induction o as [name type|name type children IH] using Op_ind_nested.
  - split; [constructor|]. inversion 1; lia.
  - rewrite get_network_depth_comp.
    destruct (depth_loop_spec children 0) as (_ & Hall & Hex).
    rewrite Forall_forall in IH. split.
    + destruct Hex as [->|(c & Hc & Hcomp & ->)]; [constructor|].
      rewrite Nat.add_1_r. eapply nested_inside; [done..|]. by apply IH.
    + intros k Hk. inversion Hk as [|k' ? ? ? c Hc Hcomp Hnested]; subst; [lia|].
      apply (IH c Hc) in Hnested. specialize (Hall c Hc Hcomp). lia.
Qed.

(** *** Statistics *)

(** How many of [l] have type [t]. *)
Lemma count_operator_by_type t stats t' :
  default 0 (operators_by_type (count_operator t stats) !! t')
  = default 0 (operators_by_type stats !! t') + (if decide (t = t') then 1 else 0).
Proof.
  unfold count_operator. simpl. destruct (decide (t = t')) as [->|Hne].
  - by rewrite lookup_insert_eq.
  - rewrite lookup_insert_ne by done. lia.
Qed.

Lemma analyze_loop_spec depth children :
  Forall (λ c, ∀ name type cs, c = Comp name type cs → ∀ d stats,
            ∃ l stats', get_all_descendants c = Some l ∧
              analyze_comp c d stats = Some stats' ∧
              total_operators stats' = total_operators stats + length l ∧
              containers stats' = containers stats + length (filter (λ x, is_COMP x = true) l) ∧
              max_depth stats' = max_depth stats `max` (d + get_network_depth c) ∧
              ∀ t, default 0 (operators_by_type stats' !! t)
                   = default 0 (operators_by_type stats !! t)
                     + length (filter (λ x, OPType_of x = t) l))
         children →
  ∀ acc stats, depth ≤ max_depth stats → ∃ l stats',
    descendants_loop get_all_descendants children acc = Some (acc ++ l) ∧
    analyze_loop (λ child, analyze_comp child (depth + 1)) children stats = Some stats' ∧
    total_operators stats' = total_operators stats + length l ∧
    containers stats' = containers stats + length (filter (λ x, is_COMP x = true) l) ∧
    max_depth stats'
    = max_depth stats `max` (depth + depth_loop get_network_depth children 0) ∧
    ∀ t, default 0 (operators_by_type stats' !! t)
         = default 0 (operators_by_type stats !! t)
           + length (filter (λ x, OPType_of x = t) l).
Proof.
  assert (∀ cs a, depth_loop get_network_depth cs a
                  = a `max` depth_loop get_network_depth cs 0) as Hmax.
  { induction cs as [|c cs IHcs]; intros a; simpl; [lia|].
    destruct (is_COMP c); [|apply IHcs].
    rewrite IHcs, (IHcs (get_network_depth c + 1)). lia. }
  induction 1 as [|c cs Hc _ IH]; intros acc stats Hdepth.
  - exists [], stats. simpl. rewrite app_nil_r. split_and!; [done|done|lia..|].
    intros t. lia.
  - cbn [descendants_loop analyze_loop depth_loop].
    destruct (is_COMP c) eqn:Hcomp.
    + destruct (is_COMP_true c Hcomp) as (name & type & children & Heq).
      destruct (Hc name type children Heq (depth + 1)
                  (count_container (count_operator (OPType_of c) stats)))
        as (lc & st1 & -> & -> & Htot1 & Hcon1 & Hdep1 & Htyp1). simpl.
      destruct (IH ((acc ++ [c]) ++ lc) st1)
        as (l & st2 & -> & -> & Htot2 & Hcon2 & Hdep2 & Htyp2).
      { rewrite Hdep1. simpl. lia. }
      exists (c :: lc ++ l), st2. split_and!; [by rewrite <- !app_assoc|done|..].
      * rewrite Htot2, Htot1. simpl. rewrite !length_app. lia.
      * rewrite Hcon2, Hcon1. simpl.
        rewrite filter_cons_True by done. rewrite filter_app.
        simpl. rewrite !length_app. lia.
      * rewrite Hdep2, Hdep1. simpl.
        rewrite (Hmax cs (get_network_depth c + 1)). lia.
      * intros t. rewrite Htyp2, Htyp1.
        change (operators_by_type (count_container ?s)) with (operators_by_type s).
        rewrite count_operator_by_type.
        destruct (decide (OPType_of c = t)) as [Ht|Ht].
        -- rewrite filter_cons_True by done. rewrite filter_app.
           simpl. rewrite !length_app. lia.
        -- rewrite filter_cons_False by done. rewrite filter_app.
           rewrite !length_app. lia.
    + destruct (IH (acc ++ [c]) (count_operator (OPType_of c) stats))
        as (l & st2 & -> & -> & Htot2 & Hcon2 & Hdep2 & Htyp2); [done|].
      exists (c :: l), st2. split_and!; [by rewrite <- !app_assoc|done|..].
      * rewrite Htot2. simpl. lia.
      * rewrite Hcon2. simpl. rewrite filter_cons_False by (by rewrite Hcomp). lia.
      * rewrite Hdep2. simpl. lia.
      * intros t. rewrite Htyp2. rewrite count_operator_by_type.
        destruct (decide (OPType_of c = t)) as [Ht|Ht].
        -- rewrite filter_cons_True by done. simpl. lia.
        -- rewrite filter_cons_False by done. lia.
Qed.

Lemma analyze_comp_spec o :
  ∀ name type cs, o = Comp name type cs → ∀ d stats,
    ∃ l stats', get_all_descendants o = Some l ∧
      analyze_comp o d stats = Some stats' ∧
      total_operators stats' = total_operators stats + length l ∧
      containers stats' = containers stats + length (filter (λ x, is_COMP x = true) l) ∧
      max_depth stats' = max_depth stats `max` (d + get_network_depth o) ∧
      ∀ t, default 0 (operators_by_type stats' !! t)
           = default 0 (operators_by_type stats !! t)
             + length (filter (λ x, OPType_of x = t) l).
Proof.
  induction o as [name type|name type children IH] using Op_ind_nested;
    intros name' type' cs [= -> -> ->] d stats.
  destruct (analyze_loop_spec d cs IH [] (raise_depth d stats))
    as (l & stats' & Hl & Hs & Htot & Hcon & Hdep & Htyp); [simpl; lia|].
  exists l, stats'. split_and!; [done..| |done].
  rewrite Hdep, get_network_depth_comp. simpl. lia.
Qed.

(** X11: for a COMP, the statistics of [get_network_stats] agree with the
    other two utilities: [total_operators] is the number of operators
    [get_all_descendants] lists, [containers] the number of COMPs among
    them, [operators_by_type] the number of them of each type, and
    [max_depth] is [get_network_depth]. *)
Theorem get_network_stats_spec name type children :
  let root := Comp name type children in
  ∃ l stats,
    get_all_descendants root = Some l ∧
    get_network_stats root = Some stats ∧
    total_operators stats = length l ∧
    containers stats = length (filter (λ x, is_COMP x = true) l) ∧
    max_depth stats = get_network_depth root ∧
    ∀ t, default 0 (operators_by_type stats !! t)
         = length (filter (λ x, OPType_of x = t) l).
Proof.
  intros root. unfold get_network_stats.
  destruct (analyze_comp_spec root name type children eq_refl 0
              {| total_operators := 0; operators_by_type := ∅; max_depth := 0;
                 containers := 0 |})
    as (l & stats & Hl & Hs & Htot & Hcon & Hdep & Htyp).
  exists l, stats. split_and!; [done..|].
  intros t. rewrite Htyp. simpl. by rewrite lookup_empty.
Qed.

(** The hierarchy of [parent_child_traversal]: three TOPs and a base COMP
    holding two more. *)
Example stats_of_parent_comp :
  let parent_comp :=
    Comp "parent_container" "containerCOMP"
      [ Leaf "child_noise" "noiseTOP"; Leaf "child_level" "levelTOP";
        Comp "child_base" "baseCOMP"
          [ Leaf "grandchild_constant" "constantTOP";
            Leaf "grandchild_circle" "circleTOP" ] ] in
  (length <$> get_all_descendants parent_comp) = Some 5 ∧
  get_network_depth parent_comp = 1 ∧
  (max_depth <$> get_network_stats parent_comp) = Some 1 ∧
  (containers <$> get_network_stats parent_comp) = Some 1.
Proof. by vm_compute. Qed.

(** *** The common parent *)

Lemma suffix_cons_iff (l : list string) n outer :
  l `suffix_of` n :: outer ↔ l = n :: outer ∨ l `suffix_of` outer.
Proof.
  split.
  - intros [[|a k] Hk]; simpl in Hk; [by left|].
    right. injection Hk as -> ->. by exists k.
  - intros [->|[k ->]]; [done|]. by exists (n :: k).
Qed.

Lemma elem_of_parents_of current x : x ∈ parents_of current ↔ x `suffix_of` current.
Proof.
  induction current as [|n outer IH]; simpl.
  - rewrite list_elem_of_singleton. split; [by intros ->|].
    intros Hs. by apply suffix_nil_inv.
  - rewrite elem_of_cons, suffix_cons_iff. by rewrite IH.
Qed.

Lemma first_common_spec parents1 current :
  (∃ x, x ∈ parents1 ∧ x `suffix_of` current) →
  ∃ common, first_common parents1 current = Some common ∧
    common ∈ parents1 ∧ common `suffix_of` current ∧
    ∀ x, x ∈ parents1 → x `suffix_of` current → x `suffix_of` common.
Proof.
  induction current as [|n outer IH]; intros (x & Hx & Hs); simpl.
  - apply suffix_nil_inv in Hs as ->. rewrite decide_True by done.
    exists []. split_and!; [done..|]. by intros y _ Hy.
  - case_decide as Hin.
    + exists (n :: outer). split_and!; [done..|]. by intros y _ Hy.
    + apply suffix_cons_iff in Hs as [->|Hs]; [done|].
      destruct IH as (common & -> & Hc & Hcs & Hbest); [by exists x|].
      exists common. split_and!; [done..|by apply suffix_cons_r|].
      intros y Hy [->|Hys]%suffix_cons_iff; [done|by apply Hbest].
Qed.

(** X12: [find_common_parent] never returns [None] for two operators of
    one hierarchy: it returns a container around both (an operator
    counting as around itself), and every container around both is
    around, or is, the one returned. *)
Theorem find_common_parent_spec op1 op2 :
  ∃ common, find_common_parent op1 op2 = Some common ∧
    common `suffix_of` op1 ∧ common `suffix_of` op2 ∧
    ∀ x, x `suffix_of` op1 → x `suffix_of` op2 → x `suffix_of` common.
Proof.
  unfold find_common_parent.
  destruct (first_common_spec (parents_of op1) op2) as (common & Hc & Hin & Hs & Hbest).
  { exists []. split; [apply elem_of_parents_of|]; apply suffix_nil. }
  exists common. split_and!; [done|by apply elem_of_parents_of|done|].
  intros x Hx1 Hx2. apply Hbest; [by apply elem_of_parents_of|done].
Qed.

(** [b1_noise_0] in [branch1] and [b2_const_0] in [branch2], both in
    [util_root]. *)
Example common_parent_of_branches :
  find_common_parent ["b1_noise_0"; "branch1"; "util_root"; "project1"]
                     ["b2_const_0"; "branch2"; "util_root"; "project1"]
  = Some ["util_root"; "project1"].
Proof. by vm_compute. Qed.

(** *** NetworkCache *)

Section Cache.
Context {H : Type} (op : string → H → option OP).

(** X13: once [NetworkCache.get(path)] has answered, every later
    [get(path)] gives the same answer without consulting the host,
    whatever has happened there in between (a path that did not exist
    stays [None]); lookups of other paths never change that; and after
    [clear()] the host is asked again. *)
Theorem cache_get_is_sticky cache path h :
  let first := cache_get op cache path h in
  (∀ h', cache_get op first.2 path h' = (first.1, first.2)) ∧
  (∀ other h' h'',
     (cache_get op (cache_get op first.2 other h').2 path h'').1 = first.1) ∧
  ∀ h', cache_get op (cache_clear first.2) path h'
        = (op path h', {[path := op path h']}).
Proof.
  assert (∀ c p h0, (cache_get op c p h0).2 !! p = Some (cache_get op c p h0).1)
    as Hstored.
  { intros c p h0. unfold cache_get. destruct (c !! p) eqn:E; simpl; [done|].
    by rewrite lookup_insert_eq. }
  assert (∀ c p r h0, c !! p = Some r → cache_get op c p h0 = (r, c)) as Hhit.
  { intros c p r h0 E. unfold cache_get. by rewrite E. }
  intros first. split_and!.
  - intros h'. apply Hhit, Hstored.
  - intros other h' h''. erewrite Hhit; [done|].
    unfold cache_get at 1. destruct (first.2 !! other) eqn:E; simpl; [apply Hstored|].
    rewrite lookup_insert_ne; [apply Hstored|]. intros ->.
    unfold first in E. by rewrite Hstored in E.
  - intros h'. unfold cache_clear, cache_get. by rewrite lookup_empty.
Qed.

End Cache.

End HierarchyFacts.

(** ** performance_optimization_examples.py: more on the operator pool *)

Module PoolFacts.
Import Host Performance PerformanceFacts.

(** *** What the attribute assignments change *)

Lemma set_bypass_other o v (proj : Project) o' :
  o ≠ o' → set_bypass o v proj !! o' = proj !! o'.
Proof. intros. by apply lookup_alter_ne. Qed.

Lemma set_nodeX_other o v (proj : Project) o' :
  o ≠ o' → set_nodeX o v proj !! o' = proj !! o'.
Proof. intros. by apply lookup_alter_ne. Qed.

Lemma set_nodeY_other o v (proj : Project) o' :
  o ≠ o' → set_nodeY o v proj !! o' = proj !! o'.
Proof. intros. by apply lookup_alter_ne. Qed.

Lemma set_par_other o p v (proj : Project) o' :
  o ≠ o' → set_par o p v proj !! o' = proj !! o'.
Proof. intros. by apply lookup_alter_ne. Qed.

Lemma reset_operator_other (proj : Project) o o' :
  o ≠ o' → reset_operator proj o !! o' = proj !! o'.
Proof.
  intros Hne. unfold reset_operator.
  destruct (has_par o "seed" proj); destruct (has_par o "period" _);
    rewrite ?set_par_other by done; done.
Qed.

Lemma dom_set_par o p v (proj : Project) : dom (set_par o p v proj) = dom proj.
Proof. apply dom_alter_L. Qed.

Lemma dom_reset_operator (proj : Project) o : dom (reset_operator proj o) = dom proj.
Proof.
  unfold reset_operator.
  destruct (has_par o "seed" proj); destruct (has_par o "period" _);
    rewrite ?dom_set_par; done.
Qed.

(** [reset_operator] on an operator of the project. *)
Lemma reset_operator_lookup (proj : Project) o r :
  proj !! o = Some r →
  ∃ r', reset_operator proj o !! o = Some r' ∧
    op_type r' = op_type r ∧ name r' = name r ∧ nodeX r' = nodeX r ∧
    nodeY r' = nodeY r ∧ bypass r' = bypass r ∧
    (is_Some (par r !! "seed") → par r' !! "seed" = Some 0%Z) ∧
    (is_Some (par r !! "period") → par r' !! "period" = Some 1%Z) ∧
    dom (par r') = dom (par r) ∧
    ∀ p, p ≠ "seed" → p ≠ "period" → par r' !! p = par r !! p.
Proof.
  intros Hr. unfold reset_operator.
  assert (has_par o "seed" proj = bool_decide (is_Some (par r !! "seed"))) as ->.
  { unfold has_par. by rewrite Hr. }
  destruct (bool_decide (is_Some (par r !! "seed"))) eqn:Hseed.
  - apply bool_decide_eq_true in Hseed.
    set (r1 := {| op_type := op_type r; name := name r; nodeX := nodeX r;
                  nodeY := nodeY r; bypass := bypass r;
                  par := <["seed" := 0%Z]> (par r) |}).
    assert (set_par o "seed" 0 proj !! o = Some r1) as Hr1.
    { unfold set_par. by rewrite lookup_alter_eq, Hr. }
    assert (has_par o "period" (set_par o "seed" 0 proj)
            = bool_decide (is_Some (par r !! "period"))) as ->.
    { unfold has_par. rewrite Hr1. simpl. by rewrite lookup_insert_ne. }
    destruct (bool_decide (is_Some (par r !! "period"))) eqn:Hperiod.
    + apply bool_decide_eq_true in Hperiod.
      eexists. split; [unfold set_par at 1; by rewrite lookup_alter_eq, Hr1|].
      simpl. split_and!; [done..| | | |].
      * intros _. by rewrite lookup_insert_ne, lookup_insert_eq.
      * intros _. by rewrite lookup_insert_eq.
      * rewrite !dom_insert_L. apply elem_of_dom in Hseed, Hperiod.
        apply set_eq. intros p. rewrite !elem_of_union, !elem_of_singleton.
        split; [intros [->|[->|?]]; done|auto].
      * intros p Hp1 Hp2. by rewrite !lookup_insert_ne.
    + apply bool_decide_eq_false in Hperiod.
      exists r1. split; [done|]. simpl. split_and!; [done..| | | |].
      * intros _. by rewrite lookup_insert_eq.
      * done.
      * rewrite dom_insert_L. apply elem_of_dom in Hseed.
        apply set_eq. intros p. rewrite elem_of_union, elem_of_singleton.
        split; [intros [->|?]; done|auto].
      * intros p Hp1 Hp2. by rewrite lookup_insert_ne.
  - apply bool_decide_eq_false in Hseed.
    assert (has_par o "period" proj = bool_decide (is_Some (par r !! "period"))) as ->.
    { unfold has_par. by rewrite Hr. }
    destruct (bool_decide (is_Some (par r !! "period"))) eqn:Hperiod.
    + apply bool_decide_eq_true in Hperiod.
      eexists. split; [unfold set_par; by rewrite lookup_alter_eq, Hr|].
      simpl. split_and!; [done..| | | |].
      * done.
      * intros _. by rewrite lookup_insert_eq.
      * rewrite dom_insert_L. apply elem_of_dom in Hperiod.
        apply set_eq. intros p. rewrite elem_of_union, elem_of_singleton.
        split; [intros [->|?]; done|auto].
      * intros p Hp1 Hp2. by rewrite lookup_insert_ne.
    + exists r. split; [done|]. split_and!; try done.
      intros Hp. by apply bool_decide_eq_false in Hperiod.
Qed.

(** *** [release] then [acquire] *)

(** X14: an operator that is released while in use is the one the next
    [acquire()] hands out again, active ([bypass] off); [available] is
    then as before the release and the operator is the newest entry of
    [in_use]. *)
Theorem release_then_acquire proj pool op_obj :
  op_obj ∈ in_use pool →
  let released := release proj pool op_obj in
  let acquired := acquire released.1 released.2 in
  acquired.1.1 = Some op_obj ∧
  acquired.1.2 = set_bypass op_obj false released.1 ∧
  available acquired.2 = available pool ∧
  in_use acquired.2 = remove_first op_obj (in_use pool) ++ [op_obj].
Proof.
  intros Hin. unfold release. rewrite decide_True by done. simpl.
  unfold acquire. simpl. by rewrite pop_snoc.
Qed.

Lemma release_then_acquire_witness :
  let st := run [Acquire; Acquire] (new_pool ∅ noiseTOP 3 "pool") in
  let released := release st.1 st.2 2 in
  (acquire released.1 released.2).1.1 = Some 2.
Proof.
  intros st.
  apply (release_then_acquire st.1 st.2 2).
  vm_compute. apply list_elem_of_here.
Defined.

(** X15: [release] of an operator in use turns [bypass] on, moves it to
    (-1000, -1000), sets [seed] to 0 and [period] to 1 where the operator
    has such a parameter, and leaves its type, its name, every other
    parameter and every other operator as they were, adding no
    parameter. *)
Theorem release_resets_operator (proj : Project) pool op_obj r :
  op_obj ∈ in_use pool →
  proj !! op_obj = Some r →
  let proj' := (release proj pool op_obj).1 in
  (∃ r', proj' !! op_obj = Some r' ∧
     bypass r' = true ∧ nodeX r' = (-1000)%Z ∧ nodeY r' = (-1000)%Z ∧
     op_type r' = op_type r ∧ name r' = name r ∧
     (is_Some (par r !! "seed") → par r' !! "seed" = Some 0%Z) ∧
     (is_Some (par r !! "period") → par r' !! "period" = Some 1%Z) ∧
     dom (par r') = dom (par r) ∧
     ∀ p, p ≠ "seed" → p ≠ "period" → par r' !! p = par r !! p) ∧
  ∀ o, o ≠ op_obj → proj' !! o = proj !! o.
Proof.
  intros Hin Hr. unfold release. rewrite decide_True by done. simpl. split.
  - set (r1 := {| op_type := op_type r; name := name r; nodeX := (-1000)%Z;
                  nodeY := (-1000)%Z; bypass := true; par := par r |}).
    destruct (reset_operator_lookup
                (set_nodeY op_obj (-1000) (set_nodeX op_obj (-1000)
                   (set_bypass op_obj true proj))) op_obj r1)
      as (r' & Hr' & Hty & Hnm & Hx & Hy & Hb & Hseed & Hperiod & Hdom & Hrest).
    { unfold set_nodeY, set_nodeX, set_bypass.
      by rewrite !lookup_alter_eq, Hr. }
    exists r'. split_and!; done.
  - intros o Ho.
    by rewrite reset_operator_other, set_nodeY_other, set_nodeX_other,
      set_bypass_other.
Qed.

Lemma release_resets_operator_witness :
  let st := run [Acquire] (new_pool ∅ noiseTOP 2 "pool") in
  (release st.1 st.2 1).1 !! 0 = st.1 !! 0.
Proof.
  intros st.
  destruct (release_resets_operator st.1 st.2 1
              {| op_type := noiseTOP; name := "pool_1"; nodeX := -1000;
                 nodeY := -1000; bypass := false; par := default_pars noiseTOP |})
    as [_ H]; [vm_compute; apply list_elem_of_here|by vm_compute|].
  by apply H.
Defined.

(** *** The pool and the rest of the project *)

Lemma acquire_touches_only_pool (proj : Project) pool o :
  o ∉ available pool →
  (acquire proj pool).1.2 !! o = proj !! o ∧
  dom (acquire proj pool).1.2 = dom proj.
Proof.
  intros Ho. unfold acquire.
  destruct (pop (available pool)) as [[op_obj avail]|] eqn:Hpop; simpl; [|done].
  apply pop_Some in Hpop. split; [|apply dom_set_bypass].
  apply set_bypass_other. intros ->. apply Ho. rewrite Hpop.
  apply elem_of_app. right. apply list_elem_of_here.
Qed.

Lemma release_touches_only_pool (proj : Project) pool op_obj o :
  o ∉ in_use pool →
  (release proj pool op_obj).1 !! o = proj !! o ∧
  dom (release proj pool op_obj).1 = dom proj.
Proof.
  intros Ho. unfold release.
  destruct (decide (op_obj ∈ in_use pool)) as [Hin|]; simpl; [|done]. split.
  - assert (op_obj ≠ o) as Hne by (by intros ->).
    by rewrite reset_operator_other, set_nodeY_other, set_nodeX_other,
      set_bypass_other.
  - by rewrite dom_reset_operator, dom_set_nodeY, dom_set_nodeX, dom_set_bypass.
Qed.

Lemma do_call_touches_only_pool st c o :
  o ∉ available st.2 ++ in_use st.2 →
  (do_call st c).1 !! o = st.1 !! o ∧ dom (do_call st c).1 = dom st.1.
Proof.
  intros Ho. apply not_elem_of_app in Ho as [Ha Hu].
  destruct c as [|op_obj]; simpl.
  - pose proof (acquire_touches_only_pool st.1 st.2 o Ha) as H.
    by destruct (acquire st.1 st.2) as [[res proj'] pool'].
  - by apply release_touches_only_pool.
Qed.

Lemma do_call_dom st c : dom (do_call st c).1 = dom st.1.
Proof.
  destruct c as [|op_obj]; simpl.
  - unfold acquire. destruct (pop (available st.2)) as [[o avail]|]; simpl; [|done].
    apply dom_set_bypass.
  - unfold release. destruct (decide (op_obj ∈ in_use st.2)); simpl; [|done].
    by rewrite dom_reset_operator, dom_set_nodeY, dom_set_nodeX, dom_set_bypass.
Qed.

Lemma run_touches_only_pool calls :
  ∀ st o, o ∉ available st.2 ++ in_use st.2 →
          (run calls st).1 !! o = st.1 !! o.
Proof.
  unfold run. induction calls as [|c calls IH]; intros st o Ho; [done|].
  cbn [foldl]. rewrite IH.
  - by apply do_call_touches_only_pool.
  - intros Hin. apply Ho.
    destruct (run_keeps_operators [c] st) as [Hperm _].
    unfold run in Hperm. cbn [foldl] in Hperm. by rewrite <- Hperm.
Qed.

Lemma run_dom calls : ∀ st, dom (run calls st).1 = dom st.1.
Proof.
  unfold run. induction calls as [|c calls IH]; intros st; [done|].
  cbn [foldl]. by rewrite IH, do_call_dom.
Qed.

(** X16: no sequence of [acquire()] and [release()] calls creates or
    destroys an operator, and none changes an operator that is not in
    the pool. *)
Theorem pool_calls_stay_in_pool calls st :
  dom (run calls st).1 = dom st.1 ∧
  ∀ o, o ∉ available st.2 ++ in_use st.2 → (run calls st).1 !! o = st.1 !! o.
Proof. split; [apply run_dom|apply run_touches_only_pool]. Qed.

(** *** [cleanup] *)

Lemma cleanup_lookup l : ∀ (proj : Project) o,
  foldl (λ proj op_obj, destroy op_obj proj) proj l !! o
  = if decide (o ∈ l) then None else proj !! o.
Proof.
  induction l as [|x l IH]; intros proj o; simpl; [done|].
  rewrite IH. unfold destroy.
  destruct (decide (o ∈ l)) as [Hin|Hout].
  - rewrite decide_True; [done|by apply list_elem_of_further].
  - destruct (decide (x = o)) as [->|Hne].
    + rewrite lookup_delete_eq, decide_True; [done|apply list_elem_of_here].
    + rewrite lookup_delete_ne by done. rewrite decide_False; [done|].
      by intros [->|?]%elem_of_cons.
Qed.

Lemma precreate_keeps ty prefix indices :
  ∀ (proj : Project) avail o,
    o ∈ dom proj → (precreate proj ty prefix indices avail).1 !! o = proj !! o.
Proof.
  induction indices as [|i indices IH]; intros proj avail o Ho; [done|].
  cbn [precreate].
  destruct (create proj ty (prefix +:+ "_" +:+ pretty i)) as [o1 proj1] eqn:Hc.
  pose proof (create_fresh proj ty (prefix +:+ "_" +:+ pretty i)) as [Hfresh Hdom].
  rewrite Hc in Hfresh, Hdom. simpl in Hfresh, Hdom.
  assert (o1 ≠ o) as Hne by (by intros ->).
  rewrite IH.
  - rewrite set_bypass_other, set_nodeY_other, set_nodeX_other by done.
    unfold create in Hc. injection Hc as <- <-. by rewrite lookup_insert_ne.
  - rewrite dom_set_bypass, dom_set_nodeY, dom_set_nodeX, Hdom.
    by apply elem_of_union_r.
Qed.

(** X17: building a pool, making any sequence of [acquire()] and
    [release()] calls on it and then calling [cleanup()] leaves the
    project exactly as it was before the pool was built: every pooled
    operator is destroyed and nothing else has changed. *)
Theorem pool_lifecycle_restores_project (proj : Project) ty size prefix calls :
  let st := run calls (new_pool proj ty size prefix) in
  cleanup st.1 st.2 = proj.
Proof.
  intros st. unfold cleanup. apply map_eq. intros o. rewrite cleanup_lookup.
  destruct (run_keeps_operators calls (new_pool proj ty size prefix)) as [Hperm _].
  fold st in Hperm.
  pose proof (run_touches_only_pool calls (new_pool proj ty size prefix) o) as Hkeep.
  fold st in Hkeep. revert Hperm Hkeep. unfold new_pool.
  destruct (precreate_spec ty prefix (seq 0 (Z.to_nat size)) proj [])
    as (created & Havail & _ & _ & Hnew & Hdom).
  pose proof (precreate_keeps ty prefix (seq 0 (Z.to_nat size)) proj [] o) as Hold.
  destruct (precreate proj ty prefix (seq 0 (Z.to_nat size)) []) as [proj0 avail].
  simpl in *. subst avail. rewrite app_nil_r. intros Hperm Hkeep.
  destruct (decide (o ∈ available st.2 ++ in_use st.2)) as [Hin|Hout].
  - rewrite Hperm in Hin. symmetry. apply not_elem_of_dom. by apply Hnew.
  - rewrite Hkeep by by rewrite <- Hperm.
    destruct (decide (o ∈ dom proj)) as [Ho|Ho]; [by apply Hold|].
    rewrite (proj1 (not_elem_of_dom proj o) Ho). apply not_elem_of_dom.
    rewrite Hdom, not_elem_of_union, elem_of_list_to_set. split; [|done].
    by rewrite <- Hperm.
Qed.

(** *** What the constructor creates *)

Lemma precreate_attributes ty prefix indices :
  ∀ (proj : Project) avail,
    let built := precreate proj ty prefix indices avail in
    ∀ k i o, indices !! k = Some i → built.2 !! (length avail + k) = Some o →
      built.1 !! o
      = Some {| op_type := ty; name := prefix +:+ "_" +:+ pretty i;
                nodeX := (-1000)%Z; nodeY := (-1000)%Z; bypass := true;
                par := default_pars ty |}.
Proof.
  induction indices as [|i indices IH]; intros proj avail built k j o Hk Ho;
    [done|].
  unfold built in *. clear built. cbn [precreate] in *.
  destruct (create proj ty (prefix +:+ "_" +:+ pretty i)) as [o1 proj1] eqn:Hc.
  pose proof (create_fresh proj ty (prefix +:+ "_" +:+ pretty i)) as [Hfresh Hdom].
  rewrite Hc in Hfresh, Hdom. simpl in Hfresh, Hdom.
  set (proj2 := set_bypass o1 true (set_nodeY o1 (-1000) (set_nodeX o1 (-1000) proj1)))
    in *.
  assert (dom proj2 = {[o1]} ∪ dom proj) as Hdom2.
  { unfold proj2. by rewrite dom_set_bypass, dom_set_nodeY, dom_set_nodeX. }
  destruct k as [|k].
  - injection Hk as ->.
    destruct (precreate_spec ty prefix indices proj2 (avail ++ [o1]))
      as (created & Havail & _).
    rewrite Havail, Nat.add_0_r in Ho.
    rewrite <- app_assoc, lookup_app_r, Nat.sub_diag in Ho by lia.
    injection Ho as <-.
    rewrite precreate_keeps.
    + unfold proj2, set_bypass, set_nodeY, set_nodeX.
      rewrite !lookup_alter_eq. unfold create in Hc. injection Hc as <- <-.
      by rewrite lookup_insert_eq.
    + rewrite Hdom2. apply elem_of_union_l. by apply elem_of_singleton.
  - apply (IH proj2 (avail ++ [o1]) k); [done|].
    rewrite length_app. simpl. by replace (length avail + 1 + k) with (length avail + S k) by lia.
Qed.

(** X18: [OperatorPool(op_type, pool_size, name_prefix)] creates, for each
    [i] below [pool_size], an operator of type [op_type] named
    [name_prefix_i] with its default parameters, bypassed and placed at
    (-1000, -1000); the [i]-th entry of [available] is that operator; and
    for a [pool_size] of zero or less it creates nothing. *)
Theorem new_pool_operators (proj : Project) ty size prefix :
  let built := new_pool proj ty size prefix in
  (∀ i, i < Z.to_nat size →
     ∃ o, available built.2 !! i = Some o ∧ (o ∉ dom proj) ∧
       built.1 !! o
       = Some {| op_type := ty; name := prefix +:+ "_" +:+ pretty i;
                 nodeX := (-1000)%Z; nodeY := (-1000)%Z; bypass := true;
                 par := default_pars ty |}) ∧
  ((size ≤ 0)%Z → built.1 = proj ∧ available built.2 = []).
Proof.
  intros built. split.
  - intros i Hi.
    pose proof (precreate_attributes ty prefix (seq 0 (Z.to_nat size)) proj []) as Hattr.
    destruct (precreate_spec ty prefix (seq 0 (Z.to_nat size)) proj [])
      as (created & Havail & Hlen & _ & Hnew & _).
    unfold built, new_pool.
    destruct (precreate proj ty prefix (seq 0 (Z.to_nat size)) []) as [proj0 avail].
    simpl in *. subst avail. rewrite length_seq in Hlen.
    destruct (lookup_lt_is_Some_2 created i) as [o Ho]; [lia|].
    exists o. split_and!; [done| |].
    + apply Hnew. by eapply list_elem_of_lookup_2.
    + apply (Hattr i i o); [by apply lookup_seq_lt|done].
  - intros Hsize. unfold built, new_pool.
    replace (Z.to_nat size) with 0 by lia. done.
Qed.

End PoolFacts.

(** ** error_handling_examples.py: recovery and validation patterns *)

Module RecoveryFacts.
Import Host Connection ErrorHandling Recovery ConnectionFacts ErrorHandlingFacts.
Import Dynamic.

Section Wrappers.
Context {H Value : Type} (api : HostAPI H Value).

(** X19: [safe_operator_creation] and [safe_op_access] never raise,
    whatever the host does: [safe_operator_creation] returns the operator
    exactly when [create] returned one and prints one line either way;
    [safe_op_access] returns exactly what [op(path)] returned when it
    returned, and [None] when it raised. *)
Theorem safe_creation_and_access_total parent op_type name path w :
  (∃ w', safe_operator_creation api parent op_type name w
         = (Ok (match (h_create api parent op_type name (host w)).1 with
                | Ok o => Some o
                | Raise _ => None
                end), w') ∧
         length (stdout w') = S (length (stdout w))) ∧
  (∃ w', safe_op_access api path w
         = (Ok (match (h_op api path (host w)).1 with
                | Ok found => found
                | Raise _ => None
                end), w')).
Proof.
  split.
  - unfold safe_operator_creation, try_except, mbind, M_bind, bind, host_call,
      print, ret.
    destruct (h_create api parent op_type name (host w)) as [[o|e] h]; simpl;
      eexists; (split; [reflexivity|]); simpl; rewrite length_app; simpl; lia.
  - unfold safe_op_access, try_except, mbind, M_bind, bind, host_call, print, ret.
    destruct (h_op api path (host w)) as [[[o|]|e] h]; simpl; by eexists.
Qed.

(** X20: [safe_parameter_set] never raises; it returns [True] exactly
    when an operator was given, the parameter exists and is not
    read-only and the assignment went through, and then prints nothing;
    otherwise it prints one line; and when the operator is [None], the
    parameter is missing or it is read-only, the host is not touched. *)
Theorem safe_parameter_set_guards operator param_name value w :
  ∃ b w', safe_parameter_set api operator param_name value w = (Ok b, w') ∧
    (b = true ↔
       ∃ o h', operator = Some o ∧
         h_has_par api o param_name (host w) = true ∧
         h_read_only api o param_name (host w) = false ∧
         h_set_val api o param_name value (host w) = (Ok (), h')) ∧
    (b = true → stdout w' = stdout w) ∧
    (b = false → length (stdout w') = S (length (stdout w))) ∧
    ((operator = None ∨
      ∃ o, operator = Some o ∧
        (h_has_par api o param_name (host w) = false ∨
         h_read_only api o param_name (host w) = true)) →
     host w' = host w).
Proof.
  unfold safe_parameter_set, try_except, mbind, M_bind, bind, host_call, raise,
    print, ret.
  destruct operator as [o|]; simpl.
  - destruct (h_has_par api o param_name (host w)) eqn:Hhas; simpl.
    + destruct (h_read_only api o param_name (host w)) eqn:Hro; simpl.
      * eexists false, _. split; [reflexivity|]. simpl.
        split_and!; [|done|by rewrite length_app; simpl; lia|done].
        split; [done|]. intros (o' & h' & [= <-] & _ & Hro' & _). congruence.
      * destruct (h_set_val api o param_name value (host w)) as [[[]|e] h'] eqn:Hset;
          simpl.
        -- eexists true, _. split; [reflexivity|]. simpl.
           split_and!; [|done|done|].
           ++ split; [|done]. intros _. by exists o, h'.
           ++ intros [?|(o' & [= <-] & [?|?])]; congruence.
        -- destruct (exn_class e); simpl; eexists false, _;
             (split; [reflexivity|]); simpl;
             (split_and!; [|done|by rewrite length_app; simpl; lia|]);
             try (split; [done|]; intros (o' & h'' & [= <-] & _ & _ & Hs); congruence);
             intros [?|(o' & [= <-] & [?|?])]; congruence.
    + eexists false, _. split; [reflexivity|]. simpl.
      split_and!; [|done|by rewrite length_app; simpl; lia|done].
      split; [done|]. intros (o' & h' & [= <-] & Hhas' & _). congruence.
  - eexists false, _. split; [reflexivity|]. simpl.
    split_and!; [|done|by rewrite length_app; simpl; lia|done].
    split; [done|]. by intros (o' & h' & ? & _).
Qed.

(** X21: inside [with OperatorContext(...)], a body that returns leaves
    the created operator in place; when the body raises, the operator is
    destroyed, one line is printed and the body's exception reaches the
    caller; and when [destroy] itself raises, that second exception is
    dropped and the body's exception still reaches the caller. *)
Theorem with_context_cleans_up {A} self (body : OP → M H A) w o h1 :
  h_create api (ctx_parent self) (ctx_op_type self) (ctx_name self) (host w)
  = (Ok o, h1) →
  let w1 := {| host := h1; stdout := stdout w; log_text := log_text w |} in
  (∀ a w2, body o w1 = (Ok a, w2) →
     with_context api self body w = (Ok (Some a), w2)) ∧
  (∀ e w2 h3, body o w1 = (Raise e, w2) →
     h_destroy api o (host w2) = (Ok (), h3) →
     with_context api self body w
     = (Raise e, printed w2 h3 ("Cleaned up " +:+ ctx_name self +:+ " due to error"))) ∧
  (∀ e w2 e' h3, body o w1 = (Raise e, w2) →
     h_destroy api o (host w2) = (Raise e', h3) →
     with_context api self body w
     = (Raise e, {| host := h3; stdout := stdout w2; log_text := log_text w2 |})).
Proof.
  intros Hc w1. split_and!.
  - intros a w2 Hb.
    unfold with_context, ctx_enter, ctx_exit, observe, try_except, mbind, M_bind,
      bind, host_call, ret. rewrite Hc. simpl. fold w1. by rewrite Hb.
  - intros e w2 h3 Hb Hd.
    unfold with_context, ctx_enter, ctx_exit, observe, try_except, mbind, M_bind,
      bind, host_call, ret, print, raise. rewrite Hc. simpl. fold w1.
    rewrite Hb. simpl. by rewrite Hd.
  - intros e w2 e' h3 Hb Hd.
    unfold with_context, ctx_enter, ctx_exit, observe, try_except, mbind, M_bind,
      bind, host_call, ret, print, raise. rewrite Hc. simpl. fold w1.
    rewrite Hb. simpl. by rewrite Hd.
Qed.

(** X22: the wrapper made by [debug_operation] is transparent: it ends
    the way the wrapped call ends, with the same result or the same
    exception, leaves the host and the console as the call left them,
    and only appends to the log. *)
Theorem debug_operation_transparent {A} func_name call_repr (func : M H A) w :
  let w1 := (logger_info api ("Calling " +:+ func_name +:+ " with " +:+ call_repr) w).2 in
  let wrapped := debug_operation api func_name call_repr func w in
  wrapped.1 = (func w1).1 ∧
  host wrapped.2 = host (func w1).2 ∧
  stdout wrapped.2 = stdout (func w1).2 ∧
  ∃ entry, log_text wrapped.2 = log_text (func w1).2 +:+ entry.
Proof.
  intros w1 wrapped. unfold wrapped, debug_operation, try_except, mbind, M_bind, bind.
  change ((logger_info api ("Calling " +:+ func_name +:+ " with " +:+ call_repr) w))
    with (Ok (), w1). simpl.
  destruct (func w1) as [[a|e] w2]; simpl; split_and!; try done; by eexists.
Qed.

End Wrappers.

Lemma with_context_cleans_up_witness :
  with_context naming_api
    {| ctx_parent := 0; ctx_op_type := "constantTOP"; ctx_name := "context_test";
       ctx_operator := None |}
    (λ _, raise division_by_zero : M (list string) Z)
    {| host := []; stdout := []; log_text := "" |}
  = (Raise division_by_zero,
     {| host := ["context_test"];
        stdout := ["Cleaned up context_test due to error"]; log_text := "" |}).
Proof.
  destruct (with_context_cleans_up naming_api
              {| ctx_parent := 0; ctx_op_type := "constantTOP";
                 ctx_name := "context_test"; ctx_operator := None |}
              (λ _, raise division_by_zero : M (list string) Z)
              {| host := []; stdout := []; log_text := "" |}
              0 ["context_test"] eq_refl) as (_ & H & _).
  exact (H division_by_zero _ ["context_test"] eq_refl eq_refl).
Defined.


(** *** NetworkState *)

Section State.
Context {Value : Type}.
Implicit Types (ps : gmap string (Par Value)) (saved : gmap string Value).

Lemma restore_parameter_dom ps entry :
  dom (restore_parameter ps entry) = dom ps.
Proof.
  destruct entry as [n v]. simpl. destruct (ps !! n) as [p|] eqn:E; [|done].
  destruct (par_read_only p); [done|].
  rewrite dom_insert_L. apply elem_of_dom_2 in E.
  apply set_eq. intros x. rewrite elem_of_union, elem_of_singleton.
  split; [intros [->|?]; done|auto].
Qed.

Lemma restore_dom (l : list (string * Value)) :
  ∀ ps, dom (foldl restore_parameter ps l) = dom ps.
Proof.
  induction l as [|entry l IH]; intros ps; [done|].
  cbn [foldl]. by rewrite IH, restore_parameter_dom.
Qed.

Lemma restore_parameter_read_only ps entry par_name p :
  ps !! par_name = Some p → par_read_only p = true →
  restore_parameter ps entry !! par_name = Some p.
Proof.
  destruct entry as [n v]. simpl. intros Hp Hro.
  destruct (decide (n = par_name)) as [->|Hne].
  - by rewrite Hp, Hro.
  - destruct (ps !! n) as [q|]; [|done].
    destruct (par_read_only q); [done|]. by rewrite lookup_insert_ne.
Qed.

Lemma restore_read_only (l : list (string * Value)) :
  ∀ ps par_name p,
    ps !! par_name = Some p → par_read_only p = true →
    foldl restore_parameter ps l !! par_name = Some p.
Proof.
  induction l as [|entry l IH]; intros ps par_name p Hp Hro; [done|].
  cbn [foldl]. apply IH; [|done]. by apply restore_parameter_read_only.
Qed.

Lemma restore_same (l : list (string * Value)) :
  ∀ ps,
    (∀ n v, (n, v) ∈ l → ∃ p, ps !! n = Some p ∧ par_eval p = Some v) →
    foldl restore_parameter ps l = ps.
Proof.
  induction l as [|[n v] l IH]; intros ps Hl; [done|].
  cbn [foldl].
  assert (restore_parameter ps (n, v) = ps) as ->.
  { destruct (Hl n v) as (p & Hp & Hv); [apply list_elem_of_here|].
    simpl. rewrite Hp. destruct (par_read_only p) eqn:Hro; [done|].
    apply map_eq. intros k. destruct (decide (n = k)) as [<-|Hne].
    - rewrite lookup_insert_eq, Hp. destruct p. simpl in *. by subst.
    - by rewrite lookup_insert_ne. }
  apply IH. intros k u Hk. apply Hl. by apply list_elem_of_further.
Qed.

(** X23: [save_operator_state] records under the operator's path its
    position and, for exactly the parameters whose [eval()] returns, the
    value returned; [restore_operator_state] called right after it returns
    [True], having assigned to [nodeX], to [nodeY] and to each recorded
    parameter that is not read-only the value just read from it.  The
    operator's type, name, path and position, what each of its parameters
    evaluates to and whether it is read-only are then as they were.  A
    parameter is modelled by what it evaluates to and whether it can be
    assigned: an expression or an export behind a parameter is outside
    the model, and nothing is stated about what the assignment does to
    it. *)
Theorem save_restore_identity (state : gmap string (OpState Value))
    (operator : Operator Value) :
  let saved := save_operator_state state (Some operator) in
  ∃ op_state,
    saved !! path operator = Some op_state ∧
    st_position op_state = (nodeX operator, nodeY operator) ∧
    (∀ par_name v,
       st_parameters op_state !! par_name = Some v ↔
       ∃ p, pars operator !! par_name = Some p ∧ par_eval p = Some v) ∧
    restore_operator_state saved (Some operator) = (true, Some operator).
Proof.
  intros saved. unfold saved, restore_operator_state, save_operator_state.
  rewrite lookup_insert_eq. eexists. split; [reflexivity|]. simpl.
  assert (∀ par_name v,
            save_parameters (pars operator) !! par_name = Some v ↔
            ∃ p, pars operator !! par_name = Some p ∧ par_eval p = Some v)
    as Hsaved.
  { intros n v. rewrite save_parameters_lookup.
    destruct (pars operator !! n) as [p|]; simpl.
    - split; [by exists p|]. by intros (q & [= <-] & Hv).
    - split; [done|]. by intros (q & [=] & _). }
  split_and!; [done|done|].
  rewrite restore_same; [by destruct operator|].
  intros n v Hin%elem_of_map_to_list. by apply Hsaved.
Qed.

(** X24: [restore_operator_state] returns [False] and changes nothing
    for [None] and for an operator whose path was never saved; when it
    returns [True] it keeps the operator's type, name and path, adds and
    removes no parameter, and leaves every parameter that is read-only or
    was not captured exactly as it is. *)
Theorem restore_changes_only_captured (state : gmap string (OpState Value))
    (operator : Operator Value) :
  restore_operator_state state None = (false, None) ∧
  (state !! path operator = None →
   restore_operator_state state (Some operator) = (false, Some operator)) ∧
  ∀ op_state, state !! path operator = Some op_state →
    ∃ restored,
      restore_operator_state state (Some operator) = (true, Some restored) ∧
      type_name restored = type_name operator ∧
      name restored = name operator ∧
      path restored = path operator ∧
      dom (pars restored) = dom (pars operator) ∧
      (∀ par_name, st_parameters op_state !! par_name = None →
         pars restored !! par_name = pars operator !! par_name) ∧
      (∀ par_name p, pars operator !! par_name = Some p →
         par_read_only p = true → pars restored !! par_name = Some p).
Proof.
  split_and!; [done| |].
  - intros Hnone. unfold restore_operator_state. by rewrite Hnone.
  - intros op_state Hsaved. unfold restore_operator_state. rewrite Hsaved.
    eexists. split; [reflexivity|]. simpl. split_and!; [done..| | |].
    + apply restore_dom.
    + intros par_name Hnone. apply restore_untouched.
      intros ((n & v) & -> & Hin%elem_of_map_to_list)%list_elem_of_fmap.
      simpl in Hnone. congruence.
    + intros par_name p Hp Hro. by apply restore_read_only.
Qed.

End State.

Section Patterns.
Context {H Value Delay : Type} (api : HostAPI H Value)
  (sleep : Delay → H → result unit * H).

(** *** [retry_operation] *)

(** The line printed when attempt [j] has raised [e]. *)
Local Abbreviation failed_line j e :=
  ("Attempt " +:+ pretty (j + 1) +:+ " failed: " +:+ exn_msg e).

Lemma retry_loop_step_ok {A} (func : M H A) max_attempts delay k attempts w a w' :
  func w = (Ok a, w') →
  retry_loop sleep func max_attempts delay (k :: attempts) w
  = (Ok (Succeeded a), w').
Proof.
  intros Hf. cbn [retry_loop]. unfold try_except, mbind, M_bind, bind.
  by rewrite Hf.
Qed.

Lemma retry_loop_step_last {A} (func : M H A) max_attempts delay k attempts w e w' :
  func w = (Raise e, w') → ¬ (Z.of_nat k < max_attempts - 1)%Z →
  retry_loop sleep func max_attempts delay (k :: attempts) w
  = (Ok (GaveUp (exn_msg e)), printed w' (host w') (failed_line k e)).
Proof.
  intros Hf Hlast. cbn [retry_loop]. unfold try_except, mbind, M_bind, bind.
  rewrite Hf. unfold print. by rewrite decide_False by done.
Qed.

Lemma retry_loop_step_sleep {A} (func : M H A) max_attempts delay k attempts
    w e w' r h :
  func w = (Raise e, w') → (Z.of_nat k < max_attempts - 1)%Z →
  sleep delay (host w') = (r, h) →
  retry_loop sleep func max_attempts delay (k :: attempts) w
  = match r with
    | Ok _ => retry_loop sleep func max_attempts delay attempts
                (printed w' h (failed_line k e))
    | Raise e' => (Raise e', printed w' h (failed_line k e))
    end.
Proof.
  intros Hf Hmore Hs. cbn [retry_loop]. unfold try_except at 1.
  unfold mbind at 1, M_bind at 1, bind at 1. rewrite Hf.
  unfold mbind at 1, M_bind at 1, bind at 1, print at 1.
  rewrite decide_True by done.
  unfold mbind at 1, M_bind at 1, bind at 1, host_call at 1. simpl.
  rewrite Hs. by destruct r.
Qed.

Lemma retry_loop_chain {A} (func : M H A) max_attempts delay
    (ws wf : nat → World H) (hs : nat → H) (errors : nat → Exn) n :
  ∀ k0,
    Z.of_nat (k0 + n) = max_attempts →
    let fails j := func (ws j) = (Raise (errors j), wf j) in
    let rests j :=
      sleep delay (host (wf j)) = (Ok (), hs j) ∧
      ws (S j) = printed (wf j) (hs j) (failed_line j (errors j)) in
    (∀ k a w', k0 ≤ k → k < k0 + n →
       (∀ j, k0 ≤ j → j < k → fails j ∧ rests j) →
       func (ws k) = (Ok a, w') →
       retry_loop sleep func max_attempts delay (seq k0 n) (ws k0)
       = (Ok (Succeeded a), w')) ∧
    (∀ k, S k = k0 + n → k0 ≤ k →
       (∀ j, k0 ≤ j → j < k → fails j ∧ rests j) →
       fails k →
       retry_loop sleep func max_attempts delay (seq k0 n) (ws k0)
       = (Ok (GaveUp (exn_msg (errors k))),
          printed (wf k) (host (wf k)) (failed_line k (errors k)))) ∧
    (∀ k e h, k0 ≤ k → S k < k0 + n →
       (∀ j, k0 ≤ j → j < k → fails j ∧ rests j) →
       fails k →
       sleep delay (host (wf k)) = (Raise e, h) →
       retry_loop sleep func max_attempts delay (seq k0 n) (ws k0)
       = (Raise e, printed (wf k) h (failed_line k (errors k)))).
Proof.
  induction n as [|n IH]; intros k0 Hmax fails rests.
  - split_and!; intros; lia.
  - destruct (IH (S k0)) as (IHok & IHlast & IHsleep); [lia|].
    fold fails in IHok, IHlast, IHsleep. fold rests in IHok, IHlast, IHsleep.
    assert (∀ k, k0 < k → (∀ j, k0 ≤ j → j < k → fails j ∧ rests j) →
            S k0 < k0 + S n →
            retry_loop sleep func max_attempts delay (seq k0 (S n)) (ws k0)
            = retry_loop sleep func max_attempts delay (seq (S k0) n) (ws (S k0)))
      as Hstep.
    { intros k Hk Hprev Hlt. destruct (Hprev k0) as [Hf [Hs Hw]]; [lia..|].
      cbn [seq]. erewrite retry_loop_step_sleep; [|exact Hf|lia|exact Hs].
      by rewrite Hw. }
    split_and!.
    + intros k a w' Hk Hlt Hprev Hf.
      destruct (decide (k = k0)) as [->|Hne].
      * cbn [seq]. by apply retry_loop_step_ok.
      * rewrite (Hstep k) by (done || lia).
        apply (IHok k); [lia|lia| |done]. intros j Hj Hjk. apply Hprev; lia.
    + intros k Hk Hk0 Hprev Hf.
      destruct (decide (k = k0)) as [->|Hne].
      * cbn [seq]. apply retry_loop_step_last; [done|lia].
      * rewrite (Hstep k) by (done || lia).
        apply (IHlast k); [lia|lia| |done]. intros j Hj Hjk. apply Hprev; lia.
    + intros k e h Hk Hlt Hprev Hf Hs.
      destruct (decide (k = k0)) as [->|Hne].
      * cbn [seq].
        erewrite retry_loop_step_sleep; [|exact Hf|lia|exact Hs]. done.
      * rewrite (Hstep k) by (done || lia).
        apply (IHsleep k); [lia|lia| |done|done]. intros j Hj Hjk. apply Hprev; lia.
Qed.

(** X25: [retry_operation(func, max_attempts, delay)] calls [func] up to
    [max_attempts] times.  With [max_attempts] zero or less it calls
    nothing and ends without a result.  Otherwise, after each call that
    raises it prints ["Attempt <n> failed: <message>"] and, unless that was
    the last attempt, sleeps and calls again; it returns [(True, result)]
    at the first call that returns, and [(False, message)] with the message
    of the last exception when all [max_attempts] calls have raised.  It
    catches what [func] raises, but an exception raised by
    [time.sleep(delay)] between two attempts leaves [retry_operation]. *)
Theorem retry_operation_spec {A} (func : M H A) max_attempts delay
    (ws wf : nat → World H) (hs : nat → H) (errors : nat → Exn) :
  let fails j := func (ws j) = (Raise (errors j), wf j) in
  let rests j :=
    sleep delay (host (wf j)) = (Ok (), hs j) ∧
    ws (S j) = printed (wf j) (hs j) (failed_line j (errors j)) in
  ((max_attempts ≤ 0)%Z →
   retry_operation sleep func max_attempts delay (ws 0) = (Ok NoResult, ws 0)) ∧
  (∀ k a w', (Z.of_nat k < max_attempts)%Z →
     (∀ j, j < k → fails j ∧ rests j) →
     func (ws k) = (Ok a, w') →
     retry_operation sleep func max_attempts delay (ws 0)
     = (Ok (Succeeded a), w')) ∧
  (∀ k, Z.of_nat (S k) = max_attempts →
     (∀ j, j < k → fails j ∧ rests j) →
     fails k →
     retry_operation sleep func max_attempts delay (ws 0)
     = (Ok (GaveUp (exn_msg (errors k))),
        printed (wf k) (host (wf k)) (failed_line k (errors k)))) ∧
  (∀ k e h, (Z.of_nat (S k) < max_attempts)%Z →
     (∀ j, j < k → fails j ∧ rests j) →
     fails k →
     sleep delay (host (wf k)) = (Raise e, h) →
     retry_operation sleep func max_attempts delay (ws 0)
     = (Raise e, printed (wf k) h (failed_line k (errors k)))).
Proof.
  intros fails rests. unfold retry_operation.
  destruct (decide (max_attempts ≤ 0)%Z) as [Hle|Hgt].
  - replace (Z.to_nat max_attempts) with 0 by lia.
    split_and!; [done|intros; lia..].
  - destruct (retry_loop_chain func max_attempts delay ws wf hs errors
                (Z.to_nat max_attempts) 0) as (Hok & Hlast & Hsleep); [lia|].
    split_and!.
    + intros; lia.
    + intros k a w' Hk Hprev Hf. apply (Hok k); [lia|lia| |done].
      intros j _ Hj. by apply Hprev.
    + intros k Hk Hprev Hf. apply (Hlast k); [lia|lia| |done].
      intros j _ Hj. by apply Hprev.
    + intros k e h Hk Hprev Hf Hs. apply (Hsleep k e h); [lia|lia| |done|done].
      intros j _ Hj. by apply Hprev.
Qed.

(** *** [create_with_fallback] *)

Lemma fallback_loop_spec parent base_name op_type (hosts : nat → H)
    (errors : nat → Exn) left :
  ∀ w, left ≤ 10 → host w = hosts (10 - left) →
    (∀ k o h', 10 - left ≤ k → k < 10 →
       (∀ j, 10 - left ≤ j → j < k →
          h_create api parent op_type (fallback_name base_name j) (hosts j)
          = (Raise (errors j), hosts (S j))) →
       h_create api parent op_type (fallback_name base_name k) (hosts k)
       = (Ok o, h') →
       fallback_loop api parent base_name op_type left w
       = (Ok (Some o),
          printed w h' ("Created operator with name: " +:+ fallback_name base_name k))) ∧
    ((∀ j, 10 - left ≤ j → j < 10 →
        h_create api parent op_type (fallback_name base_name j) (hosts j)
        = (Raise (errors j), hosts (S j))) →
     fallback_loop api parent base_name op_type left w
     = (Ok None, printed w (hosts 10) "Failed to create operator after 10 attempts")).
Proof.
  induction left as [|left IH]; intros w Hle Hw.
  - split; [intros k o h' ? ?; lia|]. intros _. simpl.
    unfold mbind, M_bind, bind, print, ret, printed. simpl.
    by rewrite Hw.
  - destruct (IH {| host := hosts (10 - left); stdout := stdout w;
                    log_text := log_text w |}) as [IHok IHnone]; [lia|done|].
    split.
    + intros k o h' Hk Hk10 Hprev Hcreate. cbn [fallback_loop].
      unfold try_except, mbind, M_bind, bind, host_call. rewrite Hw.
      destruct (decide (k = 10 - S left)) as [->|Hne].
      * rewrite Hcreate. done.
      * rewrite (Hprev (10 - S left)) by lia.
        replace (S (10 - S left)) with (10 - left) by lia.
        rewrite (IHok k o h'); [done|lia|done| |done].
        intros j Hj Hjk. apply Hprev; lia.
    + intros Hall. cbn [fallback_loop].
      unfold try_except, mbind, M_bind, bind, host_call. rewrite Hw.
      rewrite (Hall (10 - S left)) by lia.
      replace (S (10 - S left)) with (10 - left) by lia.
      rewrite IHnone; [done|]. intros j Hj Hj10. apply Hall; lia.
Qed.

(** X26: [create_with_fallback] tries the preferred name, then the
    preferred name followed by [_1] up to [_9], and returns the operator
    of the first creation that does not raise, announcing its name and
    printing nothing for the attempts that failed; when all ten raise it
    reports the failure and returns [None]. *)
Theorem create_with_fallback_spec parent preferred_name op_type
    (hosts : nat → H) (errors : nat → Exn) w :
  host w = hosts 0 →
  (∀ k o h', k < 10 →
     (∀ j, j < k →
        h_create api parent op_type (fallback_name preferred_name j) (hosts j)
        = (Raise (errors j), hosts (S j))) →
     h_create api parent op_type (fallback_name preferred_name k) (hosts k)
     = (Ok o, h') →
     create_with_fallback api parent preferred_name op_type w
     = (Ok (Some o),
        printed w h' ("Created operator with name: "
                      +:+ fallback_name preferred_name k))) ∧
  ((∀ j, j < 10 →
      h_create api parent op_type (fallback_name preferred_name j) (hosts j)
      = (Raise (errors j), hosts (S j))) →
   create_with_fallback api parent preferred_name op_type w
   = (Ok None, printed w (hosts 10) "Failed to create operator after 10 attempts")).
Proof.
  intros Hw. unfold create_with_fallback.
  destruct (fallback_loop_spec parent preferred_name op_type hosts errors 10 w)
    as [Hok Hnone]; [done|done|].
  split.
  - intros k o h' Hk Hprev Hcreate. apply Hok; [lia|done| |done].
    intros j _ Hj. by apply Hprev.
  - intros Hall. apply Hnone. intros j _ Hj. by apply Hall.
Qed.

(** *** [safe_batch_operation] *)

Lemma batch_loop_chain (operation_func : OP → M H unit) operators :
  ∀ completed (ws : nat → World H),
    let ops := omap id operators in
    ((∀ j o, ops !! j = Some o → operation_func o (ws j) = (Ok (), ws (S j))) →
     batch_loop operation_func operators completed (ws 0)
     = (Ok (None, completed ++ ops), ws (length ops))) ∧
    (∀ k o e w', ops !! k = Some o →
       (∀ j o', j < k → ops !! j = Some o' →
          operation_func o' (ws j) = (Ok (), ws (S j))) →
       operation_func o (ws k) = (Raise e, w') →
       batch_loop operation_func operators completed (ws 0)
       = (Ok (Some e, completed ++ take k ops), w')).
Proof.
  induction operators as [|[o|] operators IH]; intros completed ws ops.
  - split; [|done]. intros _. simpl. by rewrite app_nil_r.
  - unfold ops. change (omap id (Some o :: operators)) with (o :: omap id operators).
    destruct (IH (completed ++ [o]) (λ j, ws (S j))) as [IHall IHstop].
    split.
    + intros Hall. cbn [batch_loop].
      unfold mbind at 1, M_bind at 1, bind at 1, observe at 1.
      rewrite (Hall 0 o eq_refl). rewrite IHall.
      * by rewrite <- app_assoc.
      * intros j o' Hj. by apply (Hall (S j)).
    + intros k o' e w' Hk Hprev Hf. cbn [batch_loop].
      unfold mbind at 1, M_bind at 1, bind at 1, observe at 1.
      destruct k as [|k].
      * injection Hk as ->. rewrite Hf. by rewrite app_nil_r.
      * rewrite (Hprev 0 o) by (done || lia).
        rewrite (IHstop k o' e w'); [by rewrite <- app_assoc|done| |done].
        intros j o'' Hj Ho. apply (Hprev (S j)); [lia|done].
  - apply (IH completed ws).
Qed.

(** X27: [safe_batch_operation(operators, operation_func)] calls
    [operation_func] on the operators given, in order, leaving out the
    entries that are [None].  When every call returns, it returns [True]
    with all of them as completed.  When a call raises, it calls nothing
    further, prints ["Batch operation failed: <message>"] and returns
    [False] with the operators before that one as completed; the exception
    does not leave [safe_batch_operation]. *)
Theorem safe_batch_operation_spec operators (operation_func : OP → M H unit)
    (ws : nat → World H) :
  let ops := omap id operators in
  ((∀ j o, ops !! j = Some o → operation_func o (ws j) = (Ok (), ws (S j))) →
   safe_batch_operation operators operation_func (ws 0)
   = (Ok (true, ops), ws (length ops))) ∧
  (∀ k o e w', ops !! k = Some o →
     (∀ j o', j < k → ops !! j = Some o' →
        operation_func o' (ws j) = (Ok (), ws (S j))) →
     operation_func o (ws k) = (Raise e, w') →
     safe_batch_operation operators operation_func (ws 0)
     = (Ok (false, take k ops),
        printed w' (host w') ("Batch operation failed: " +:+ exn_msg e))).
Proof.
  intros ops. destruct (batch_loop_chain operation_func operators [] ws)
    as [Hall Hstop].
  fold ops in Hall, Hstop. unfold safe_batch_operation. split.
  - intros Hok. unfold mbind at 1, M_bind at 1, bind at 1. by rewrite Hall.
  - intros k o e w' Hk Hprev Hf. unfold mbind at 1, M_bind at 1, bind at 1.
    by rewrite (Hstop k o e w' Hk Hprev Hf).
Qed.

End Patterns.

(** The retry test of the script: [flaky_operation] raises at its first
    call and returns at its second, so [retry_operation] prints one line,
    sleeps once and returns [(True, "Success!")]. *)
Lemma retry_operation_spec_witness :
  retry_operation sleep_seconds flaky_operation 3 (QArith_base.Qmake 1 10)
    {| host := 0; stdout := []; log_text := "" |}
  = (Ok (Succeeded "Success!"),
     {| host := 2; stdout := ["Attempt 1 failed: Temporary failure"];
        log_text := "" |}).
Proof.
  pose (w0 := {| host := 0; stdout := []; log_text := "" |} : World nat).
  pose (w1 := {| host := 1; stdout := ["Attempt 1 failed: Temporary failure"];
                 log_text := "" |} : World nat).
  destruct (retry_operation_spec sleep_seconds flaky_operation 3
              (QArith_base.Qmake 1 10)
              (λ j, match j with 0 => w0 | _ => w1 end)
              (λ _, {| host := 1; stdout := []; log_text := "" |})
              (λ _, 1)
              (λ _, {| exn_class := OtherError; exn_msg := "Temporary failure" |}))
    as (_ & Hok & _).
  apply (Hok 1 "Success!"); [lia| |reflexivity].
  intros j Hj. assert (j = 0) as -> by lia. by vm_compute.
Defined.

(** A negative delay: the exception of [time.sleep] leaves
    [retry_operation] after the first failed attempt. *)
Example retry_operation_negative_delay :
  retry_operation sleep_seconds flaky_operation 3 (QArith_base.Qmake (-1) 10)
    {| host := 0; stdout := []; log_text := "" |}
  = (Raise {| exn_class := ValueError;
              exn_msg := "sleep length must be non-negative" |},
     {| host := 1; stdout := ["Attempt 1 failed: Temporary failure"];
        log_text := "" |}).
Proof. vm_compute. reflexivity. Qed.

(** With one attempt the failure of [flaky_operation] is final. *)
Example retry_operation_single_attempt :
  retry_operation sleep_seconds flaky_operation 1 (QArith_base.Qmake 1 10)
    {| host := 0; stdout := []; log_text := "" |}
  = (Ok (GaveUp "Temporary failure"),
     {| host := 1; stdout := ["Attempt 1 failed: Temporary failure"];
        log_text := "" |}).
Proof. vm_compute. reflexivity. Qed.

(** A batch over the host that records the calls made, with an operation
    that raises on operator [2]: the operators before it are completed,
    and the one after it is never reached. *)
Example safe_batch_operation_stops :
  safe_batch_operation [Some 0; None; Some 1; Some 2; Some 3]
    (λ o w, if decide (o = 2)
            then (Raise {| exn_class := OtherError; exn_msg := "no such parameter" |}, w)
            else (Ok (), {| host := host w ++ [o]; stdout := stdout w;
                            log_text := log_text w |}))
    {| host := []; stdout := []; log_text := "" |}
  = (Ok (false, [0; 1]),
     {| host := [0; 1]; stdout := ["Batch operation failed: no such parameter"];
        log_text := "" |}).
Proof. vm_compute. reflexivity. Qed.

(** The second [create_with_fallback(..., 'fallback_test', ...)] of the
    script, made when the name is already in use. *)
Lemma create_with_fallback_spec_witness :
  create_with_fallback naming_api 0 "fallback_test" "noiseTOP"
    {| host := ["fallback_test"]; stdout := []; log_text := "" |}
  = (Ok (Some 1),
     {| host := ["fallback_test"; "fallback_test_1"];
        stdout := ["Created operator with name: fallback_test_1"];
        log_text := "" |}).
Proof.
  destruct (create_with_fallback_spec naming_api 0 "fallback_test" "noiseTOP"
              (λ _, ["fallback_test"]) (λ _, host_error "name already in use")
              {| host := ["fallback_test"]; stdout := []; log_text := "" |} eq_refl)
    as [H _].
  apply (H 1 1 ["fallback_test"; "fallback_test_1"]); [lia| |reflexivity].
  intros j Hj. replace j with 0 by lia. reflexivity.
Defined.


(** *** [create_network_with_cleanup] *)

Section Cleanup.
Context {H Value : Type} (api : HostAPI H Value).
Context (h_connect : OP → nat → OP → H → result unit * H).
Context (h_name : OP → H → result string * H).

Lemma destroy_created_total created_ops :
  ∀ w, ∃ w', destroy_created api h_name created_ops w = (Ok (), w').
Proof.
  induction created_ops as [|o l IH]; intros w; [by eexists|].
  cbn [destroy_created]. unfold mbind at 1, M_bind at 1, bind at 1.
  unfold try_except, mbind, M_bind, bind, host_call, print, ret.
  destruct (h_destroy api o (host w)) as [[[]|e] h1]; simpl; [|apply IH].
  destruct (h_name o h1) as [[name|e] h2]; simpl; apply IH.
Qed.

Lemma cleanup_handler_returns_None created_ops e w :
  ∃ w', cleanup_handler api h_name created_ops e w = (Ok None, w').
Proof.
  unfold cleanup_handler. unfold mbind at 1, M_bind at 1, bind at 1, print at 1.
  unfold mbind at 1, M_bind at 1, bind at 1.
  match goal with |- context [destroy_created _ _ _ ?w1] =>
    destruct (destroy_created_total created_ops w1) as [w' ->] end.
  by eexists.
Qed.

(** X30: [create_network_with_cleanup] returns [None] in every case and
    never raises: whether a creation or the connection fails or all of
    them succeed, the [except] block is entered, so the list of created
    operators is never returned. *)
Theorem create_network_with_cleanup_returns_None w :
  ∃ w', create_network_with_cleanup api h_connect h_name w = (Ok None, w').
Proof.
  unfold create_network_with_cleanup.
  unfold mbind at 1, M_bind at 1, bind at 1, observe at 1.
  destruct (create_in_project1 api "noiseTOP" "cleanup_noise" w) as [[noise|e] w1];
    [|apply cleanup_handler_returns_None].
  unfold mbind at 1, M_bind at 1, bind at 1, observe at 1.
  destruct (create_in_project1 api "blurTOP" "cleanup_blur" w1) as [[blur|e] w2];
    [|apply cleanup_handler_returns_None].
  unfold mbind at 1, M_bind at 1, bind at 1, observe at 1.
  destruct (host_call (h_connect blur 0 noise) w2) as [[[]|e] w3];
    apply cleanup_handler_returns_None.
Qed.

End Cleanup.

(** *** [safe_connect] *)

Section Connect.
Context {Value : Type} (api : HostAPI Network Value).

Lemma py_index_inputConnectors net target (i : Z) :
  let n := Z.of_nat (length (inputConnectors net target)) in
  py_index (inputConnectors net target) i
  = if decide (0 ≤ i < n)%Z then Some (input_of target (Z.to_nat i))
    else if decide (- n ≤ i < 0)%Z then Some (input_of target (Z.to_nat (n + i)))
    else None.
Proof.
  intros n. unfold py_index. fold n.
  destruct (Z.leb_spec 0 i) as [Hi|Hi].
  - rewrite (decide_False (P:=(- n ≤ i < 0)%Z)) by lia.
    destruct (decide (0 ≤ i < n)%Z) as [Hlt|Hge].
    + apply DynamicFacts.lookup_inputConnectors. unfold n in Hlt. lia.
    + apply lookup_ge_None. unfold n in Hge. lia.
  - rewrite (decide_False (P:=(0 ≤ i < n)%Z)) by lia.
    destruct (Z.leb_spec (- n) i) as [Hn|Hn].
    + rewrite decide_True by lia.
      apply DynamicFacts.lookup_inputConnectors. unfold n in *. lia.
    + by rewrite decide_False by lia.
Qed.

(** X28: when both paths name operators, [safe_connect] wires [source]
    into input [input_index] of [target] and returns [True] for an index
    from 0 up to the number of inputs; it refuses an index at or above
    that number as invalid; a negative index is not refused: counted
    from the end it selects an input, which is then wired, and only
    below minus the number of inputs does the call fail; whenever it
    returns [False] the network is unchanged. *)
Theorem safe_connect_spec source_path target_path input_index w source target :
  h_op api source_path (host w) = (Ok (Some source), host w) →
  h_op api target_path (host w) = (Ok (Some target), host w) →
  let n := Z.of_nat (length (inputConnectors (host w) target)) in
  ∃ b message w',
    safe_connect api source_path target_path input_index w = (Ok (b, message), w') ∧
    (b = true ↔ (- n ≤ input_index < n)%Z) ∧
    ((0 ≤ input_index < n)%Z →
     in_connections (host w') (input_of target (Z.to_nat input_index)) = [source]) ∧
    ((- n ≤ input_index < 0)%Z →
     in_connections (host w') (input_of target (Z.to_nat (n + input_index)))
     = [source]) ∧
    ((n ≤ input_index)%Z →
     message = "Invalid input index " +:+ pretty input_index) ∧
    (b = false → w' = w).
Proof.
  intros Hs Ht n.
  assert (w = {| host := host w; stdout := stdout w; log_text := log_text w |})
    as Hw by by destruct w.
  unfold safe_connect.
  unfold mbind at 1, M_bind at 1, bind at 1.
  assert (safe_op_access api source_path w = (Ok (Some source), w)) as ->.
  { unfold safe_op_access, try_except, mbind, M_bind, bind, host_call.
    rewrite Hs. simpl. by rewrite <- Hw. }
  unfold mbind at 1, M_bind at 1, bind at 1.
  assert (safe_op_access api target_path w = (Ok (Some target), w)) as ->.
  { unfold safe_op_access, try_except, mbind, M_bind, bind, host_call.
    rewrite Ht. simpl. by rewrite <- Hw. }
  unfold try_except, mbind, M_bind, bind. fold n.
  destruct (decide (n ≤ input_index)%Z) as [Hge|Hlt].
  - eexists false, _, w. split; [reflexivity|].
    split_and!; [split; [done|lia]|lia|lia|done|done].
  - rewrite py_index_inputConnectors. fold n.
    destruct (decide (0 ≤ input_index < n)%Z) as [Hin|Hout].
    + eexists true, _, _. split; [reflexivity|].
      split_and!; [split; [lia|done]| |lia|lia|done].
      intros _. simpl. apply in_connections_connect_same.
    + destruct (decide (- n ≤ input_index < 0)%Z) as [Hneg|Hfar].
      * eexists true, _, _. split; [reflexivity|].
        split_and!; [split; [lia|done]|lia| |lia|done].
        intros _. simpl. apply in_connections_connect_same.
      * eexists false, _, w. split; [reflexivity|].
        split_and!; [split; [done|lia]|lia|lia|lia|done].
Qed.

End Connect.

Lemma safe_connect_spec_witness :
  ∃ b message w',
    safe_connect util_api "util_noise2" "util_comp" (-1) util_world
    = (Ok (b, message), w') ∧
    (b = true ↔ (- 2 ≤ -1 < 2)%Z) ∧
    in_connections (host w') (input_of 3 1) = [1].
Proof.
  destruct (safe_connect_spec util_api "util_noise2" "util_comp" (-1) util_world 1 3
              eq_refl eq_refl)
    as (b & message & w' & Hrun & Hb & _ & Hneg & _).
  exists b, message, w'. split_and!; [done|done|].
  apply Hneg. vm_compute. by split.
Defined.

(** *** [validate_menu_parameter] *)

Section Menu.
Context (show_names : list string → string).

(** X29: whatever [validate_menu_parameter] accepts is a name of the
    menu: a string is accepted exactly when it is one of [menuNames] and
    is returned as it is; an integer is accepted exactly when it is an
    index from 0 up to the number of names, negative indices being
    refused, and the name at that index is returned; anything else, a
    missing operator or parameter, and a parameter without [menuNames]
    are refused. *)
Theorem validate_menu_parameter_spec operator param_name value :
  let validated := validate_menu_parameter show_names operator param_name value in
  (validated.1 = true →
   ∃ pars menuNames,
     operator = Some pars ∧ pars !! param_name = Some (Some menuNames) ∧
     validated.2 ∈ menuNames) ∧
  ∀ pars menuNames,
    operator = Some pars → pars !! param_name = Some (Some menuNames) →
    (∀ s, value = MenuStr s →
       validated.1 = bool_decide (s ∈ menuNames) ∧
       (s ∈ menuNames → validated.2 = s)) ∧
    (∀ i, value = MenuInt i →
       validated.1 = bool_decide (0 ≤ i < Z.of_nat (length menuNames))%Z ∧
       ((0 ≤ i < Z.of_nat (length menuNames))%Z →
        menuNames !! Z.to_nat i = Some validated.2)) ∧
    (value = MenuOther → validated.1 = false).
Proof.
  intros validated. unfold validated, validate_menu_parameter. split.
  - destruct operator as [pars|]; simpl; [|done].
    destruct (pars !! param_name) as [[menuNames|]|] eqn:Hp; simpl; [|done..].
    intros Hv. exists pars, menuNames. split_and!; [done..|].
    destruct value as [s|i|]; [| |done].
    + by destruct (decide (s ∈ menuNames)).
    + destruct (decide (0 ≤ i < Z.of_nat (length menuNames))%Z) as [Hi|]; [|done].
      unfold py_index in *. rewrite (proj2 (Z.leb_le 0 i)) in * by lia.
      destruct (menuNames !! Z.to_nat i) as [picked|] eqn:E; [|done].
      simpl. by eapply list_elem_of_lookup_2.
  - intros pars menuNames -> Hp. simpl. rewrite Hp. split_and!.
    + intros s ->. destruct (decide (s ∈ menuNames)) as [Hin|Hout]; simpl.
      * by rewrite bool_decide_eq_true_2.
      * by rewrite bool_decide_eq_false_2.
    + intros i ->.
      destruct (decide (0 ≤ i < Z.of_nat (length menuNames))%Z) as [Hi|Hi].
      * rewrite bool_decide_eq_true_2 by done.
        unfold py_index. rewrite (proj2 (Z.leb_le 0 i)) by lia.
        destruct (lookup_lt_is_Some_2 menuNames (Z.to_nat i)) as [picked Hpick]; [lia|].
        rewrite Hpick. by split.
      * rewrite bool_decide_eq_false_2 by done. by split.
    + by intros ->.
Qed.

End Menu.

End RecoveryFacts.
